(** * CppBinding: a reactive binding graph, embedded from [src/main.cpp]

  The program is a small dataflow engine.  A [TypedBinding<T>] holds a value,
  a change-detection policy and a list of weak back-pointers to its
  subscribers; a [TypedBindedExpr<Ret, Params...>] is a [TypedBinding<Ret>]
  that additionally stores a function, handles to its inputs, an evaluation
  policy and a dirty flag.

  The embedding keeps the objects in a heap indexed by address, because the
  behaviour depends on aliasing: the same leaf is an input of several
  expressions, and every expression is mutated through the back-pointers
  stored in its inputs.  The virtual calls [get], [set] and [update] are
  mutually recursive through the graph and do not terminate on a cyclic
  graph, so the interpreter takes a recursion budget. *)

From stdpp Require Import base option list gmap.
From Stdlib Require Import ZArith Lia.
From Stdlib Require PrimFloat.

Set Default Proof Using "Type".

(** ** Policies ([enum class] at lines 9-22) *)

Module BindingCompPolicy.
Inductive t := NotEqual | Equal | Always | Count.
End BindingCompPolicy.

Module BindingEvalPolicy.
Inductive t := Instant | Lazy | Count.

(** [operator==] on the enumeration, used by the constructor of
    [TypedBindedExpr]. *)
Definition eqb (a b : t) : bool :=
  match a, b with
  | Instant, Instant | Lazy, Lazy | Count, Count => true
  | _, _ => false
  end.
End BindingEvalPolicy.

(** Addresses of heap-allocated nodes ([Binding*], and the pointer inside a
  [std::shared_ptr]). *)
Abbreviation addr := nat.

(** ** Outcomes

  [Dangling] is a dereference of an address that holds no live object
  (undefined behaviour in C++); [OutOfFuel] is an exhausted recursion
  budget. *)
Inductive Res (A : Type) : Type :=
| Ok (a : A)
| Dangling
| OutOfFuel.
Arguments Ok {A} a.
Arguments Dangling {A}.
Arguments OutOfFuel {A}.

Section Store.
(** The value type [T] of the nodes.  The templates are instantiated at
    several types in one graph; the embedding takes one type for all nodes
    (a sum type, where a graph mixes several). *)
Context {T : Type}.

(** *** Objects *)

(** The members that [TypedBindedExpr] adds to [TypedBinding]. *)
Record ExprPart := mkExpr {
  m_eval_policy : BindingEvalPolicy.t;
  m_function : list T → T;
  m_arguments : list addr;
  m_dirty : bool
}.

(** A [TypedBinding<T>]; [m_expr] is [Some] for a [TypedBindedExpr] and
    [None] for a [TypedBindedValue] (or a bare [TypedBinding]). *)
Record Node := mkNode {
  m_value : T;
  m_comp_policy : BindingCompPolicy.t;
  m_refs : list addr;
  m_expr : option ExprPart
}.

Definition with_value (v : T) (nd : Node) : Node :=
  mkNode v (m_comp_policy nd) (m_refs nd) (m_expr nd).

Definition with_refs (rs : list addr) (nd : Node) : Node :=
  mkNode (m_value nd) (m_comp_policy nd) rs (m_expr nd).

Definition with_comp_policy (c : BindingCompPolicy.t) (nd : Node) : Node :=
  mkNode (m_value nd) c (m_refs nd) (m_expr nd).

Definition with_dirty (b : bool) (nd : Node) : Node :=
  mkNode (m_value nd) (m_comp_policy nd) (m_refs nd)
    (match m_expr nd with
     | Some e => Some (mkExpr (m_eval_policy e) (m_function e) (m_arguments e) b)
     | None => None
     end).

Definition with_eval_policy (p : BindingEvalPolicy.t) (nd : Node) : Node :=
  mkNode (m_value nd) (m_comp_policy nd) (m_refs nd)
    (match m_expr nd with
     | Some e => Some (mkExpr p (m_function e) (m_arguments e) (m_dirty e))
     | None => None
     end).

(** *** The call log

    A ghost record of the calls made, in the order they happen.  The code
    has no such log; it is what lets a statement say that a call was, or was
    not, made. *)
Inductive Event :=
| EvGet (p : addr)                   (* [p->get()] entered *)
| EvSet (p : addr) (v : T)           (* [p->set(v)] entered *)
| EvUpdate (p : addr)                (* [p->update()] entered *)
| EvCall (p : addr) (args : list T). (* [m_function(args...)] invoked by [p] *)

(** *** Program state *)
Record State := mkState {
  heap : gmap nat Node;       (* the live objects *)
  owners : gmap nat nat;      (* [use_count] of the [shared_ptr]s to each object *)
  log : list Event
}.

Definition M (A : Type) : Type := State → Res (A * State).

Definition ret {A} (a : A) : M A := λ s, Ok (a, s).

Definition bind {A B} (c : M A) (k : A → M B) : M B :=
  λ s, match c s with
       | Ok (a, s') => k a s'
       | Dangling => Dangling
       | OutOfFuel => OutOfFuel
       end.

Definition out_of_fuel {A} : M A := λ _, OutOfFuel.

(** Primitive accesses. *)
Definition deref (p : addr) : M Node :=
  λ s, match heap s !! p with
       | Some nd => Ok (nd, s)
       | None => Dangling
       end.

Definition modify (p : addr) (f : Node → Node) : M unit :=
  λ s, match heap s !! p with
       | Some nd => Ok (tt, mkState (<[p := f nd]> (heap s)) (owners s) (log s))
       | None => Dangling
       end.

Definition emit (e : Event) : M unit :=
  λ s, Ok (tt, mkState (heap s) (owners s) (log s ++ [e])).

End Store.

Arguments ExprPart : clear implicits.
Arguments Node : clear implicits.
Arguments Event : clear implicits.
Arguments State : clear implicits.
Arguments M : clear implicits.

Notation "'let!' x ':=' c 'in' k" := (bind c (λ x, k))
(at level 10, x name, c at level 100, k at level 200).
Notation "c ';;' k" := (bind c (λ _, k))
(at level 100, k at level 200, right associativity).

Section Engine.
(** The two comparison operators of [T] are kept apart (the code uses [!=]
    under [NotEqual] and [==] under [Equal]); [T0] is the value-initialised
    [T{}]. *)
Context {T : Type}.
Variable ne : T → T → bool.
Variable eq : T → T → bool.
Variable T0 : T.

(** *** [TypedBinding<T>] (lines 30-76) *)

(** [different_with], reading the members of the node it is called on. *)
Definition different_with (nd : Node T) (other : T) : bool :=
  match m_comp_policy nd with
  | BindingCompPolicy.NotEqual => ne (m_value nd) other
  | BindingCompPolicy.Equal => negb (eq (m_value nd) other)
  | BindingCompPolicy.Always
  | BindingCompPolicy.Count => true
  end.

(** [TypedBinding<T>::get]. *)
Definition base_get (p : addr) : M T T :=
  let! nd := deref p in ret (m_value nd).

(** The range-[for] over [m_refs]. *)
Fixpoint for_each (f : addr → M T unit) (l : list addr) : M T unit :=
  match l with
  | [] => ret tt
  | r :: l' => f r;; for_each f l'
  end.

(** [TypedBinding<T>::set]; [update] is the virtual [Binding::update] of the
    subscribers. *)
Definition set_body (update : addr → M T unit) (p : addr) (value : T) : M T unit :=
  emit (EvSet p value);;
  let! nd := deref p in
  if different_with nd value then
    modify p (with_value value);;
    for_each update (m_refs nd)
  else ret tt.

(** *** [TypedBindedExpr<Ret, Params...>] (lines 116-217) *)

(** The argument reads of [dispatch]: the recursive overload appends
    [std::get<k>(m_arguments)->get()] for k = 0, 1, ..., in this order. *)
Fixpoint read_all (get : addr → M T T) (args : list addr) : M T (list T) :=
  match args with
  | [] => ret []
  | a :: args' =>
      let! v := get a in
      let! vs := read_all get args' in
      ret (v :: vs)
  end.

Definition dispatch (get : addr → M T T) (p : addr) (e : ExprPart T) : M T T :=
  let! vals := read_all get (m_arguments e) in
  emit (EvCall p vals);;
  ret (m_function e vals).

(** [TypedBindedExpr::get]; on a node that is not an expression the virtual
    call lands in [TypedBinding<T>::get]. *)
Definition get_body (get : addr → M T T) (update : addr → M T unit)
    (p : addr) : M T T :=
  emit (EvGet p);;
  let! nd := deref p in
  match m_expr nd with
  | None => ret (m_value nd)
  | Some e =>
      (if m_dirty e then
         let! v := dispatch get p e in
         set_body update p v;;
         modify p (with_dirty false)
       else ret tt);;
      base_get p
  end.

(** [TypedBindedExpr::update]; on a node that is not an expression the
    virtual call lands in the empty [Binding::update]. *)
Definition update_body (get : addr → M T T) (update : addr → M T unit)
    (p : addr) : M T unit :=
  emit (EvUpdate p);;
  let! nd := deref p in
  match m_expr nd with
  | None => ret tt
  | Some e =>
      match m_eval_policy e with
      | BindingEvalPolicy.Instant =>
          let! v := dispatch get p e in
          set_body update p v
      | BindingEvalPolicy.Lazy => modify p (with_dirty true)
      | BindingEvalPolicy.Count => ret tt
      end
  end.

(** The virtual calls, tied together.  [fuel] bounds the depth of nested
    calls. *)
Fixpoint get (fuel : nat) (p : addr) : M T T :=
  match fuel with
  | O => out_of_fuel
  | S k => get_body (get k) (update k) p
  end
with update (fuel : nat) (p : addr) : M T unit :=
  match fuel with
  | O => out_of_fuel
  | S k => update_body (get k) (update k) p
  end.

Definition set (fuel : nat) (p : addr) (value : T) : M T unit :=
  set_body (update fuel) p value.

(** The read of an expression node as the specification words it: "if dirty,
  recompute by invoking the function with the current value of every input
  (read via each input's own get()), store the result through the same set
  path used by ValueNode, and clear the dirty flag.  Then return the cached
  value."  It is compared with [get] below. *)
Definition lazy_get_spec (fuel : nat) (p : addr) : M T T :=
  emit (EvGet p);;
  let! nd := deref p in
  match m_expr nd with
  | Some e =>
      (if m_dirty e then
         let! inputs := read_all (get fuel) (m_arguments e) in
         emit (EvCall p inputs);;
         set fuel p (m_function e inputs);;
         modify p (with_dirty false)
       else ret tt);;
      let! cached := deref p in
      ret (m_value cached)
  | None => ret (m_value nd)
  end.

(** [notified upd refs s s']: [upd] ran on every element of [refs], first to
  last, each run starting where the previous one ended, from [s] to [s']. *)
Inductive notified (upd : addr → M T unit) : list addr → State T → State T → Prop :=
| notified_nil s : notified upd [] s s
| notified_cons r refs s s1 s2 :
    upd r s = Ok (tt, s1) → notified upd refs s1 s2 → notified upd (r :: refs) s s2.

(** [install_ref]: [arg->m_refs.push_back(this)]. *)
Definition install_ref (this arg : addr) : M T unit :=
  modify arg (λ nd, with_refs (m_refs nd ++ [this]) nd).

(** The list left by [m_refs.remove_if([this](Binding* ref) { return ref == this; })]. *)
Definition remove_this (this : addr) (refs : list addr) : list addr :=
  filter (λ ref, ref ≠ this) refs.

(** [uninstall_ref]. *)
Definition uninstall_ref (this arg : addr) : M T unit :=
  modify arg (λ nd, with_refs (remove_this this (m_refs nd)) nd).

(** [process_refs<Install, 0>]: the template recursion walks the tuple of
    inputs from index 0 upwards. *)
Fixpoint process_refs (Install : bool) (this : addr) (args : list addr) : M T unit :=
  match args with
  | [] => ret tt
  | a :: args' =>
      (if Install then install_ref this a else uninstall_ref this a);;
      process_refs Install this args'
  end.

(** *** Allocation and shared ownership

    [new] returns an address that holds no live object; which one is up to
    the allocator, the embedding takes the least one. *)
Definition alloc (nd : Node T) : M T addr :=
  λ s, let p := fresh (dom (heap s)) in
       Ok (p, mkState (<[p := nd]> (heap s)) (<[p := 1]> (owners s)) (log s)).

(** Copying a [shared_ptr]. *)
Definition retain (p : addr) : M T unit :=
  λ s, match owners s !! p with
       | Some c => Ok (tt, mkState (heap s) (<[p := S c]> (owners s)) (log s))
       | None => Dangling
       end.

Definition free (p : addr) : M T unit :=
  λ s, Ok (tt, mkState (delete p (heap s)) (delete p (owners s)) (log s)).

(** [TypedBindedValue(T value)] behind [TypedBindedValuePtr(T value)]: the
    members take their default initialisers, then the body calls [set]. *)
Definition new_value (fuel : nat) (value : T) : M T addr :=
  let! p := alloc (mkNode T0 BindingCompPolicy.NotEqual [] None) in
  set fuel p value;;
  ret p.

(** [TypedBindedExpr(FuncType function, TypedBindingPtr<Params>... arguments)]
    behind [TypedBindedExprPtr]: member initialisers (the tuple copies the
    handles), then the three statements of the body. *)
Definition new_expr (fuel : nat) (function : list T → T) (arguments : list addr)
    : M T addr :=
  let! p := alloc (mkNode T0 BindingCompPolicy.NotEqual []
                     (Some (mkExpr BindingEvalPolicy.Instant function arguments false))) in
  for_each retain arguments;;
  let! nd := deref p in
  modify p (with_dirty
              (match m_expr nd with
               | Some e => BindingEvalPolicy.eqb (m_eval_policy e) BindingEvalPolicy.Instant
               | None => false
               end));;
  process_refs true p arguments;;
  update fuel p;;
  ret p.

(** Destroying a [shared_ptr] to [p].  The last owner deletes the object:
    for an expression the destructor body runs [process_refs<false, 0>],
    after which the members are destroyed, among them the tuple of input
    handles (taken here from index 0 upwards; the standard leaves the order
    to the library); then the storage is returned. *)
Fixpoint release (fuel : nat) (p : addr) : M T unit :=
  match fuel with
  | O => out_of_fuel
  | S k =>
      λ s, match owners s !! p with
           | None => Dangling
           | Some (S (S c)) =>
               Ok (tt, mkState (heap s) (<[p := S c]> (owners s)) (log s))
           | Some _ =>
               (let! nd := deref p in
                match m_expr nd with
                | Some e =>
                    process_refs false p (m_arguments e);;
                    for_each (release k) (m_arguments e);;
                    free p
                | None => free p
                end) s
           end
  end.

(** Assignments to the public members, as in [pe->m_eval_policy = ...]. *)
Definition assign_eval_policy (p : addr) (pol : BindingEvalPolicy.t) : M T unit :=
  modify p (with_eval_policy pol).

Definition assign_comp_policy (p : addr) (pol : BindingCompPolicy.t) : M T unit :=
  modify p (with_comp_policy pol).

(** Calls made from outside the graph, and a sequence of them. *)
Inductive Op :=
| OpGet (p : addr)
| OpSet (p : addr) (value : T)
| OpUpdate (p : addr).

Definition run_op (fuel : nat) (o : Op) : M T unit :=
  match o with
  | OpGet p => get fuel p;; ret tt
  | OpSet p value => set fuel p value
  | OpUpdate p => update fuel p
  end.

Fixpoint run_ops (fuel : nat) (ops : list Op) : M T unit :=
  match ops with
  | [] => ret tt
  | o :: ops' => run_op fuel o;; run_ops fuel ops'
  end.

End Engine.

Definition empty_state {T} : State T := mkState ∅ ∅ [].

(** ** Observations on states and runs *)

Section Observations.
Context {T : Type}.

Implicit Types (s : State T) (nd : Node T) (e : ExprPart T) (p q : addr)
  (t : list (Event T)).

(** The dirty flag of a node; a node that is not an expression has none. *)
Definition is_dirty nd : bool :=
  match m_expr nd with
  | Some e => m_dirty e
  | None => false
  end.

(** Two snapshots of one object that differ at most in [m_value] and
    [m_dirty]. *)
Definition same_shape nd nd' : Prop :=
  m_refs nd' = m_refs nd ∧
  m_comp_policy nd' = m_comp_policy nd ∧
  match m_expr nd, m_expr nd' with
  | None, None => True
  | Some e, Some e' =>
      m_eval_policy e' = m_eval_policy e ∧
      m_function e' = m_function e ∧
      m_arguments e' = m_arguments e
  | _, _ => False
  end.

(** [evolves t s s']: what every run of [get], [set] and [update] from [s]
    to [s'] that logs [t] guarantees. *)
Record evolves t s s' : Prop := mkEvolves {
  ev_log : log s' = log s ++ t;
  ev_owners : owners s' = owners s;
  ev_dead : ∀ q, heap s !! q = None → heap s' !! q = None;
  ev_shape : ∀ q nd, heap s !! q = Some nd →
               ∃ nd', heap s' !! q = Some nd' ∧ same_shape nd nd';
  ev_dirty : ∀ q nd nd', heap s !! q = Some nd → heap s' !! q = Some nd' →
               EvGet q ∉ t → is_dirty nd = true → is_dirty nd' = true;
  ev_value : ∀ q nd nd', heap s !! q = Some nd → heap s' !! q = Some nd' →
               (∀ v, EvSet q v ∉ t) → m_value nd' = m_value nd;
  ev_alive : ∀ q, EvGet q ∈ t ∨ EvUpdate q ∈ t → is_Some (heap s !! q)
}.

(** [rewired s s']: the objects of [s'] are those of [s], with the same
  members except for [m_refs]; nothing was logged. *)
Record rewired s s' : Prop := mkRewired {
  rw_log : log s' = log s;
  rw_dead : ∀ q, heap s !! q = None → heap s' !! q = None;
  rw_live : ∀ q nd, heap s !! q = Some nd →
              ∃ nd', heap s' !! q = Some nd' ∧ m_value nd' = m_value nd ∧
                     m_comp_policy nd' = m_comp_policy nd ∧ m_expr nd' = m_expr nd
}.

(** [shrinks s s']: every object of [s'] is an object of [s], and its
  subscribers in [s'] were its subscribers in [s]. *)
Definition shrinks s s' : Prop :=
  ∀ q nd', heap s' !! q = Some nd' →
    ∃ nd, heap s !! q = Some nd ∧ ∀ x, x ∈ m_refs nd' → x ∈ m_refs nd.

(** The object at [p] is an expression under [Instant] policy with the given
  function and inputs, and its dirty flag is set. *)
Definition instant_and_dirty (function : list T → T) (arguments : list addr) p s : Prop :=
  ∃ nd, heap s !! p = Some nd ∧
        m_expr nd = Some (mkExpr BindingEvalPolicy.Instant function arguments true).

(** The state after [p->set(value)] has been entered. *)
Definition entered_set p (value : T) s : State T :=
  mkState (heap s) (owners s) (log s ++ [EvSet p value]).

(** The state after [set] has assigned [m_value] of [nd], the object at [p]. *)
Definition stored p (value : T) nd s : State T :=
  mkState (<[p := with_value value nd]> (heap s)) (owners s) (log s ++ [EvSet p value]).

(** The state after [p->get()] has been entered. *)
Definition entered_get p s : State T :=
  mkState (heap s) (owners s) (log s ++ [EvGet p]).

(** [c'] returns whatever [c] returns. *)
Definition extends {A} (c c' : M T A) : Prop :=
  ∀ s r, c s = Ok r → c' s = Ok r.

(** A computation indexed by its budget that keeps its outcome when the
  budget grows. *)
Definition fuel_mono {A} (c : nat → M T A) : Prop :=
  ∀ k, extends (c k) (c (S k)).

End Observations.

(** ** Shapes of graphs and of logs *)

Section Shapes.
Context {T : Type}.

Implicit Types (s : State T) (nd : Node T) (e : ExprPart T) (p q a : addr)
  (t : list (Event T)).

(** The state after [p->update()] has been entered. *)
Definition entered_update p s : State T :=
  mkState (heap s) (owners s) (log s ++ [EvUpdate p]).

(** The object a logged call was made on. *)
Definition target (ev : Event T) : addr :=
  match ev with
  | EvGet p | EvSet p _ | EvUpdate p | EvCall p _ => p
  end.

(** No call of [t] was made on [q]. *)
Definition untouched q t : Prop := Forall (λ ev, target ev ≠ q) t.

(** [a] is a live value node; [a] is a live expression. *)
Definition is_leaf s a : Prop := ∃ nd, heap s !! a = Some nd ∧ m_expr nd = None.

Definition is_expr s a : Prop := ∃ nd e, heap s !! a = Some nd ∧ m_expr nd = Some e.

(** [vals] are the stored values of the value nodes [args], in order. *)
Definition input_values s (args : list addr) (vals : list T) : Prop :=
  Forall2 (λ a v, ∃ nd, heap s !! a = Some nd ∧ m_expr nd = None ∧ m_value nd = v)
    args vals.

(** [p] is an expression all of whose inputs are value nodes. *)
Definition first_level p s : Prop :=
  ∃ nd e, heap s !! p = Some nd ∧ m_expr nd = Some e ∧
          Forall (is_leaf s) (m_arguments e).

(** The cached value of [p] is its function applied to the values its inputs
  hold now. *)
Definition current p s : Prop :=
  ∃ nd e vals, heap s !! p = Some nd ∧ m_expr nd = Some e ∧
               input_values s (m_arguments e) vals ∧
               m_value nd = m_function e vals.

Definition flagged p s : Prop := ∃ nd, heap s !! p = Some nd ∧ is_dirty nd = true.

Definition current_or_flagged p s : Prop := current p s ∨ flagged p s.

(** [q] is listed as a subscriber of some live object; [q] is an input of some
  live expression. *)
Definition subscribed s q : Prop := ∃ m nd, heap s !! m = Some nd ∧ q ∈ m_refs nd.

Definition is_input s q : Prop :=
  ∃ m nd e, heap s !! m = Some nd ∧ m_expr nd = Some e ∧ q ∈ m_arguments e.

(** Every call of [t] follows an edge of the graph of [s]: [update] goes to a
  subscriber, [get] to an input, and what sets a value or calls a function
  is an expression. *)
Definition along_edges s t : Prop :=
  Forall (λ ev, match ev with
                | EvUpdate q => subscribed s q
                | EvGet q => is_input s q
                | EvSet q _ | EvCall q _ => is_expr s q
                end) t.

(** Every value node of [s] is in [s'] exactly what it was. *)
Definition leaves_kept s s' : Prop :=
  ∀ q nd, heap s !! q = Some nd → m_expr nd = None → heap s' !! q = Some nd.

(** Every expression of [s] is an expression of [s'], with the function and
  the inputs it had. *)
Definition exprs_kept s s' : Prop :=
  ∀ q nd e, heap s !! q = Some nd → m_expr nd = Some e →
    ∃ nd' e', heap s' !! q = Some nd' ∧ m_expr nd' = Some e' ∧
              m_arguments e' = m_arguments e ∧ m_function e' = m_function e.

Definition frame s s' : Prop := leaves_kept s s' ∧ exprs_kept s s'.

(** From [s] to [s'] the expression [p], if its inputs are value nodes, stays
  current if it was, and stays current or flagged if it was. *)
Definition keeps p s s' : Prop :=
  first_level p s →
  (current p s → current p s') ∧
  (current_or_flagged p s → current_or_flagged p s').

(** How often [a] occurs in [l]. *)
Definition occurrences a (l : list addr) : nat := length (filter (λ x, x = a) l).

(** [local t s s']: the run logged [t], and every object on which [t] has no
    call is in [s'] what it was in [s]. *)
Definition local t s s' : Prop :=
  log s' = log s ++ t ∧ ∀ q, untouched q t → heap s' !! q = heap s !! q.

(** [kf p s s']: a step that keeps the frame and keeps [p]. *)
Definition kf p s s' : Prop := frame s s' ∧ keeps p s s'.

(** [p] is a live expression over value nodes whose policy is not the
    sentinel. *)
Definition listening p s : Prop :=
  ∃ nd e, heap s !! p = Some nd ∧ m_expr nd = Some e ∧
          Forall (is_leaf s) (m_arguments e) ∧
          m_eval_policy e ≠ BindingEvalPolicy.Count.

(** [r] is an expression over value nodes that has no subscribers. *)
Definition shallow s r : Prop :=
  ∃ nd e, heap s !! r = Some nd ∧ m_expr nd = Some e ∧ m_refs nd = [] ∧
          Forall (is_leaf s) (m_arguments e).

(** [x] is an expression over value nodes with its dirty flag set and policy
    [Always], whose first subscriber [e] is an expression under [Instant]
    whose first input is [x]. *)
Definition feeds_back x (e : addr) s : Prop :=
  ∃ ndx ex nde ee rest others,
    heap s !! x = Some ndx ∧ m_expr ndx = Some ex ∧ m_dirty ex = true ∧
    m_comp_policy ndx = BindingCompPolicy.Always ∧ m_refs ndx = e :: others ∧
    Forall (is_leaf s) (m_arguments ex) ∧
    heap s !! e = Some nde ∧ m_expr nde = Some ee ∧
    m_eval_policy ee = BindingEvalPolicy.Instant ∧ m_arguments ee = x :: rest.

(** [s'] has the objects of [s], each with the subscribers, the policies, the
    function and the inputs it has in [s]. *)
Definition shape_kept s s' : Prop :=
  (∀ q, heap s !! q = None → heap s' !! q = None) ∧
  (∀ q nd, heap s !! q = Some nd →
     ∃ nd', heap s' !! q = Some nd' ∧ same_shape nd nd').

(** The two states have the same edges and the same expressions. *)
Definition same_graph s s' : Prop :=
  ∀ q, (subscribed s q ↔ subscribed s' q) ∧
       (is_input s q ↔ is_input s' q) ∧
       (is_expr s q ↔ is_expr s' q).

(** The run logged [t], and every call of [t] follows an edge of [s]. *)
Definition walks t s s' : Prop := log s' = log s ++ t ∧ along_edges s t.

(** The run was entered by the call [ev], and every call made from there
    follows an edge of [s]. *)
Definition enters (ev : Event T) s s' : Prop :=
  ∃ t, log s' = log s ++ ev :: t ∧ along_edges s t.

End Shapes.

(** ** The instance used by the demonstration program: [int] nodes combined
  by [std::plus<>].  The values of the scenarios stay far inside the range
  of [int], where [+] is the addition of integers. *)
Module IntGraph.
Definition int_ne (x y : Z) : bool := negb (Z.eqb x y).
Definition int_eq (x y : Z) : bool := Z.eqb x y.

(** [std::plus<>{}] applied to the two arguments. *)
Definition plus (args : list Z) : Z :=
  match args with
  | [x; y] => (x + y)%Z
  | _ => 0%Z
  end.

Definition get := get (T:=Z) int_ne int_eq.
Definition update := update (T:=Z) int_ne int_eq.
Definition set := set (T:=Z) int_ne int_eq.
Definition new_value := new_value (T:=Z) int_ne int_eq 0%Z.
Definition new_expr := new_expr (T:=Z) int_ne int_eq 0%Z.
Definition release := release (T:=Z).

(** [operator+] on two handles.  The by-value handle parameters on the way to
  the constructor are copies that are destroyed again on return; what stays
  is the copy in the tuple of the new node. *)
Definition add (fuel : nat) (lhs rhs : addr) : M Z addr :=
  new_expr fuel plus [lhs; rhs].

(** The first block of [main]: [a = 1, b = 2; e = a + b]. *)
Definition sum_graph (fuel : nat) : M Z (addr * addr * addr) :=
  let! a := new_value fuel 1%Z in
  let! b := new_value fuel 2%Z in
  let! e := add fuel a b in
  ret (a, b, e).

(** The second block of [main], with the members it prints read at the same
  places: the first read of [e], then after [a = 3] the cached value and
  the dirty flag of [e], the next read of [e], and the flag after it.
  [main] switches the policy before the first read; the specification
  words it the other way round, so the order is a parameter. *)
Definition lazy_scenario (read_before_switch : bool) (fuel : nat)
    : M Z (Z * Z * bool * Z * bool) :=
  let! abe := sum_graph fuel in
  let a := abe.1.1 in
  let e := abe.2 in
  let! r0 := (if read_before_switch
              then (let! r := get fuel e in
                    assign_eval_policy e BindingEvalPolicy.Lazy;; ret r)
              else (assign_eval_policy e BindingEvalPolicy.Lazy;; get fuel e)) in
  set fuel a 3%Z;;
  let! stale := deref e in
  let! r1 := get fuel e in
  let! fresh_node := deref e in
  ret (r0, m_value stale, is_dirty stale, r1, is_dirty fresh_node).

(** The third block of [main]: [e = (a + b) + (a + c)].  The two operands of
  the outer [+] are built in an order the language leaves open, so it is a
  parameter; the two temporaries are released at the end of the
  declaration. *)
Definition diamond_scenario (left_first : bool) (fuel : nat) : M Z (Z * Z) :=
  let! a := new_value fuel 1%Z in
  let! b := new_value fuel 2%Z in
  let! c := new_value fuel 3%Z in
  let! xy := (if left_first
              then (let! x := add fuel a b in let! y := add fuel a c in ret (x, y))
              else (let! y := add fuel a c in let! x := add fuel a b in ret (x, y))) in
  let! e := add fuel xy.1 xy.2 in
  release fuel xy.2;;
  release fuel xy.1;;
  let! r0 := get fuel e in
  set fuel a 5%Z;;
  let! r1 := get fuel e in
  ret (r0, r1).

(** The state in which a computation ends, when it ends. *)
Definition state_after {A} (c : M Z A) (s : State Z) : State Z :=
  match c s with
  | Ok (_, s') => s'
  | _ => s
  end.

(** The value a computation returns, when it returns. *)
Definition value_of {A} (r : Res (A * State Z)) : option A :=
  match r with
  | Ok (a, _) => Some a
  | _ => None
  end.

(** States of the first block of [main]: the two leaves alone; the leaves with
  [e = a + b] just constructed (at 0, 1 and 2); the same after [e] has been
  read once; and with [e] switched to [Lazy] right after construction. *)
Definition leaves_state : State Z :=
  state_after (new_value 1 1%Z;; new_value 1 2%Z) empty_state.

Definition sum_state : State Z := state_after (sum_graph 2) empty_state.

Definition read_state : State Z := state_after (get 2 2) sum_state.

Definition lazy_state : State Z :=
  state_after (assign_eval_policy 2 BindingEvalPolicy.Lazy) sum_state.

(** The objects [a] and [e] of [sum_state], of [read_state] and of
  [lazy_state]. *)
Definition node_a : Node Z := mkNode 1%Z BindingCompPolicy.NotEqual [2] None.

Definition node_e (pol : BindingEvalPolicy.t) (dirty : bool) : Node Z :=
  mkNode 3%Z BindingCompPolicy.NotEqual []
    (Some (mkExpr pol plus [0; 1] dirty)).
End IntGraph.

(** ** The instance at [double]: IEEE 754 binary64 values, on which
  [operator==] is the comparison of the standard (false whenever an operand
  is a NaN) and [operator!=] its negation; [double{}] is [0.0]. *)
Module DoubleGraph.
Definition double_eq (x y : PrimFloat.float) : bool := PrimFloat.eqb x y.
Definition double_ne (x y : PrimFloat.float) : bool := negb (PrimFloat.eqb x y).

Definition get := get (T:=PrimFloat.float) double_ne double_eq.
Definition new_value :=
  new_value (T:=PrimFloat.float) double_ne double_eq PrimFloat.zero.

(** [TypedBindedValuePtr<double> a = value; double(a)]: the value read back,
  when the two calls return. *)
Definition read_back (fuel : nat) (value : PrimFloat.float)
    : option PrimFloat.float :=
  match (let! p := new_value fuel value in get fuel p) empty_state with
  | Ok (w, _) => Some w
  | _ => None
  end.
End DoubleGraph.

(** A state in which a read does not return: on the graph of [read_state],
    [e->m_comp_policy = Always] and [e->m_eval_policy = Lazy], then
    [f = e + b] (at 3), then [a = 5], which leaves [e] flagged. *)
Definition feedback_state : State Z :=
  IntGraph.state_after
    (assign_comp_policy 2 BindingCompPolicy.Always;;
     assign_eval_policy 2 BindingEvalPolicy.Lazy;;
     IntGraph.add 3 2 1;;
     IntGraph.set 3 0 5%Z)
    IntGraph.read_state.

(** The graph of [sum_state] with one more value node, [c = 9] (at 3), that
    nothing depends on. *)
Definition spare_state : State Z :=
  IntGraph.state_after (IntGraph.new_value 1 9%Z) IntGraph.sum_state.


(** ** Reasoning about runs *)

Section Facts.
Context {T : Type}.

Implicit Types (s : State T) (nd : Node T) (e : ExprPart T) (p q : addr)
  (t : list (Event T)).

Lemma bind_Ok {A B} (c : M T A) (k : A → M T B) s r :
  bind c k s = Ok r → ∃ a s1, c s = Ok (a, s1) ∧ k a s1 = Ok r.
Proof.
  unfold bind. destruct (c s) as [[a s1]| |]; [eauto | done | done].
Qed.

Lemma deref_Ok p s nd s' :
  deref p s = Ok (nd, s') → heap s !! p = Some nd ∧ s' = s.
Proof.
  unfold deref. destruct (heap s !! p); [|done]. by intros [= -> ->].
Qed.

Lemma modify_Ok p (f : Node T → Node T) s u s' :
  modify p f s = Ok (u, s') →
  ∃ nd, heap s !! p = Some nd ∧
        s' = mkState (<[p := f nd]> (heap s)) (owners s) (log s).
Proof.
  unfold modify. destruct (heap s !! p) as [nd|]; [|done].
  intros [= _ <-]. eauto.
Qed.

Lemma emit_Ok (ev : Event T) s u s' :
  emit ev s = Ok (u, s') → s' = mkState (heap s) (owners s) (log s ++ [ev]).
Proof. unfold emit. by intros [= _ <-]. Qed.

Lemma same_shape_refl nd : same_shape nd nd.
Proof. unfold same_shape. destruct (m_expr nd); naive_solver. Qed.

Lemma same_shape_trans nd1 nd2 nd3 :
  same_shape nd1 nd2 → same_shape nd2 nd3 → same_shape nd1 nd3.
Proof.
  unfold same_shape. intros (Hr1 & Hc1 & He1) (Hr2 & Hc2 & He2).
  split; [congruence|]. split; [congruence|].
  destruct (m_expr nd1), (m_expr nd2), (m_expr nd3); try done.
  destruct He1 as (? & ? & ?), He2 as (? & ? & ?).
  repeat split; congruence.
Qed.

Lemma same_shape_with_value v nd : same_shape nd (with_value v nd).
Proof. unfold same_shape; simpl. destruct (m_expr nd); naive_solver. Qed.

Lemma same_shape_with_dirty b nd : same_shape nd (with_dirty b nd).
Proof. unfold same_shape; simpl. destruct (m_expr nd); naive_solver. Qed.

Lemma evolves_refl s : evolves [] s s.
Proof.
  split; try done.
  - by rewrite app_nil_r.
  - intros q nd ?. exists nd. auto using same_shape_refl.
  - intros q nd nd' ? ?. congruence.
  - intros q nd nd' ? ?. congruence.
  - intros q [H|H]; by apply elem_of_nil in H.
Qed.

Lemma evolves_trans t1 t2 s s1 s2 :
  evolves t1 s s1 → evolves t2 s1 s2 → evolves (t1 ++ t2) s s2.
Proof.
  intros H1 H2. split.
  - rewrite (ev_log _ _ _ H2), (ev_log _ _ _ H1). by rewrite app_assoc.
  - rewrite (ev_owners _ _ _ H2). apply (ev_owners _ _ _ H1).
  - intros q Hq. eapply ev_dead; [apply H2|]. eapply ev_dead; eauto.
  - intros q nd Hq.
    destruct (ev_shape _ _ _ H1 q nd Hq) as (nd1 & Hq1 & Hs1).
    destruct (ev_shape _ _ _ H2 q nd1 Hq1) as (nd2 & Hq2 & Hs2).
    exists nd2. eauto using same_shape_trans.
  - intros q nd nd' Hq Hq' Hno Hd.
    destruct (ev_shape _ _ _ H1 q nd Hq) as (nd1 & Hq1 & _).
    eapply (ev_dirty _ _ _ H2); eauto.
    + intros ?. apply Hno, elem_of_app. auto.
    + eapply (ev_dirty _ _ _ H1); eauto.
      intros ?. apply Hno, elem_of_app. auto.
  - intros q nd nd' Hq Hq' Hno.
    destruct (ev_shape _ _ _ H1 q nd Hq) as (nd1 & Hq1 & _).
    transitivity (m_value nd1).
    + eapply (ev_value _ _ _ H2); eauto.
      intros v ?. apply (Hno v), elem_of_app. auto.
    + eapply (ev_value _ _ _ H1); eauto.
      intros v ?. apply (Hno v), elem_of_app. auto.
  - intros q Hin.
    assert ((EvGet q ∈ t1 ∨ EvUpdate q ∈ t1) ∨ (EvGet q ∈ t2 ∨ EvUpdate q ∈ t2))
      as [Hl|Hr] by (rewrite !elem_of_app in Hin; tauto).
    + eapply ev_alive; eauto.
    + destruct (ev_alive _ _ _ H2 q Hr) as [nd1 Hq1].
      destruct (heap s !! q) as [nd|] eqn:Hq; [eauto|].
      rewrite (ev_dead _ _ _ H1 q Hq) in Hq1. done.
Qed.

Lemma evolves_log t s s' :
  heap s' = heap s → owners s' = owners s → log s' = log s ++ t →
  (∀ q, EvGet q ∈ t ∨ EvUpdate q ∈ t → is_Some (heap s !! q)) →
  evolves t s s'.
Proof.
  intros Hh Ho Hl Ha. split; try done; rewrite Hh.
  - done.
  - intros q nd ?. exists nd. auto using same_shape_refl.
  - intros q nd nd' ? ?. congruence.
  - intros q nd nd' ? ?. congruence.
Qed.

(** A write to one object after a run. *)
Lemma evolves_then_write t s s1 s2 p nd1 nd2 :
  evolves t s s1 →
  heap s1 !! p = Some nd1 →
  same_shape nd1 nd2 →
  (EvGet p ∉ t → is_dirty nd1 = true → is_dirty nd2 = true) →
  ((∀ v, EvSet p v ∉ t) → m_value nd2 = m_value nd1) →
  heap s2 = <[p := nd2]> (heap s1) → owners s2 = owners s1 → log s2 = log s1 →
  evolves t s s2.
Proof.
  intros H1 Hp Hs Hd Hv Hh Ho Hl. split.
  - rewrite Hl. apply H1.
  - rewrite Ho. apply H1.
  - intros q Hq. rewrite Hh. destruct (decide (p = q)) as [->|Hne].
    + rewrite (ev_dead _ _ _ H1 q Hq) in Hp. done.
    + rewrite lookup_insert_ne by done. by apply H1.
  - intros q nd Hq. rewrite Hh.
    destruct (ev_shape _ _ _ H1 q nd Hq) as (nd' & Hq' & Hs').
    destruct (decide (p = q)) as [->|Hne].
    + rewrite lookup_insert_eq. exists nd2. split; [done|].
      assert (nd' = nd1) as -> by congruence.
      eauto using same_shape_trans.
    + rewrite lookup_insert_ne by done. eauto.
  - intros q nd nd' Hq. rewrite Hh.
    destruct (ev_shape _ _ _ H1 q nd Hq) as (nd1' & Hq' & _).
    destruct (decide (p = q)) as [->|Hne].
    + rewrite lookup_insert_eq. intros [= <-] Hno Hdirty.
      apply Hd; [done|]. eapply (ev_dirty _ _ _ H1); eauto.
    + rewrite lookup_insert_ne by done. intros. eapply (ev_dirty _ _ _ H1); eauto.
  - intros q nd nd' Hq. rewrite Hh.
    destruct (ev_shape _ _ _ H1 q nd Hq) as (nd1' & Hq' & _).
    destruct (decide (p = q)) as [->|Hne].
    + rewrite lookup_insert_eq. intros [= <-] Hno.
      rewrite (Hv Hno). eapply (ev_value _ _ _ H1); eauto.
    + rewrite lookup_insert_ne by done. intros. eapply (ev_value _ _ _ H1); eauto.
  - apply H1.
Qed.

Lemma for_each_evolves (f : addr → M T unit) (l : list addr) :
  (∀ r s u s', f r s = Ok (u, s') → ∃ t, evolves t s s') →
  ∀ s u s', for_each f l s = Ok (u, s') → ∃ t, evolves t s s'.
Proof.
  intros Hf. induction l as [|r l IH]; intros s u s' H; simpl in H.
  - injection H as _ <-. eauto using evolves_refl.
  - apply bind_Ok in H as (u1 & s1 & H1 & H2).
    apply Hf in H1 as [t1 H1]. apply IH in H2 as [t2 H2].
    eauto using evolves_trans.
Qed.

Lemma read_all_evolves (g : addr → M T T) (l : list addr) :
  (∀ r s v s', g r s = Ok (v, s') → ∃ t, evolves t s s') →
  ∀ s vs s', read_all g l s = Ok (vs, s') → ∃ t, evolves t s s'.
Proof.
  intros Hg. induction l as [|r l IH]; intros s vs s' H; simpl in H.
  - injection H as _ <-. eauto using evolves_refl.
  - apply bind_Ok in H as (v1 & s1 & H1 & H).
    apply bind_Ok in H as (vs1 & s2 & H2 & H).
    injection H as _ <-.
    apply Hg in H1 as [t1 H1]. apply IH in H2 as [t2 H2].
    eauto using evolves_trans.
Qed.

End Facts.

Section Runs.
Context {T : Type}.
Variable ne : T → T → bool.
Variable eq : T → T → bool.

Implicit Types (s : State T) (nd : Node T) (e : ExprPart T) (p q : addr)
  (t : list (Event T)).

Lemma set_body_evolves (upd : addr → M T unit) p v s u s' :
  (∀ r s u s', upd r s = Ok (u, s') → ∃ t, evolves t s s') →
  set_body ne eq upd p v s = Ok (u, s') → ∃ t, evolves (EvSet p v :: t) s s'.
Proof.
  intros Hupd H. unfold set_body in H.
  apply bind_Ok in H as (? & s0 & H0 & H). apply emit_Ok in H0.
  apply bind_Ok in H as (nd & ? & Hd & H). apply deref_Ok in Hd as [Hp ->].
  assert (evolves [EvSet p v] s s0) as E0.
  { subst s0. apply evolves_log; try done.
    intros q [Hq|Hq]; apply list_elem_of_singleton in Hq; done. }
  destruct (different_with ne eq nd v).
  - apply bind_Ok in H as (? & s1 & Hm & H).
    apply modify_Ok in Hm as (nd' & Hp' & Hs1).
    assert (evolves [EvSet p v] s s1) as E1.
    { eapply (evolves_then_write _ _ s0 s1 p nd' (with_value v nd')); subst; simpl;
        eauto using same_shape_with_value.
      intros Hno. destruct (Hno v). apply list_elem_of_singleton. done. }
    eapply for_each_evolves in H as [t2 E2]; [|done].
    exists t2. apply (evolves_trans [EvSet p v] t2 _ _ _ E1 E2).
  - injection H as _ <-. exists []. done.
Qed.

Lemma dispatch_evolves (g : addr → M T T) p e s v s' :
  (∀ r s v s', g r s = Ok (v, s') → ∃ t, evolves t s s') →
  dispatch g p e s = Ok (v, s') → ∃ t, evolves t s s'.
Proof.
  intros Hg H. unfold dispatch in H.
  apply bind_Ok in H as (vals & s1 & H1 & H).
  apply bind_Ok in H as (? & s2 & H2 & H). apply emit_Ok in H2.
  injection H as _ <-.
  eapply read_all_evolves in H1 as [t1 E1]; [|done].
  exists (t1 ++ [EvCall p vals]). eapply evolves_trans; [done|].
  subst s2. apply evolves_log; try done.
  intros q [Hq|Hq]; apply list_elem_of_singleton in Hq; done.
Qed.

Lemma get_body_evolves (g : addr → M T T) (upd : addr → M T unit) p s v s' :
  (∀ r s v s', g r s = Ok (v, s') → ∃ t, evolves t s s') →
  (∀ r s u s', upd r s = Ok (u, s') → ∃ t, evolves t s s') →
  get_body ne eq g upd p s = Ok (v, s') → ∃ t, evolves (EvGet p :: t) s s'.
Proof.
  intros Hg Hupd H. unfold get_body in H.
  apply bind_Ok in H as (? & s0 & H0 & H). apply emit_Ok in H0.
  apply bind_Ok in H as (nd & ? & Hd & H). apply deref_Ok in Hd as [Hp ->].
  assert (evolves [EvGet p] s s0) as E0.
  { subst s0. apply evolves_log; try done. simpl in Hp.
    intros q [Hq|Hq]; apply list_elem_of_singleton in Hq; [|done].
    injection Hq as ->. eauto. }
  destruct (m_expr nd) as [e|] eqn:He.
  - apply bind_Ok in H as (? & s3 & H & Hb).
    unfold base_get in Hb. apply bind_Ok in Hb as (nd3 & ? & Hd & Hb).
    apply deref_Ok in Hd as [_ ->]. injection Hb as _ <-.
    destruct (m_dirty e).
    + apply bind_Ok in H as (w & s1 & H1 & H).
      apply bind_Ok in H as (? & s2 & H2 & H).
      apply modify_Ok in H as (nd2 & Hp2 & Hs3).
      eapply dispatch_evolves in H1 as [t1 E1]; [|done].
      eapply set_body_evolves in H2 as [t2 E2]; [|done].
      exists (t1 ++ EvSet p w :: t2).
      pose proof (evolves_trans _ _ _ _ _ E0 (evolves_trans _ _ _ _ _ E1 E2)) as E.
      simpl in E.
      eapply (evolves_then_write _ _ s2 s3 p nd2 (with_dirty false nd2)); subst; simpl;
        eauto using same_shape_with_dirty.
      intros Hno. destruct Hno. apply elem_of_cons. auto.
    + injection H as _ <-. exists []. done.
  - injection H as _ <-. exists []. done.
Qed.

Lemma update_body_evolves (g : addr → M T T) (upd : addr → M T unit) p s u s' :
  (∀ r s v s', g r s = Ok (v, s') → ∃ t, evolves t s s') →
  (∀ r s u s', upd r s = Ok (u, s') → ∃ t, evolves t s s') →
  update_body ne eq g upd p s = Ok (u, s') → ∃ t, evolves (EvUpdate p :: t) s s'.
Proof.
  intros Hg Hupd H. unfold update_body in H.
  apply bind_Ok in H as (? & s0 & H0 & H). apply emit_Ok in H0.
  apply bind_Ok in H as (nd & ? & Hd & H). apply deref_Ok in Hd as [Hp ->].
  assert (evolves [EvUpdate p] s s0) as E0.
  { subst s0. apply evolves_log; try done. simpl in Hp.
    intros q [Hq|Hq]; apply list_elem_of_singleton in Hq; [done|].
    injection Hq as ->. eauto. }
  destruct (m_expr nd) as [e|] eqn:He.
  - destruct (m_eval_policy e).
    + apply bind_Ok in H as (w & s1 & H1 & H2).
      eapply dispatch_evolves in H1 as [t1 E1]; [|done].
      eapply set_body_evolves in H2 as [t2 E2]; [|done].
      exists (t1 ++ EvSet p w :: t2).
      apply (evolves_trans _ _ _ _ _ E0 (evolves_trans _ _ _ _ _ E1 E2)).
    + apply modify_Ok in H as (nd1 & Hp1 & Hs').
      exists [].
      eapply (evolves_then_write _ _ s0 s' p nd1 (with_dirty true nd1)); subst; simpl;
        eauto using same_shape_with_dirty.
      intros _. unfold is_dirty, with_dirty; simpl.
      destruct (m_expr nd1); [done|].
      intros ?; done.
    + injection H as _ <-. exists []. done.
  - injection H as _ <-. exists []. done.
Qed.

(** Every successful run of [get] and of [update] is an evolution. *)
Lemma run_evolves fuel :
  (∀ p s v s', get ne eq fuel p s = Ok (v, s') → ∃ t, evolves (EvGet p :: t) s s') ∧
  (∀ p s u s', update ne eq fuel p s = Ok (u, s') → ∃ t, evolves (EvUpdate p :: t) s s').
Proof.
  induction fuel as [|k [IHg IHu]]; [by split|].
  split; intros p s r s' H; simpl in H.
  - eapply get_body_evolves; [| |done].
    + intros r1 s1 v1 s2 H1. apply IHg in H1 as [t H1]. eauto.
    + intros r1 s1 u1 s2 H1. apply IHu in H1 as [t H1]. eauto.
  - eapply update_body_evolves; [| |done].
    + intros r1 s1 v1 s2 H1. apply IHg in H1 as [t H1]. eauto.
    + intros r1 s1 u1 s2 H1. apply IHu in H1 as [t H1]. eauto.
Qed.

Lemma get_evolves fuel p s v s' :
  get ne eq fuel p s = Ok (v, s') → ∃ t, evolves (EvGet p :: t) s s'.
Proof. apply run_evolves. Qed.

Lemma update_evolves fuel p s u s' :
  update ne eq fuel p s = Ok (u, s') → ∃ t, evolves (EvUpdate p :: t) s s'.
Proof. apply run_evolves. Qed.

Lemma set_evolves fuel p v s u s' :
  set ne eq fuel p v s = Ok (u, s') → ∃ t, evolves (EvSet p v :: t) s s'.
Proof.
  intros H. eapply set_body_evolves; [|done].
  intros r s1 u1 s2 H1. apply update_evolves in H1 as [t H1]. eauto.
Qed.

(** The range-[for] of [set] walks the live list [m_refs] while the
  subscribers run; [set_body] walks the list as it was on entry.  The two
  agree, since no run of [update] changes a subscriber list. *)
Lemma update_keeps_refs fuel r s u s' p nd :
  update ne eq fuel r s = Ok (u, s') → heap s !! p = Some nd →
  ∃ nd', heap s' !! p = Some nd' ∧ m_refs nd' = m_refs nd.
Proof.
  intros H Hp. apply update_evolves in H as [t E].
  destruct (ev_shape _ _ _ E p nd Hp) as (nd' & Hp' & Hr & _). eauto.
Qed.

End Runs.

(** ** Wiring and ownership *)

Section Lifecycle.
Context {T : Type}.

Implicit Types (s : State T) (nd : Node T) (e : ExprPart T) (p q : addr)
  (t : list (Event T)).

Lemma remove_this_absent this (refs : list addr) :
  this ∉ refs → remove_this this refs = refs.
Proof.
  intros H. unfold remove_this. induction refs as [|r refs IH]; [done|].
  apply not_elem_of_cons in H as [Hne Hnot].
  rewrite filter_cons_True by done. by rewrite IH.
Qed.

Lemma remove_this_gone this (refs : list addr) : this ∉ remove_this this refs.
Proof. unfold remove_this. intros H. apply list_elem_of_filter in H as [H _]. done. Qed.

Lemma remove_this_idemp this (refs : list addr) :
  remove_this this (remove_this this refs) = remove_this this refs.
Proof. apply remove_this_absent, remove_this_gone. Qed.

Lemma remove_this_keeps this (refs : list addr) x :
  x ∈ remove_this this refs ↔ x ∈ refs ∧ x ≠ this.
Proof. unfold remove_this. rewrite list_elem_of_filter. tauto. Qed.

Lemma rewired_refl s : rewired s s.
Proof. split; eauto 6. Qed.

Lemma rewired_trans s s1 s2 : rewired s s1 → rewired s1 s2 → rewired s s2.
Proof.
  intros H1 H2. split.
  - rewrite (rw_log _ _ H2). apply H1.
  - intros q Hq. apply H2, H1, Hq.
  - intros q nd Hq.
    destruct (rw_live _ _ H1 q nd Hq) as (nd1 & Hq1 & ? & ? & ?).
    destruct (rw_live _ _ H2 q nd1 Hq1) as (nd2 & Hq2 & ? & ? & ?).
    exists nd2. repeat split; congruence.
Qed.

Lemma modify_refs_rewired p (f : list addr → list addr) s u s' :
  modify p (λ nd, with_refs (f (m_refs nd)) nd) s = Ok (u, s') → rewired s s'.
Proof.
  intros H. apply modify_Ok in H as (nd & Hp & ->). split; simpl; [done|..].
  - intros q Hq. rewrite lookup_insert_ne; [done|]. congruence.
  - intros q nd' Hq. destruct (decide (p = q)) as [->|Hne].
    + rewrite lookup_insert_eq. assert (nd' = nd) as -> by congruence. eauto.
    + rewrite lookup_insert_ne by done. eauto.
Qed.

Lemma process_refs_rewired Install this args s u s' :
  process_refs Install this args s = Ok (u, s') → rewired s s'.
Proof.
  revert s. induction args as [|a args IH]; intros s H; simpl in H.
  - injection H as _ <-. apply rewired_refl.
  - apply bind_Ok in H as (? & s1 & H1 & H2).
    eapply rewired_trans; [|by apply IH].
    destruct Install; [unfold install_ref in H1 | unfold uninstall_ref in H1].
    + by apply (modify_refs_rewired a (λ l, l ++ [this])) in H1.
    + by apply (modify_refs_rewired a (remove_this this)) in H1.
Qed.

Lemma process_refs_owners Install this args s u s' :
  process_refs Install this args s = Ok (u, s') → owners s' = owners s.
Proof.
  revert s. induction args as [|a args IH]; intros s H; simpl in H.
  - by injection H as _ <-.
  - apply bind_Ok in H as (? & s1 & H1 & H2). rewrite (IH _ H2).
    destruct Install; apply modify_Ok in H1 as (? & ? & ->); done.
Qed.

(** [process_refs<false, 0>] reaches every input, and leaves each object
  with its subscribers minus [this] if it is an input and untouched if not. *)
Lemma process_refs_uninstall this args s u s' :
  process_refs false this args s = Ok (u, s') →
  (∀ a, a ∈ args → is_Some (heap s !! a)) ∧
  ∀ q nd, heap s !! q = Some nd →
    ∃ nd', heap s' !! q = Some nd' ∧
           m_refs nd' = if decide (q ∈ args) then remove_this this (m_refs nd)
                        else m_refs nd.
Proof.
  revert s. induction args as [|a args IH]; intros s H; simpl in H.
  - injection H as _ <-. split; [by intros a Ha%elem_of_nil|].
    intros q nd Hq. exists nd. split; [done|]. by rewrite decide_False by apply not_elem_of_nil.
  - apply bind_Ok in H as (? & s1 & H1 & H2).
    apply modify_Ok in H1 as (nda & Ha & ->).
    destruct (IH _ H2) as [Halive Hrefs]. split.
    + intros b Hb. apply elem_of_cons in Hb as [->|Hb]; [eauto|].
      destruct (Halive b Hb) as [ndb Hb1]. simpl in Hb1.
      destruct (decide (a = b)) as [->|Hne]; [eauto|].
      rewrite lookup_insert_ne in Hb1 by done. eauto.
    + intros q nd Hq. destruct (decide (a = q)) as [->|Hne].
      * assert (nd = nda) as -> by congruence.
        destruct (Hrefs q (with_refs (remove_this this (m_refs nda)) nda))
          as (nd' & Hq' & Hr'); [apply lookup_insert_eq|].
        exists nd'. split; [done|]. rewrite Hr'. simpl.
        rewrite (decide_True (P := q ∈ q :: args)) by (apply elem_of_cons; auto).
        destruct (decide (q ∈ args)); [apply remove_this_idemp | done].
      * destruct (Hrefs q nd) as (nd' & Hq' & Hr').
        { simpl. by rewrite lookup_insert_ne. }
        exists nd'. split; [done|]. rewrite Hr'.
        destruct (decide (q ∈ args)) as [Hin|Hnin].
        -- rewrite decide_True; [done|]. apply elem_of_cons. auto.
        -- rewrite decide_False; [done|]. intros [?|?]%elem_of_cons; done.
Qed.

(** On live inputs [process_refs] runs to its end. *)
Lemma process_refs_total Install this args s :
  (∀ a, a ∈ args → is_Some (heap s !! a)) →
  ∃ s', process_refs Install this args s = Ok (tt, s').
Proof.
  revert s. induction args as [|a args IH]; intros s Halive; simpl; [by eexists|].
  destruct (Halive a) as [nda Ha]; [apply elem_of_cons; auto|].
  set (f := λ nd : Node T,
         with_refs (if Install then m_refs nd ++ [this]
                    else remove_this this (m_refs nd)) nd).
  destruct (IH (mkState (<[a := f nda]> (heap s)) (owners s) (log s))) as [s' Hs'].
  { intros b Hb. simpl. destruct (decide (a = b)) as [->|Hne].
    - rewrite lookup_insert_eq. eauto.
    - rewrite lookup_insert_ne by done. apply Halive, elem_of_cons. auto. }
  exists s'. unfold bind.
  destruct Install; unfold install_ref, uninstall_ref, modify; rewrite Ha; exact Hs'.
Qed.

Lemma shrinks_refl s : shrinks s s.
Proof. intros q nd Hq. eauto. Qed.

Lemma shrinks_trans s s1 s2 : shrinks s s1 → shrinks s1 s2 → shrinks s s2.
Proof.
  intros H1 H2 q nd2 Hq2.
  destruct (H2 q nd2 Hq2) as (nd1 & Hq1 & Hsub1).
  destruct (H1 q nd1 Hq1) as (nd & Hq & Hsub). eauto.
Qed.

Lemma process_refs_shrinks this args s u s' :
  process_refs false this args s = Ok (u, s') → shrinks s s'.
Proof.
  intros H q nd' Hq'.
  destruct (heap s !! q) as [nd|] eqn:Hq.
  - destruct (process_refs_uninstall _ _ _ _ _ H) as [_ Hrefs].
    destruct (Hrefs q nd Hq) as (nd'' & Hq'' & Hr).
    assert (nd'' = nd') as -> by congruence.
    exists nd. split; [done|]. intros x. rewrite Hr.
    destruct (decide (q ∈ args)); [|done].
    rewrite remove_this_keeps. tauto.
  - apply process_refs_rewired in H. rewrite (rw_dead _ _ H q Hq) in Hq'. done.
Qed.

Lemma for_each_shrinks (f : addr → M T unit) l :
  (∀ r s u s', f r s = Ok (u, s') → shrinks s s') →
  ∀ s u s', for_each f l s = Ok (u, s') → shrinks s s'.
Proof.
  intros Hf. induction l as [|r l IH]; intros s u s' H; simpl in H.
  - injection H as _ <-. apply shrinks_refl.
  - apply bind_Ok in H as (u1 & s1 & H1 & H2).
    eapply shrinks_trans; eauto.
Qed.

Lemma free_shrinks p s u s' : free p s = Ok (u, s') → shrinks s s'.
Proof.
  intros [= _ <-] q nd' Hq'. simpl in Hq'.
  apply lookup_delete_Some in Hq' as [_ Hq']. eauto.
Qed.

(** Releasing a handle never adds an object or a subscriber. *)
Lemma release_shrinks fuel p s u s' :
  release fuel p s = Ok (u, s') → shrinks s s'.
Proof.
  revert p s u s'. induction fuel as [|k IH]; intros p s u s' H; [done|].
  cbn [release] in H.
  assert (∀ c, c s = Ok (u, s') →
    c = (let! nd := deref p in
         match m_expr nd with
         | Some e =>
             process_refs false p (m_arguments e);;
             for_each (release k) (m_arguments e);;
             free p
         | None => free p
         end) → shrinks s s') as Hdispose.
  { intros c Hc ->.
    apply bind_Ok in Hc as (nd & ? & Hd & Hc). apply deref_Ok in Hd as [Hp ->].
    destruct (m_expr nd) as [e|]; [|by eapply free_shrinks].
    apply bind_Ok in Hc as (? & s1 & H1 & Hc).
    apply bind_Ok in Hc as (? & s2 & H2 & H3).
    eapply shrinks_trans; [by eapply process_refs_shrinks|].
    eapply shrinks_trans; [|by eapply free_shrinks].
    eapply for_each_shrinks; [|done]. intros r. apply IH. }
  destruct (owners s !! p) as [[|[|c]]|]; [by eapply Hdispose..| |done].
  injection H as _ <-. intros q nd' Hq'. eauto.
Qed.

End Lifecycle.

(** ** More fuel never changes an outcome that was reached *)

Section Fuel.
Context {T : Type}.
Variable ne : T → T → bool.
Variable eq : T → T → bool.
Variable T0 : T.

Lemma extends_refl {A} (c : M T A) : extends c c.
Proof. by intros s r. Qed.

Lemma extends_bind {A B} (c c' : M T A) (k k' : A → M T B) :
  extends c c' → (∀ a, extends (k a) (k' a)) → extends (bind c k) (bind c' k').
Proof.
  intros Hc Hk s r H. apply bind_Ok in H as (a & s1 & H1 & H2).
  unfold bind. rewrite (Hc _ _ H1). by apply Hk.
Qed.

Lemma extends_for_each (f f' : addr → M T unit) l :
  (∀ r, extends (f r) (f' r)) → extends (for_each f l) (for_each f' l).
Proof.
  intros Hf. induction l as [|r l IH]; simpl; [apply extends_refl|].
  apply extends_bind; [apply Hf | by intros _].
Qed.

Lemma extends_read_all (g g' : addr → M T T) l :
  (∀ r, extends (g r) (g' r)) → extends (read_all g l) (read_all g' l).
Proof.
  intros Hg. induction l as [|r l IH]; simpl; [apply extends_refl|].
  apply extends_bind; [apply Hg | intros v].
  apply extends_bind; [apply IH | intros vs; apply extends_refl].
Qed.

Lemma extends_set_body (u u' : addr → M T unit) p v :
  (∀ r, extends (u r) (u' r)) → extends (set_body ne eq u p v) (set_body ne eq u' p v).
Proof.
  intros Hu. unfold set_body.
  apply extends_bind; [apply extends_refl | intros _].
  apply extends_bind; [apply extends_refl | intros nd].
  destruct (different_with ne eq nd v); [|apply extends_refl].
  apply extends_bind; [apply extends_refl | intros _].
  by apply extends_for_each.
Qed.

Lemma extends_dispatch (g g' : addr → M T T) p e :
  (∀ r, extends (g r) (g' r)) → extends (dispatch g p e) (dispatch g' p e).
Proof.
  intros Hg. unfold dispatch.
  apply extends_bind; [by apply extends_read_all | intros vals; apply extends_refl].
Qed.

Lemma extends_get_body (g g' : addr → M T T) (u u' : addr → M T unit) p :
  (∀ r, extends (g r) (g' r)) → (∀ r, extends (u r) (u' r)) →
  extends (get_body ne eq g u p) (get_body ne eq g' u' p).
Proof.
  intros Hg Hu. unfold get_body.
  apply extends_bind; [apply extends_refl | intros _].
  apply extends_bind; [apply extends_refl | intros nd].
  destruct (m_expr nd) as [e|]; [|apply extends_refl].
  apply extends_bind; [|intros _; apply extends_refl].
  destruct (m_dirty e); [|apply extends_refl].
  apply extends_bind; [by apply extends_dispatch | intros v].
  apply extends_bind; [by apply extends_set_body | intros _; apply extends_refl].
Qed.

Lemma extends_update_body (g g' : addr → M T T) (u u' : addr → M T unit) p :
  (∀ r, extends (g r) (g' r)) → (∀ r, extends (u r) (u' r)) →
  extends (update_body ne eq g u p) (update_body ne eq g' u' p).
Proof.
  intros Hg Hu. unfold update_body.
  apply extends_bind; [apply extends_refl | intros _].
  apply extends_bind; [apply extends_refl | intros nd].
  destruct (m_expr nd) as [e|]; [|apply extends_refl].
  destruct (m_eval_policy e); try apply extends_refl.
  apply extends_bind; [by apply extends_dispatch | intros v].
  by apply extends_set_body.
Qed.

Lemma fuel_step k :
  (∀ p, extends (get ne eq k p) (get ne eq (S k) p)) ∧
  (∀ p, extends (update ne eq k p) (update ne eq (S k) p)).
Proof.
  induction k as [|k [IHg IHu]]; [by split|].
  split; intros p.
  - apply (extends_get_body _ _ _ _ p IHg IHu).
  - apply (extends_update_body _ _ _ _ p IHg IHu).
Qed.

Lemma release_step k p : extends (release (T:=T) k p) (release (S k) p).
Proof.
  revert p. induction k as [|k IH]; intros p; [done|].
  intros s r. cbn [release].
  destruct (owners s !! p) as [[|[|c]]|]; try done.
  - apply extends_bind; [apply extends_refl | intros nd].
    destruct (m_expr nd) as [e|]; [|apply extends_refl].
    apply extends_bind; [apply extends_refl | intros _].
    apply extends_bind; [by apply extends_for_each | intros _; apply extends_refl].
  - apply extends_bind; [apply extends_refl | intros nd].
    destruct (m_expr nd) as [e|]; [|apply extends_refl].
    apply extends_bind; [apply extends_refl | intros _].
    apply extends_bind; [by apply extends_for_each | intros _; apply extends_refl].
Qed.

Lemma fuel_mono_plus {A} (c : nat → M T A) k n s r :
  fuel_mono c → c k s = Ok r → c (n + k) s = Ok r.
Proof.
  intros Hc H. induction n as [|n IH]; [done|]. by apply Hc.
Qed.

Lemma fuel_mono_const {A} (c : M T A) : fuel_mono (λ _, c).
Proof. intros k. apply extends_refl. Qed.

Lemma fuel_mono_bind {A B} (c : nat → M T A) (f : nat → A → M T B) :
  fuel_mono c → (∀ a, fuel_mono (λ k, f k a)) →
  fuel_mono (λ k, bind (c k) (f k)).
Proof. intros Hc Hf k. apply extends_bind; [apply Hc | intros a; apply Hf]. Qed.

Lemma fuel_mono_get p : fuel_mono (λ k, get ne eq k p).
Proof. intros k. apply fuel_step. Qed.

Lemma fuel_mono_update p : fuel_mono (λ k, update ne eq k p).
Proof. intros k. apply fuel_step. Qed.

Lemma fuel_mono_set p v : fuel_mono (λ k, set ne eq k p v).
Proof. intros k. apply extends_set_body. intros r. apply fuel_step. Qed.

Lemma fuel_mono_release p : fuel_mono (λ k, release (T:=T) k p).
Proof. intros k. apply release_step. Qed.

Lemma fuel_mono_new_value v : fuel_mono (λ k, new_value ne eq T0 k v).
Proof.
  apply fuel_mono_bind; [apply fuel_mono_const | intros p].
  apply fuel_mono_bind; [apply fuel_mono_set | intros _; apply fuel_mono_const].
Qed.

Lemma fuel_mono_new_expr f args : fuel_mono (λ k, new_expr ne eq T0 k f args).
Proof.
  apply fuel_mono_bind; [apply fuel_mono_const | intros p].
  apply fuel_mono_bind; [apply fuel_mono_const | intros _].
  apply fuel_mono_bind; [apply fuel_mono_const | intros nd].
  apply fuel_mono_bind; [apply fuel_mono_const | intros _].
  apply fuel_mono_bind; [apply fuel_mono_const | intros _].
  apply fuel_mono_bind; [apply fuel_mono_update | intros _; apply fuel_mono_const].
Qed.

End Fuel.

Section Properties.
Context {T : Type}.
Variable ne : T → T → bool.
Variable eq : T → T → bool.
Variable T0 : T.

Implicit Types (s : State T) (nd : Node T) (e : ExprPart T) (p q : addr)
  (t : list (Event T)).

Lemma set_unfold fuel p value s nd :
  heap s !! p = Some nd →
  set ne eq fuel p value s =
    if different_with ne eq nd value
    then for_each (update ne eq fuel) (m_refs nd) (stored p value nd s)
    else Ok (tt, entered_set p value s).
Proof.
  intros Hp. unfold set, set_body, bind, emit, deref, modify; simpl.
  rewrite Hp. destruct (different_with ne eq nd value); [|done].
  simpl. by rewrite Hp.
Qed.

Lemma for_each_notified (upd : addr → M T unit) rs s s' :
  for_each upd rs s = Ok (tt, s') ↔ notified upd rs s s'.
Proof.
  split.
  - revert s. induction rs as [|r rs IH]; intros s H; simpl in H.
    + injection H as <-. constructor.
    + apply bind_Ok in H as ([] & s1 & H1 & H2). econstructor; eauto.
  - induction 1 as [|r rs s s1 s2 H1 _ IH]; simpl; [done|].
    unfold bind. by rewrite H1.
Qed.

(** A read of a node whose dirty flag is clear (or that has none) returns
  [m_value] and changes nothing. *)
Lemma get_clean k p s nd :
  heap s !! p = Some nd → is_dirty nd = false →
  get ne eq (S k) p s = Ok (m_value nd, entered_get p s).
Proof.
  intros Hp Hd. simpl. unfold get_body, bind, emit, deref, base_get; simpl.
  rewrite Hp. unfold is_dirty in Hd. destruct (m_expr nd) as [e|]; [|done].
  rewrite Hd. unfold bind, ret, deref; simpl. by rewrite Hp.
Qed.

(** What a successful read leaves behind at the node that was read. *)
Lemma get_post fuel p s v s' :
  get ne eq fuel p s = Ok (v, s') →
  ∃ nd', heap s' !! p = Some nd' ∧ v = m_value nd' ∧ is_dirty nd' = false.
Proof.
  destruct fuel as [|k]; [done|]. simpl. unfold get_body. intros H.
  apply bind_Ok in H as (? & s0 & H0 & H). apply emit_Ok in H0.
  apply bind_Ok in H as (nd & ? & Hd & H). apply deref_Ok in Hd as [Hp ->].
  destruct (m_expr nd) as [e|] eqn:He.
  - apply bind_Ok in H as (? & s3 & H & Hb).
    unfold base_get in Hb. apply bind_Ok in Hb as (nd3 & ? & Hd & Hb).
    apply deref_Ok in Hd as [Hp3 ->]. injection Hb as <- <-.
    exists nd3. split; [done|]. split; [done|].
    destruct (m_dirty e) eqn:Hdirty.
    + apply bind_Ok in H as (w & s1 & H1 & H).
      apply bind_Ok in H as (? & s2 & H2 & H).
      apply modify_Ok in H as (nd2 & Hp2 & ->). simpl in Hp3.
      rewrite lookup_insert_eq in Hp3. injection Hp3 as <-.
      unfold is_dirty, with_dirty; simpl. by destruct (m_expr nd2).
    + injection H as <-. unfold is_dirty.
      assert (nd3 = nd) as -> by congruence. by rewrite He.
  - injection H as <- <-. exists nd. subst s0; simpl in *.
    split; [done|]. split; [done|]. unfold is_dirty. by rewrite He.
Qed.

(** A read of an expression whose dirty flag is set: one [dispatch], one
  [set] of its result, the flag cleared, the cached value returned. *)
Lemma get_dirty_unfold k p s nd e :
  heap s !! p = Some nd → m_expr nd = Some e → m_dirty e = true →
  get ne eq (S k) p s =
    (let! inputs := read_all (get ne eq k) (m_arguments e) in
     emit (EvCall p inputs);;
     set ne eq k p (m_function e inputs);;
     modify p (with_dirty false);;
     base_get p) (entered_get p s).
Proof.
  intros Hp He Hd. simpl. unfold get_body, bind, emit, deref, base_get; simpl.
  rewrite Hp, He, Hd.
  unfold dispatch, bind, emit, ret, set.
  destruct (read_all _ _ _) as [[vals s1]| |]; [|done|done]; simpl.
  destruct (set_body _ _ _ _ _ _) as [[[] s2]| |]; [|done|done].
  destruct (modify _ _ _) as [[[] s3]| |]; done.
Qed.

Lemma run_ops_evolves fuel ops s u s' :
  run_ops ne eq fuel ops s = Ok (u, s') → ∃ t, evolves t s s'.
Proof.
  revert s. induction ops as [|o ops IH]; intros s H; simpl in H.
  - injection H as _ <-. eauto using evolves_refl.
  - apply bind_Ok in H as (? & s1 & H1 & H2). apply IH in H2 as [t2 E2].
    assert (∃ t1, evolves t1 s s1) as [t1 E1].
    { destruct o as [q|q v|q]; simpl in H1.
      - apply bind_Ok in H1 as (? & s0 & H1 & H0). injection H0 as _ <-.
        apply get_evolves in H1 as [t1 E1]. eauto.
      - apply set_evolves in H1 as [t1 E1]. eauto.
      - apply update_evolves in H1 as [t1 E1]. eauto. }
    eauto using evolves_trans.
Qed.

Lemma instant_and_dirty_evolves function arguments p t s s' :
  evolves t s s' → EvGet p ∉ t →
  instant_and_dirty function arguments p s → instant_and_dirty function arguments p s'.
Proof.
  intros E Hno (nd & Hp & He).
  destruct (ev_shape _ _ _ E p nd Hp) as (nd' & Hp' & _ & _ & Hs).
  assert (is_dirty nd' = true) as Hd.
  { eapply (ev_dirty _ _ _ E); eauto. unfold is_dirty. by rewrite He. }
  exists nd'. split; [done|]. unfold is_dirty in Hd. rewrite He in Hs.
  destruct (m_expr nd') as [[pol f args d]|]; [|done].
  simpl in *. destruct Hs as (-> & -> & ->). by rewrite Hd.
Qed.

Lemma retain_all l s u s' :
  for_each (retain (T:=T)) l s = Ok (u, s') → heap s' = heap s ∧ log s' = log s.
Proof.
  revert s. induction l as [|a l IH]; intros s H; simpl in H.
  - by injection H as _ <-.
  - apply bind_Ok in H as (? & s1 & H1 & H2). apply IH in H2 as [-> ->].
    unfold retain in H1. destruct (owners s !! a); [|done]. by injection H1 as _ <-.
Qed.

(** The constructor, up to its closing [update()]: by then the object is in
  place with its flag raised, and nothing has been logged. *)
Lemma new_expr_inv fuel function arguments s p s' :
  new_expr ne eq T0 fuel function arguments s = Ok (p, s') →
  ∃ s4, log s4 = log s ∧ instant_and_dirty function arguments p s4 ∧
        update ne eq fuel p s4 = Ok (tt, s').
Proof.
  unfold new_expr. intros H.
  apply bind_Ok in H as (p' & s1 & H1 & H).
  apply bind_Ok in H as (? & s2 & H2 & H).
  apply bind_Ok in H as (nd & ? & Hd & H). apply deref_Ok in Hd as [Hp ->].
  apply bind_Ok in H as (? & s3 & H3 & H).
  apply bind_Ok in H as (? & s4 & H4 & H).
  apply bind_Ok in H as ([] & s5 & H5 & H). injection H as -> ->.
  unfold alloc in H1. injection H1 as <- <-.
  apply retain_all in H2 as [Hh2 Hl2]. simpl in Hh2, Hl2.
  rewrite Hh2, lookup_insert_eq in Hp. injection Hp as <-.
  apply modify_Ok in H3 as (nd3 & Hp3 & ->). simpl in H4.
  apply process_refs_rewired in H4.
  exists s4. split; [by rewrite (rw_log _ _ H4)|]. split; [|done].
  destruct (rw_live _ _ H4 (fresh (dom (heap s)))
              (with_dirty (BindingEvalPolicy.eqb BindingEvalPolicy.Instant
                             BindingEvalPolicy.Instant)
                 (mkNode T0 BindingCompPolicy.NotEqual []
                    (Some (mkExpr BindingEvalPolicy.Instant function arguments false)))))
    as (nd4 & Hp4 & _ & _ & He4).
  { simpl. rewrite Hh2, lookup_insert_eq in Hp3. injection Hp3 as <-.
    apply lookup_insert_eq. }
  exists nd4. split; [done|]. by rewrite He4.
Qed.

(** C1.  [set(v)] on any node: when [different_with(v)] holds the value is
    replaced by [v] and then [update()] runs on the subscribers one after the
    other in the order of [m_refs], each from the state the previous one left;
    when it does not hold, the call returns with the heap and the ownership
    counts as they were and nothing logged but the call itself, so no
    subscriber was notified.  [m_refs] is in registration order, since
    registering appends. *)
Theorem set_notifies_iff_different fuel p value s nd :
  heap s !! p = Some nd →
  (∀ this s1, install_ref this p s = Ok (tt, s1) →
     heap s1 !! p = Some (with_refs (m_refs nd ++ [this]) nd)) ∧
  if different_with ne eq nd value then
    heap (stored p value nd s) !! p = Some (with_value value nd) ∧
    set ne eq fuel p value s =
      for_each (update ne eq fuel) (m_refs nd) (stored p value nd s) ∧
    ∀ s', set ne eq fuel p value s = Ok (tt, s') ↔
          notified (update ne eq fuel) (m_refs nd) (stored p value nd s) s'
  else
    set ne eq fuel p value s = Ok (tt, entered_set p value s) ∧
    heap (entered_set p value s) = heap s ∧
    owners (entered_set p value s) = owners s ∧
    log (entered_set p value s) = log s ++ [EvSet p value].
Proof.
  intros Hp. split.
  { intros this s1 H. apply modify_Ok in H as (nd' & Hp' & ->). simpl.
    rewrite lookup_insert_eq. congruence. }
  rewrite (set_unfold fuel p value s nd Hp).
  destruct (different_with ne eq nd value).
  - split; [apply lookup_insert_eq|]. split; [done|].
    intros s'. apply for_each_notified.
  - done.
Qed.

(** C5.  What [different_with] answers under each policy, and that a [set] on
    a node whose policy is the sentinel [Count] stores and notifies. *)
Theorem different_with_by_policy (stored_value other : T) (refs : list addr)
    (ex : option (ExprPart T)) :
  different_with ne eq (mkNode stored_value BindingCompPolicy.NotEqual refs ex) other
    = ne stored_value other ∧
  different_with ne eq (mkNode stored_value BindingCompPolicy.Equal refs ex) other
    = negb (eq stored_value other) ∧
  different_with ne eq (mkNode stored_value BindingCompPolicy.Always refs ex) other = true ∧
  different_with ne eq
    (mkNode stored_value BindingCompPolicy.Always refs ex) stored_value = true ∧
  different_with ne eq (mkNode stored_value BindingCompPolicy.Count refs ex) other = true ∧
  ∀ fuel p s,
    heap s !! p = Some (mkNode stored_value BindingCompPolicy.Count refs ex) →
    set ne eq fuel p other s =
      for_each (update ne eq fuel) refs
        (stored p other (mkNode stored_value BindingCompPolicy.Count refs ex) s).
Proof.
  repeat split. intros fuel p s Hp. by rewrite (set_unfold _ _ _ _ _ Hp).
Qed.

(** C2.  On a lazy expression node [get] runs the steps the specification
    lists ([lazy_get_spec]); a read that returns leaves the dirty flag clear
    and returns the value cached at that moment; and with the flag clear on
    entry the read returns [m_value] at once. *)
Theorem lazy_get_recomputes_when_dirty k p s nd e :
  heap s !! p = Some nd → m_expr nd = Some e →
  m_eval_policy e = BindingEvalPolicy.Lazy →
  get ne eq (S k) p s = lazy_get_spec ne eq k p s ∧
  (m_dirty e = true →
   get ne eq (S k) p s =
     (let! inputs := read_all (get ne eq k) (m_arguments e) in
      emit (EvCall p inputs);;
      set ne eq k p (m_function e inputs);;
      modify p (with_dirty false);;
      base_get p) (entered_get p s)) ∧
  (m_dirty e = false →
   get ne eq (S k) p s = Ok (m_value nd, entered_get p s)) ∧
  ∀ v s', get ne eq (S k) p s = Ok (v, s') →
    ∃ nd' e', heap s' !! p = Some nd' ∧ m_expr nd' = Some e' ∧
              m_dirty e' = false ∧ v = m_value nd' ∧
              m_eval_policy e' = BindingEvalPolicy.Lazy.
Proof.
  intros Hp He Hlazy. split; [|split; [|split]].
  - simpl. unfold get_body, lazy_get_spec, bind, emit, deref, base_get; simpl.
    rewrite Hp, He. destruct (m_dirty e); [|done].
    unfold dispatch, bind, emit, ret, set.
    destruct (read_all _ _ _) as [[vals s1]| |]; [|done|done]; simpl.
    destruct (set_body _ _ _ _ _ _) as [[[] s2]| |]; [|done|done].
    destruct (modify _ _ _) as [[[] s3]| |]; done.
  - intros Hd. by apply (get_dirty_unfold k p s nd e).
  - intros Hd. apply get_clean; [done|]. unfold is_dirty. by rewrite He.
  - intros v s' H.
    destruct (get_post _ _ _ _ _ H) as (nd' & Hp' & Hv & Hd').
    destruct (get_evolves _ _ _ _ _ _ _ H) as [t E].
    destruct (ev_shape _ _ _ E p nd Hp) as (nd'' & Hp'' & _ & _ & Hs).
    assert (nd'' = nd') as -> by congruence.
    rewrite He in Hs. destruct (m_expr nd') as [e'|] eqn:He'; [|done].
    exists nd', e'. unfold is_dirty in Hd'. rewrite He' in Hd'.
    destruct Hs as (Hpol & _). repeat split; try done. congruence.
Qed.

(** C3, as amended.  Under [Instant] policy a read with the dirty flag clear
    returns the cached value: nothing is recomputed, [set] is not called (the
    log gains the read itself and nothing else) and the heap is as it was.
    The first read after construction is not such a read: the constructor has
    raised the flag. *)
Theorem instant_get_when_clean k p s nd e :
  heap s !! p = Some nd → m_expr nd = Some e →
  m_eval_policy e = BindingEvalPolicy.Instant → m_dirty e = false →
  get ne eq (S k) p s = Ok (m_value nd, entered_get p s) ∧
  heap (entered_get p s) = heap s ∧
  owners (entered_get p s) = owners s ∧
  log (entered_get p s) = log s ++ [EvGet p].
Proof.
  intros Hp He _ Hd. repeat split.
  apply get_clean; [done|]. unfold is_dirty. by rewrite He.
Qed.

(** C10.  On a lazy expression node a read that follows a read, with nothing
    in between, returns the same value and does nothing else: the first read
    has left the flag clear, and the second one leaves the heap as it found it
    and logs only itself. *)
Theorem lazy_get_twice fuel1 k p s nd e v1 s1 :
  heap s !! p = Some nd → m_expr nd = Some e →
  m_eval_policy e = BindingEvalPolicy.Lazy →
  get ne eq fuel1 p s = Ok (v1, s1) →
  (∃ nd1, heap s1 !! p = Some nd1 ∧ is_dirty nd1 = false) ∧
  get ne eq (S k) p s1 = Ok (v1, entered_get p s1) ∧
  heap (entered_get p s1) = heap s1 ∧
  owners (entered_get p s1) = owners s1 ∧
  log (entered_get p s1) = log s1 ++ [EvGet p].
Proof.
  intros _ _ _ H.
  destruct (get_post _ _ _ _ _ H) as (nd1 & Hp1 & -> & Hd1).
  split; [eauto|]. repeat split. by apply get_clean.
Qed.

(** C9.  A leaf constructed from [value] reads back as [value]: [get()]
    returns the stored value, which is [value] when [T{} != value] held and
    the untouched [T{}] otherwise, and in both cases compares [==] to
    [value].  The comparison operators of [T] are taken to agree: [==] is
    reflexive, and two values that [!=] does not tell apart are [==]. *)
Theorem new_value_reads_back fuel value s :
  (∀ x, eq x x = true) →
  (∀ x y, ne x y = false → eq x y = true) →
  ∃ p s' nd,
    new_value ne eq T0 fuel value s = Ok (p, s') ∧
    heap s !! p = None ∧
    heap s' !! p = Some nd ∧
    m_value nd = (if ne T0 value then value else T0) ∧
    ∀ k, get ne eq (S k) p s' = Ok (m_value nd, entered_get p s') ∧
         eq (m_value nd) value = true.
Proof.
  intros Hrefl Hagree.
  set (p := fresh (dom (heap s))).
  set (nd0 := mkNode T0 BindingCompPolicy.NotEqual [] None : Node T).
  set (s1 := mkState (<[p := nd0]> (heap s)) (<[p := 1]> (owners s)) (log s)).
  assert (heap s !! p = None) as Hfresh.
  { apply not_elem_of_dom. apply is_fresh. }
  assert (heap s1 !! p = Some nd0) as Hp1 by apply lookup_insert_eq.
  assert (new_value ne eq T0 fuel value s
          = bind (set ne eq fuel p value) (λ _, ret p) s1) as Hnew by done.
  unfold bind in Hnew. rewrite (set_unfold fuel p value s1 nd0 Hp1) in Hnew.
  unfold different_with in Hnew; simpl in Hnew.
  destruct (ne T0 value) eqn:Hne; simpl in Hnew.
  - exists p, (stored p value nd0 s1), (with_value value nd0).
    split; [done|]. split; [done|].
    split; [apply lookup_insert_eq|]. split; [done|].
    intros k. split; [|apply Hrefl].
    apply (get_clean k p (stored p value nd0 s1) (with_value value nd0));
      [apply lookup_insert_eq | done].
  - exists p, (entered_set p value s1), nd0.
    split; [done|]. split; [done|]. split; [done|]. split; [done|].
    intros k. split; [|by apply Hagree].
    by apply (get_clean k p (entered_set p value s1) nd0).
Qed.

(** C8.  The constructor leaves the dirty flag of an expression set, with the
    policy at [Instant]; [update()] does not clear it, so through any
    sequence of calls on the graph in which [get()] is never called on the
    node the flag stays set; the first [get()] on it then dispatches once,
    passes the result to [set], and clears the flag. *)
Theorem instant_dirty_until_first_get
    fuel function arguments s p s1 fuel' ops s2 t :
  new_expr ne eq T0 fuel function arguments s = Ok (p, s1) →
  run_ops ne eq fuel' ops s1 = Ok (tt, s2) →
  log s2 = log s ++ t →
  EvGet p ∉ t →
  instant_and_dirty function arguments p s1 ∧
  instant_and_dirty function arguments p s2 ∧
  ∀ k,
    get ne eq (S k) p s2 =
      (let! inputs := read_all (get ne eq k) arguments in
       emit (EvCall p inputs);;
       set ne eq k p (function inputs);;
       modify p (with_dirty false);;
       base_get p) (entered_get p s2) ∧
    ∀ v s3, get ne eq (S k) p s2 = Ok (v, s3) →
      ∃ nd3, heap s3 !! p = Some nd3 ∧ is_dirty nd3 = false ∧ v = m_value nd3.
Proof.
  intros Hnew Hops Hlog Hno.
  apply new_expr_inv in Hnew as (s4 & Hl4 & Hd4 & Hupd).
  apply update_evolves in Hupd as [t1 E1].
  apply run_ops_evolves in Hops as [t2 E2].
  assert (t = (EvUpdate p :: t1) ++ t2) as ->.
  { apply (app_inv_head (log s)). rewrite <- Hlog.
    rewrite (ev_log _ _ _ E2), (ev_log _ _ _ E1), Hl4. by rewrite app_assoc. }
  apply not_elem_of_app in Hno as [Hno1 Hno2].
  assert (instant_and_dirty function arguments p s1) as Hd1
    by eauto using instant_and_dirty_evolves.
  assert (instant_and_dirty function arguments p s2) as Hd2
    by eauto using instant_and_dirty_evolves.
  split; [done|]. split; [done|]. intros k.
  destruct Hd2 as (nd2 & Hp2 & He2). split.
  - by rewrite (get_dirty_unfold k p s2 nd2 _ Hp2 He2).
  - intros v s3 H. destruct (get_post _ _ _ _ _ H) as (nd3 & ? & ? & ?). eauto.
Qed.

(** C7.  When the last handle to an expression [n] is released, the
    destructor body runs first, to its end, on the inputs, which the handles
    held by [n] have kept alive; it leaves each input with its subscribers
    minus every entry equal to [n].  Only then are the input handles released
    and the storage returned.  Once that is done [n] is gone and no input that
    is still alive lists it: the loop that a [set] on such an input walks is
    over a list without [n], and no run of such a [set] calls [update()] on
    [n].  If [n] was listed by its inputs only, no object lists it any more.
    Removing a node from a list that does not hold it leaves the list as it
    was. *)
Theorem destroy_unsubscribes k n s nd e :
  heap s !! n = Some nd → m_expr nd = Some e → owners s !! n = Some 1 →
  (∀ a, a ∈ m_arguments e → is_Some (heap s !! a)) →
  (∃ s1,
     process_refs false n (m_arguments e) s = Ok (tt, s1) ∧
     (∀ a, a ∈ m_arguments e →
        ∃ nda nda1, heap s !! a = Some nda ∧ heap s1 !! a = Some nda1 ∧
                    m_refs nda1 = remove_this n (m_refs nda)) ∧
     release (S k) n s = (for_each (release k) (m_arguments e);; free n) s1) ∧
  (∀ s', release (S k) n s = Ok (tt, s') →
     heap s' !! n = None ∧
     (∀ a nda', a ∈ m_arguments e → heap s' !! a = Some nda' →
        n ∉ m_refs nda' ∧
        ∀ fuel v,
          set ne eq fuel a v s' =
            if different_with ne eq nda' v
            then for_each (update ne eq fuel) (m_refs nda') (stored a v nda' s')
            else Ok (tt, entered_set a v s')) ∧
     (∀ fuel a v s'' t, a ∈ m_arguments e →
        set ne eq fuel a v s' = Ok (tt, s'') → log s'' = log s' ++ t →
        EvUpdate n ∉ t) ∧
     ((∀ m ndm, heap s !! m = Some ndm → n ∈ m_refs ndm → m ∈ m_arguments e) →
      ∀ m ndm', heap s' !! m = Some ndm' → n ∉ m_refs ndm')) ∧
  (∀ refs, n ∉ refs → remove_this n refs = refs) ∧
  (∀ refs, remove_this n (remove_this n refs) = remove_this n refs).
Proof.
  intros Hn He Hown Halive.
  destruct (process_refs_total false n (m_arguments e) s Halive) as [s1 H1].
  destruct (process_refs_uninstall _ _ _ _ _ H1) as [_ Hrefs].
  assert (∀ a, a ∈ m_arguments e →
            ∃ nda nda1, heap s !! a = Some nda ∧ heap s1 !! a = Some nda1 ∧
                        m_refs nda1 = remove_this n (m_refs nda)) as Hinputs.
  { intros a Ha. destruct (Halive a Ha) as [nda Hnda].
    destruct (Hrefs a nda Hnda) as (nda1 & Hnda1 & Hr).
    rewrite decide_True in Hr by done. eauto. }
  assert (release (S k) n s = (for_each (release k) (m_arguments e);; free n) s1)
    as Hrel.
  { cbn [release]. rewrite Hown. unfold bind at 1, deref. rewrite Hn, He.
    unfold bind at 1. by rewrite H1. }
  split; [eauto|]. split; [|split; [apply remove_this_absent | apply remove_this_idemp]].
  intros s' H. rewrite Hrel in H.
  apply bind_Ok in H as (? & s2 & H2 & H3).
  assert (heap s' !! n = None) as Hgone.
  { injection H3 as <-. apply lookup_delete_eq. }
  assert (shrinks s1 s') as Hshr.
  { eapply shrinks_trans; [|by eapply free_shrinks].
    eapply for_each_shrinks; [|done]. intros r. apply release_shrinks. }
  split; [done|]. split; [|split].
  - intros a nda' Ha Hnda'. split; [|intros fuel v; by apply set_unfold].
    intros Hin.
    destruct (Hshr a nda' Hnda') as (nda1 & Hnda1 & Hsub).
    destruct (Hinputs a Ha) as (nda & nda1' & _ & Hnda1' & Hr).
    assert (nda1' = nda1) as -> by congruence.
    apply Hsub in Hin. rewrite Hr in Hin. by apply remove_this_gone in Hin.
  - intros fuel a v s'' t _ Hset Hlog Hin.
    apply set_evolves in Hset as [t0 E].
    assert (t = EvSet a v :: t0) as ->.
    { apply (app_inv_head (log s')). rewrite <- Hlog. apply E. }
    destruct (ev_alive _ _ _ E n) as [? Hlive]; [auto|]. congruence.
  - intros Hwired m ndm' Hm' Hin.
    destruct (Hshr m ndm' Hm') as (ndm1 & Hm1 & Hsub). apply Hsub in Hin.
    destruct (heap s !! m) as [ndm|] eqn:Hm.
    + destruct (Hrefs m ndm Hm) as (ndm1' & Hm1' & Hr).
      assert (ndm1' = ndm1) as -> by congruence. rewrite Hr in Hin.
      destruct (decide (m ∈ m_arguments e)) as [Hmem|Hnmem].
      * by apply remove_this_gone in Hin.
      * apply Hnmem. by apply (Hwired m ndm).
    + apply process_refs_rewired in H1.
      rewrite (rw_dead _ _ H1 m Hm) in Hm1. done.
Qed.

End Properties.

(** ** The scenarios of the demonstration program *)

Lemma value_of_Some {A} (r : Res (A * State Z)) (a : A) :
  IntGraph.value_of r = Some a → ∃ s, r = Ok (a, s).
Proof. destruct r as [[a' s]| |]; [|done|done]. intros [= ->]. eauto. Qed.

Lemma fuel_mono_sum_graph : fuel_mono IntGraph.sum_graph.
Proof.
  unfold IntGraph.sum_graph.
  apply fuel_mono_bind; [apply fuel_mono_new_value | intros a].
  apply fuel_mono_bind; [apply fuel_mono_new_value | intros b].
  apply fuel_mono_bind; [apply fuel_mono_new_expr | intros e].
  apply fuel_mono_const.
Qed.

Lemma fuel_mono_lazy_scenario b : fuel_mono (IntGraph.lazy_scenario b).
Proof.
  unfold IntGraph.lazy_scenario.
  apply fuel_mono_bind; [apply fuel_mono_sum_graph | intros abe].
  apply fuel_mono_bind.
  { destruct b.
    - apply fuel_mono_bind; [apply fuel_mono_get | intros r; apply fuel_mono_const].
    - apply fuel_mono_bind; [apply fuel_mono_const | intros _; apply fuel_mono_get]. }
  intros r0.
  apply fuel_mono_bind; [apply fuel_mono_set | intros _].
  apply fuel_mono_bind; [apply fuel_mono_const | intros stale].
  apply fuel_mono_bind; [apply fuel_mono_get | intros r1].
  apply fuel_mono_const.
Qed.

(** C4.  [a = 1, b = 2, e = a + b], [e] switched to [Lazy], first read 3; after
    [a.set(3)] the cached value of [e] is still 3 and its dirty flag is set;
    the next [e.get()] returns 5 and leaves the flag clear.  This holds with
    the switch before or after the first read, for every budget from 2 on. *)
Theorem lazy_coalescing read_before_switch n :
  ∃ s, IntGraph.lazy_scenario read_before_switch (n + 2) empty_state
       = Ok ((3, 3, true, 5, false)%Z, s).
Proof.
  assert (∃ s, IntGraph.lazy_scenario read_before_switch 2 empty_state
               = Ok ((3, 3, true, 5, false)%Z, s)) as [s Hs].
  { apply value_of_Some. destruct read_before_switch; vm_compute; reflexivity. }
  exists s. apply (fuel_mono_plus _ _ _ _ _ (fuel_mono_lazy_scenario _) Hs).
Qed.

Lemma fuel_mono_diamond_scenario b : fuel_mono (IntGraph.diamond_scenario b).
Proof.
  unfold IntGraph.diamond_scenario.
  apply fuel_mono_bind; [apply fuel_mono_new_value | intros a].
  apply fuel_mono_bind; [apply fuel_mono_new_value | intros b'].
  apply fuel_mono_bind; [apply fuel_mono_new_value | intros c].
  apply fuel_mono_bind.
  { destruct b.
    - apply fuel_mono_bind; [apply fuel_mono_new_expr | intros x].
      apply fuel_mono_bind; [apply fuel_mono_new_expr | intros y; apply fuel_mono_const].
    - apply fuel_mono_bind; [apply fuel_mono_new_expr | intros y].
      apply fuel_mono_bind; [apply fuel_mono_new_expr | intros x; apply fuel_mono_const]. }
  intros xy.
  apply fuel_mono_bind; [apply fuel_mono_new_expr | intros e].
  apply fuel_mono_bind; [apply fuel_mono_release | intros _].
  apply fuel_mono_bind; [apply fuel_mono_release | intros _].
  apply fuel_mono_bind; [apply fuel_mono_get | intros r0].
  apply fuel_mono_bind; [apply fuel_mono_set | intros _].
  apply fuel_mono_bind; [apply fuel_mono_get | intros r1].
  apply fuel_mono_const.
Qed.

(** C6, as amended.  [a = 1, b = 2, c = 3, e = (a + b) + (a + c)] under
    [Instant]: the first [e.get()] returns 7, and after [a.set(5)] the next
    returns 15, whichever operand was built first, for every budget from 3
    on. *)
Theorem diamond_convergence left_first n :
  ∃ s, IntGraph.diamond_scenario left_first (n + 3) empty_state = Ok ((7, 15)%Z, s).
Proof.
  assert (∃ s, IntGraph.diamond_scenario left_first 3 empty_state
               = Ok ((7, 15)%Z, s)) as [s Hs].
  { apply value_of_Some. destruct left_first; vm_compute; reflexivity. }
  exists s. apply (fuel_mono_plus _ _ _ _ _ (fuel_mono_diamond_scenario _) Hs).
Qed.

(** C6, as stated, fails: the first read of [e] returns (1 + 2) + (1 + 3),
    which is 7 and not 6, in either order of construction. *)
Lemma diamond_first_read_is_7 :
  IntGraph.value_of (IntGraph.diamond_scenario true 3 empty_state) = Some (7, 15)%Z ∧
  IntGraph.value_of (IntGraph.diamond_scenario false 3 empty_state) = Some (7, 15)%Z ∧
  (7 ≠ 6)%Z.
Proof. repeat split; try (vm_compute; reflexivity). lia. Qed.

(** C9, as stated, fails at [T = double] for [v] a NaN: the constructor
    stores the NaN ([0.0 != NaN] holds), [get()] returns it, and [get() == v]
    is false, since a NaN compares unequal to itself. *)
Lemma nan_does_not_read_back :
  DoubleGraph.read_back 1 PrimFloat.nan = Some PrimFloat.nan ∧
  ((λ w, DoubleGraph.double_eq w PrimFloat.nan)
     <$> DoubleGraph.read_back 1 PrimFloat.nan) = Some false.
Proof. repeat split; vm_compute; reflexivity. Qed.

(** C3, as stated, fails at the first read after construction: on the graph
    [a = 1, b = 2, e = a + b], with [e] under [Instant], [e.get()] reads both
    inputs, calls the stored function and [set], and clears the dirty flag
    that the constructor had raised. *)
Lemma instant_first_get_recomputes :
  let s := IntGraph.state_after (IntGraph.sum_graph 2) empty_state in
  let s' := IntGraph.state_after (IntGraph.get 2 2) s in
  (m_eval_policy <$> (heap s !! 2 ≫= m_expr)) = Some BindingEvalPolicy.Instant ∧
  IntGraph.value_of (IntGraph.get 2 2 s) = Some 3%Z ∧
  log s' = log s ++ [EvGet 2; EvGet 0; EvGet 1; EvCall 2 [1; 2]%Z; EvSet 2 3%Z] ∧
  (is_dirty <$> heap s !! 2) = Some true ∧
  (is_dirty <$> heap s' !! 2) = Some false ∧
  heap s' ≠ heap s.
Proof.
  cbv zeta. repeat split; try (vm_compute; reflexivity).
  intros H.
  assert ((is_dirty <$> heap (IntGraph.state_after (IntGraph.get 2 2)
             (IntGraph.state_after (IntGraph.sum_graph 2) empty_state)) !! 2)
          = Some true) as H1.
  { rewrite H. vm_compute. reflexivity. }
  vm_compute in H1. discriminate.
Qed.

(** ** The theorems at work on the first block of [main] *)

Lemma Ok_state_after {A} (c : M Z A) (s : State Z) (a : A) :
  IntGraph.value_of (c s) = Some a → c s = Ok (a, IntGraph.state_after c s).
Proof.
  unfold IntGraph.state_after. destruct (c s) as [[a' s']| |]; [|done|done].
  by intros [= ->].
Qed.

Lemma set_notifies_iff_different_witness :
  heap IntGraph.sum_state !! 0 = Some IntGraph.node_a ∧
  IntGraph.set 2 0 3%Z IntGraph.sum_state =
    for_each (IntGraph.update 2) [2]
      (stored 0 3%Z IntGraph.node_a IntGraph.sum_state).
Proof.
  assert (heap IntGraph.sum_state !! 0 = Some IntGraph.node_a) as H
    by (vm_compute; reflexivity).
  split; [exact H|].
  exact (proj1 (proj2 (proj2 (set_notifies_iff_different
                                IntGraph.int_ne IntGraph.int_eq
                                2 0 3%Z IntGraph.sum_state IntGraph.node_a H)))).
Defined.

Lemma lazy_get_recomputes_when_dirty_witness :
  heap IntGraph.lazy_state !! 2 = Some (IntGraph.node_e BindingEvalPolicy.Lazy true) ∧
  IntGraph.get 2 2 IntGraph.lazy_state
    = lazy_get_spec IntGraph.int_ne IntGraph.int_eq 1 2 IntGraph.lazy_state.
Proof.
  assert (heap IntGraph.lazy_state !! 2
          = Some (IntGraph.node_e BindingEvalPolicy.Lazy true)) as H
    by (vm_compute; reflexivity).
  split; [exact H|].
  exact (proj1 (lazy_get_recomputes_when_dirty IntGraph.int_ne IntGraph.int_eq
                  1 2 IntGraph.lazy_state _ _ H eq_refl eq_refl)).
Defined.

Lemma instant_get_when_clean_witness :
  heap IntGraph.read_state !! 2
    = Some (IntGraph.node_e BindingEvalPolicy.Instant false) ∧
  IntGraph.get 1 2 IntGraph.read_state
    = Ok (3%Z, entered_get 2 IntGraph.read_state).
Proof.
  assert (heap IntGraph.read_state !! 2
          = Some (IntGraph.node_e BindingEvalPolicy.Instant false)) as H
    by (vm_compute; reflexivity).
  split; [exact H|].
  exact (proj1 (instant_get_when_clean IntGraph.int_ne IntGraph.int_eq
                  0 2 IntGraph.read_state _ _ H eq_refl eq_refl eq_refl)).
Defined.

Lemma lazy_get_twice_witness :
  IntGraph.get 2 2 IntGraph.lazy_state
    = Ok (3%Z, IntGraph.state_after (IntGraph.get 2 2) IntGraph.lazy_state) ∧
  IntGraph.get 1 2 (IntGraph.state_after (IntGraph.get 2 2) IntGraph.lazy_state)
    = Ok (3%Z, entered_get 2
                 (IntGraph.state_after (IntGraph.get 2 2) IntGraph.lazy_state)).
Proof.
  assert (heap IntGraph.lazy_state !! 2
          = Some (IntGraph.node_e BindingEvalPolicy.Lazy true)) as H
    by (vm_compute; reflexivity).
  assert (IntGraph.get 2 2 IntGraph.lazy_state
          = Ok (3%Z, IntGraph.state_after (IntGraph.get 2 2) IntGraph.lazy_state))
    as Hget by (apply Ok_state_after; vm_compute; reflexivity).
  split; [exact Hget|].
  exact (proj1 (proj2 (lazy_get_twice IntGraph.int_ne IntGraph.int_eq
                         2 0 2 IntGraph.lazy_state _ _ 3%Z _
                         H eq_refl eq_refl Hget))).
Defined.

Lemma new_value_reads_back_witness :
  ∃ p s' nd,
    IntGraph.new_value 1 7%Z empty_state = Ok (p, s') ∧
    heap (empty_state (T:=Z)) !! p = None ∧
    heap s' !! p = Some nd ∧
    m_value nd = (if IntGraph.int_ne 0 7 then 7 else 0)%Z ∧
    ∀ k, IntGraph.get (S k) p s' = Ok (m_value nd, entered_get p s') ∧
         IntGraph.int_eq (m_value nd) 7 = true.
Proof.
  apply (new_value_reads_back IntGraph.int_ne IntGraph.int_eq 0%Z 1 7%Z empty_state).
  - intros x. apply Z.eqb_refl.
  - intros x y. unfold IntGraph.int_ne, IntGraph.int_eq.
    destruct (x =? y)%Z; [done | discriminate].
Defined.

Lemma destroy_unsubscribes_witness :
  IntGraph.release 2 2 IntGraph.sum_state
    = Ok (tt, IntGraph.state_after (IntGraph.release 2 2) IntGraph.sum_state) ∧
  heap (IntGraph.state_after (IntGraph.release 2 2) IntGraph.sum_state) !! 2 = None ∧
  ∀ a nda', a ∈ [0; 1] →
    heap (IntGraph.state_after (IntGraph.release 2 2) IntGraph.sum_state) !! a
      = Some nda' →
    2 ∉ m_refs nda'.
Proof.
  assert (heap IntGraph.sum_state !! 2
          = Some (IntGraph.node_e BindingEvalPolicy.Instant true)) as Hn
    by (vm_compute; reflexivity).
  assert (owners IntGraph.sum_state !! 2 = Some 1) as Hown
    by (vm_compute; reflexivity).
  assert (∀ a, a ∈ [0; 1] → is_Some (heap IntGraph.sum_state !! a)) as Halive.
  { intros a Ha. apply elem_of_cons in Ha as [->|Ha].
    - exists IntGraph.node_a. vm_compute. reflexivity.
    - apply list_elem_of_singleton in Ha as ->.
      exists (mkNode 2%Z BindingCompPolicy.NotEqual [2] None). vm_compute. reflexivity. }
  assert (IntGraph.release 2 2 IntGraph.sum_state
          = Ok (tt, IntGraph.state_after (IntGraph.release 2 2) IntGraph.sum_state))
    as Hrel by (apply Ok_state_after; vm_compute; reflexivity).
  split; [exact Hrel|].
  pose proof (proj1 (proj2 (destroy_unsubscribes IntGraph.int_ne IntGraph.int_eq
                              1 2 IntGraph.sum_state _ _ Hn eq_refl Hown Halive))
                _ Hrel) as W.
  split; [exact (proj1 W)|].
  intros a nda' Ha Hnda'. exact (proj1 (proj1 (proj2 W) a nda' Ha Hnda')).
Defined.

Lemma instant_dirty_until_first_get_witness :
  let ops := [OpSet 0 3%Z; OpUpdate 2; OpSet 1 5%Z] in
  let s1 := IntGraph.state_after (IntGraph.new_expr 2 IntGraph.plus [0; 1])
              IntGraph.leaves_state in
  let s2 := IntGraph.state_after (run_ops IntGraph.int_ne IntGraph.int_eq 2 ops) s1 in
  IntGraph.new_expr 2 IntGraph.plus [0; 1] IntGraph.leaves_state = Ok (2, s1) ∧
  run_ops IntGraph.int_ne IntGraph.int_eq 2 ops s1 = Ok (tt, s2) ∧
  instant_and_dirty IntGraph.plus [0; 1] 2 s2.
Proof.
  cbv zeta.
  set (ops := [OpSet 0 3%Z; OpUpdate 2; OpSet 1 5%Z]).
  set (s1 := IntGraph.state_after (IntGraph.new_expr 2 IntGraph.plus [0; 1])
               IntGraph.leaves_state).
  set (s2 := IntGraph.state_after (run_ops IntGraph.int_ne IntGraph.int_eq 2 ops) s1).
  assert (IntGraph.new_expr 2 IntGraph.plus [0; 1] IntGraph.leaves_state = Ok (2, s1))
    as Hnew by (apply Ok_state_after; vm_compute; reflexivity).
  assert (run_ops IntGraph.int_ne IntGraph.int_eq 2 ops s1 = Ok (tt, s2))
    as Hops by (apply Ok_state_after; vm_compute; reflexivity).
  assert (log s2 = log IntGraph.leaves_state
                   ++ drop (length (log IntGraph.leaves_state)) (log s2)) as Hlog
    by (vm_compute; reflexivity).
  assert (EvGet 2 ∉ drop (length (log IntGraph.leaves_state)) (log s2)) as Hno.
  { intros Hin. apply list_elem_of_In in Hin. vm_compute in Hin.
    intuition discriminate. }
  split; [exact Hnew|]. split; [exact Hops|].
  exact (proj1 (proj2 (instant_dirty_until_first_get IntGraph.int_ne IntGraph.int_eq
                         0%Z 2 IntGraph.plus [0; 1] IntGraph.leaves_state 2 s1
                         2 ops s2 _ Hnew Hops Hlog Hno))).
Defined.

(** Were the destructor body skipped, the entry would dangle: returning the
    storage of [e] while [a] still lists it makes the next [a.set] that
    propagates dereference a dead object. *)
Example stale_subscriber_dangles :
  IntGraph.set 2 0 3%Z
    (IntGraph.state_after (free 2) IntGraph.sum_state) = Dangling ∧
  IntGraph.value_of
    (IntGraph.set 2 0 3%Z
       (IntGraph.state_after (IntGraph.release 2 2) IntGraph.sum_state)) = Some tt.
Proof. split; vm_compute; reflexivity. Qed.

(** Change detection seen from a subscriber: with [a] under [NotEqual],
    [a.set(1)] on [a = 1] reaches nobody; under [Always] the same call makes
    [e] dispatch once. *)
Example same_value_set_by_policy :
  log (IntGraph.state_after (IntGraph.set 2 0 1%Z) IntGraph.read_state)
    = log IntGraph.read_state ++ [EvSet 0 1%Z] ∧
  log (IntGraph.state_after
         (assign_comp_policy 0 BindingCompPolicy.Always;; IntGraph.set 2 0 1%Z)
         IntGraph.read_state)
    = log IntGraph.read_state
      ++ [EvSet 0 1%Z; EvUpdate 2; EvGet 0; EvGet 1; EvCall 2 [1; 2]%Z; EvSet 2 3%Z].
Proof. split; vm_compute; reflexivity. Qed.

(** ** Taking runs apart *)

Section Inversion.
Context {T : Type}.
Variable ne : T → T → bool.
Variable eq : T → T → bool.

Implicit Types (s : State T) (nd : Node T) (e : ExprPart T) (p q a : addr)
  (t : list (Event T)).

Lemma set_body_inv (upd : addr → M T unit) p v s u s' :
  set_body ne eq upd p v s = Ok (u, s') →
  ∃ nd, heap s !! p = Some nd ∧
        if different_with ne eq nd v
        then for_each upd (m_refs nd) (stored p v nd s) = Ok (u, s')
        else s' = entered_set p v s.
Proof.
  unfold set_body, bind, emit, deref, modify; simpl.
  destruct (heap s !! p) as [nd|] eqn:Hp; [|done]. intros H. exists nd.
  split; [done|]. destruct (different_with ne eq nd v).
  - simpl in H. by rewrite Hp in H.
  - by injection H as _ <-.
Qed.

Lemma dispatch_inv (g : addr → M T T) p e s v s' :
  dispatch g p e s = Ok (v, s') →
  ∃ vals s1, read_all g (m_arguments e) s = Ok (vals, s1) ∧
             s' = mkState (heap s1) (owners s1) (log s1 ++ [EvCall p vals]) ∧
             v = m_function e vals.
Proof.
  unfold dispatch. intros H.
  apply bind_Ok in H as (vals & s1 & H1 & H).
  apply bind_Ok in H as (? & s2 & H2 & H). apply emit_Ok in H2.
  injection H as <- <-. eauto.
Qed.

Lemma get_body_inv (g : addr → M T T) (upd : addr → M T unit) p s v s' :
  get_body ne eq g upd p s = Ok (v, s') →
  ∃ nd, heap s !! p = Some nd ∧
    ((is_dirty nd = false ∧ s' = entered_get p s ∧ v = m_value nd) ∨
     (∃ e w s1 s2 nd2,
        m_expr nd = Some e ∧ m_dirty e = true ∧
        dispatch g p e (entered_get p s) = Ok (w, s1) ∧
        set_body ne eq upd p w s1 = Ok (tt, s2) ∧
        heap s2 !! p = Some nd2 ∧
        s' = mkState (<[p := with_dirty false nd2]> (heap s2)) (owners s2) (log s2) ∧
        v = m_value nd2)).
Proof.
  unfold get_body. intros H.
  apply bind_Ok in H as (? & s0 & H0 & H). apply emit_Ok in H0.
  apply bind_Ok in H as (nd & ? & Hd & H). apply deref_Ok in Hd as [Hp ->].
  subst s0. simpl in Hp. exists nd. split; [done|].
  unfold is_dirty. destruct (m_expr nd) as [e|] eqn:He.
  - apply bind_Ok in H as (? & s3 & H & Hb).
    unfold base_get in Hb. apply bind_Ok in Hb as (nd3 & ? & Hd & Hb).
    apply deref_Ok in Hd as [Hp3 ->]. injection Hb as <- <-.
    destruct (m_dirty e) eqn:Hdirty.
    + right. apply bind_Ok in H as (w & s1 & H1 & H).
      apply bind_Ok in H as ([] & s2 & H2 & H).
      apply modify_Ok in H as (nd2 & Hp2 & ->). simpl in Hp3.
      rewrite lookup_insert_eq in Hp3. injection Hp3 as <-.
      exists e, w, s1, s2, nd2. done.
    + left. injection H as _ <-. simpl in Hp3.
      assert (nd3 = nd) as -> by congruence. done.
  - left. by injection H as <- <-.
Qed.

Lemma update_body_inv (g : addr → M T T) (upd : addr → M T unit) p s u s' :
  update_body ne eq g upd p s = Ok (u, s') →
  ∃ nd, heap s !! p = Some nd ∧
    match m_expr nd with
    | None => s' = entered_update p s
    | Some e =>
        match m_eval_policy e with
        | BindingEvalPolicy.Instant =>
            ∃ w s1, dispatch g p e (entered_update p s) = Ok (w, s1) ∧
                    set_body ne eq upd p w s1 = Ok (u, s')
        | BindingEvalPolicy.Lazy =>
            s' = mkState (<[p := with_dirty true nd]> (heap s)) (owners s)
                   (log s ++ [EvUpdate p])
        | BindingEvalPolicy.Count => s' = entered_update p s
        end
    end.
Proof.
  unfold update_body. intros H.
  apply bind_Ok in H as (? & s0 & H0 & H). apply emit_Ok in H0.
  apply bind_Ok in H as (nd & ? & Hd & H). apply deref_Ok in Hd as [Hp ->].
  subst s0. simpl in Hp. exists nd. split; [done|].
  destruct (m_expr nd) as [e|]; [|by injection H as _ <-].
  destruct (m_eval_policy e).
  - apply bind_Ok in H as (w & s1 & H1 & H2). eauto.
  - apply modify_Ok in H as (nd1 & Hp1 & ->). simpl in Hp1.
    by assert (nd1 = nd) as -> by congruence.
  - by injection H as _ <-.
Qed.

End Inversion.

(** ** What a run leaves alone *)

Section Locality.
Context {T : Type}.
Variable ne : T → T → bool.
Variable eq : T → T → bool.

Implicit Types (s : State T) (nd : Node T) (e : ExprPart T) (p q a : addr)
  (t : list (Event T)).

Lemma touched_head (ev : Event T) t : ¬ untouched (target ev) (ev :: t).
Proof. intros H. by inversion H. Qed.

Lemma local_refl s : local [] s s.
Proof. split; [by rewrite app_nil_r | done]. Qed.

Lemma local_trans t1 t2 s s1 s2 :
  local t1 s s1 → local t2 s1 s2 → local (t1 ++ t2) s s2.
Proof.
  intros [Hl1 H1] [Hl2 H2]. split.
  - rewrite Hl2, Hl1. by rewrite app_assoc.
  - intros q Hq. apply Forall_app in Hq as [Hq1 Hq2].
    rewrite (H2 q Hq2). by apply H1.
Qed.

Lemma local_emit (ev : Event T) s :
  local [ev] s (mkState (heap s) (owners s) (log s ++ [ev])).
Proof. by split. Qed.

(** A write to [p] at the end of a run that has a call on [p]. *)
Lemma local_then_write t s s1 s2 p nd :
  local t s s1 → ¬ untouched p t →
  heap s2 = <[p := nd]> (heap s1) → log s2 = log s1 →
  local t s s2.
Proof.
  intros [Hl H] Hp Hh Hlog. split; [congruence|].
  intros q Hq. rewrite Hh. destruct (decide (p = q)) as [->|Hne]; [done|].
  rewrite lookup_insert_ne by done. by apply H.
Qed.

Lemma for_each_local (f : addr → M T unit) (l : list addr) :
  (∀ r s u s', f r s = Ok (u, s') → ∃ t, local t s s') →
  ∀ s u s', for_each f l s = Ok (u, s') → ∃ t, local t s s'.
Proof.
  intros Hf. induction l as [|r l IH]; intros s u s' H; simpl in H.
  - injection H as _ <-. eauto using local_refl.
  - apply bind_Ok in H as (u1 & s1 & H1 & H2).
    apply Hf in H1 as [t1 H1]. apply IH in H2 as [t2 H2].
    eauto using local_trans.
Qed.

Lemma read_all_local (g : addr → M T T) (l : list addr) :
  (∀ r s v s', g r s = Ok (v, s') → ∃ t, local t s s') →
  ∀ s vs s', read_all g l s = Ok (vs, s') → ∃ t, local t s s'.
Proof.
  intros Hg. induction l as [|r l IH]; intros s vs s' H; simpl in H.
  - injection H as _ <-. eauto using local_refl.
  - apply bind_Ok in H as (v1 & s1 & H1 & H).
    apply bind_Ok in H as (vs1 & s2 & H2 & H). injection H as _ <-.
    apply Hg in H1 as [t1 H1]. apply IH in H2 as [t2 H2].
    eauto using local_trans.
Qed.

Lemma set_body_local (upd : addr → M T unit) p v s u s' :
  (∀ r s u s', upd r s = Ok (u, s') → ∃ t, local t s s') →
  set_body ne eq upd p v s = Ok (u, s') → ∃ t, local (EvSet p v :: t) s s'.
Proof.
  intros Hupd H. apply set_body_inv in H as (nd & Hp & H).
  destruct (different_with ne eq nd v).
  - eapply for_each_local in H as [t2 E2]; [|done]. exists t2.
    apply (local_trans [EvSet p v] t2 s (stored p v nd s) s'); [|done].
    apply (local_then_write [EvSet p v] s (entered_set p v s) (stored p v nd s)
             p (with_value v nd) (local_emit _ _)); [|reflexivity..].
    apply (touched_head (EvSet p v) []).
  - subst s'. exists []. apply local_emit.
Qed.

Lemma dispatch_local (g : addr → M T T) p e s v s' :
  (∀ r s v s', g r s = Ok (v, s') → ∃ t, local t s s') →
  dispatch g p e s = Ok (v, s') → ∃ t, local t s s'.
Proof.
  intros Hg H. apply dispatch_inv in H as (vals & s1 & H1 & -> & _).
  eapply read_all_local in H1 as [t1 E1]; [|done].
  exists (t1 ++ [EvCall p vals]). eapply local_trans; [done|]. apply local_emit.
Qed.

Lemma run_local fuel :
  (∀ p s v s', get ne eq fuel p s = Ok (v, s') → ∃ t, local (EvGet p :: t) s s') ∧
  (∀ p s u s', update ne eq fuel p s = Ok (u, s') → ∃ t, local (EvUpdate p :: t) s s').
Proof.
  induction fuel as [|k [IHg IHu]]; [by split|].
  assert (∀ r s v s', get ne eq k r s = Ok (v, s') → ∃ t, local t s s') as Hg.
  { intros r s v s' H. apply IHg in H as [t H]. eauto. }
  assert (∀ r s u s', update ne eq k r s = Ok (u, s') → ∃ t, local t s s') as Hu.
  { intros r s u s' H. apply IHu in H as [t H]. eauto. }
  split; intros p s r s' H; simpl in H.
  - apply get_body_inv in H as (nd & Hp & [(_ & -> & _)|H]).
    { exists []. apply local_emit. }
    destruct H as (e & w & s1 & s2 & nd2 & He & Hd & H1 & H2 & Hp2 & -> & _).
    eapply dispatch_local in H1 as [t1 E1]; [|done].
    eapply set_body_local in H2 as [t2 E2]; [|done].
    exists (t1 ++ EvSet p w :: t2).
    assert (local (EvGet p :: t1 ++ EvSet p w :: t2) s s2) as E.
    { apply (local_trans [EvGet p] _ _ _ _ (local_emit _ _)).
      eapply local_trans; [apply E1 | apply E2]. }
    apply (local_then_write _ s s2 _ p (with_dirty false nd2) E); [|reflexivity..].
    apply (touched_head (EvGet p)).
  - apply update_body_inv in H as (nd & Hp & H).
    destruct (m_expr nd) as [e|]; [|subst s'; exists []; apply local_emit].
    destruct (m_eval_policy e).
    + destruct H as (w & s1 & H1 & H2).
      eapply dispatch_local in H1 as [t1 E1]; [|done].
      eapply set_body_local in H2 as [t2 E2]; [|done].
      exists (t1 ++ EvSet p w :: t2).
      apply (local_trans [EvUpdate p] _ _ _ _ (local_emit _ _)).
      eapply local_trans; [apply E1 | apply E2].
    + subst s'. exists [].
      apply (local_then_write [EvUpdate p] s (entered_update p s) _
               p (with_dirty true nd) (local_emit _ _)); [|reflexivity..].
      apply (touched_head (EvUpdate p) []).
    + subst s'. exists []. apply local_emit.
Qed.

Lemma run_ops_local fuel ops s u s' :
  run_ops ne eq fuel ops s = Ok (u, s') → ∃ t, local t s s'.
Proof.
  revert s. induction ops as [|o ops IH]; intros s H; simpl in H.
  - injection H as _ <-. eauto using local_refl.
  - apply bind_Ok in H as (? & s1 & H1 & H2). apply IH in H2 as [t2 E2].
    assert (∃ t1, local t1 s s1) as [t1 E1].
    { destruct o as [q|q v|q]; simpl in H1.
      - apply bind_Ok in H1 as (? & s0 & H1 & H0). injection H0 as _ <-.
        apply run_local in H1 as [t1 E1]. eauto.
      - eapply set_body_local in H1 as [t1 E1]; [eauto|].
        intros r s0 u0 s0' H0. apply run_local in H0 as [t0 E0]. eauto.
      - apply run_local in H1 as [t1 E1]. eauto. }
    eauto using local_trans.
Qed.

(** X1.  Calls of [get], [set] and [update], in any number and on any nodes,
    never create or destroy an object and never change an ownership count, a
    subscriber list, a change-detection or evaluation policy, a stored
    function or a list of inputs: at most [m_value] and [m_dirty] differ
    afterwards. *)
Theorem calls_keep_structure fuel ops s s' :
  run_ops ne eq fuel ops s = Ok (tt, s') →
  owners s' = owners s ∧
  (∀ q, heap s' !! q = None ↔ heap s !! q = None) ∧
  ∀ q nd, heap s !! q = Some nd →
    ∃ nd', heap s' !! q = Some nd' ∧
           m_refs nd' = m_refs nd ∧
           m_comp_policy nd' = m_comp_policy nd ∧
           (m_eval_policy <$> m_expr nd') = (m_eval_policy <$> m_expr nd) ∧
           (m_function <$> m_expr nd') = (m_function <$> m_expr nd) ∧
           (m_arguments <$> m_expr nd') = (m_arguments <$> m_expr nd).
Proof.
  intros H. apply run_ops_evolves in H as [t E].
  split; [apply E|]. split.
  - intros q. split; [|apply E].
    intros Hq'. destruct (heap s !! q) as [nd|] eqn:Hq; [|done].
    destruct (ev_shape _ _ _ E q nd Hq) as (nd' & Hnd' & _). congruence.
  - intros q nd Hq. destruct (ev_shape _ _ _ E q nd Hq) as (nd' & Hq' & Hr & Hc & Hs).
    exists nd'. split; [done|]. split; [done|]. split; [done|].
    destruct (m_expr nd), (m_expr nd'); try done.
    destruct Hs as (Hp & Hf & Ha). simpl. by rewrite Hp, Hf, Ha.
Qed.

(** X2.  A run changes only the objects it makes a call on: an object that
    is the target of no [get], [set], [update] or function call in the log
    of the run is afterwards exactly what it was. *)
Theorem calls_change_only_their_targets fuel ops s s' t q :
  run_ops ne eq fuel ops s = Ok (tt, s') →
  log s' = log s ++ t →
  untouched q t →
  heap s' !! q = heap s !! q.
Proof.
  intros H Hlog Hq. apply run_ops_local in H as [t' [Hl H]].
  assert (t' = t) as -> by (apply (app_inv_head (log s)); congruence).
  by apply H.
Qed.

End Locality.

(** ** Value nodes under propagation *)

Section Frame.
Context {T : Type}.
Variable ne : T → T → bool.
Variable eq : T → T → bool.

Implicit Types (s : State T) (nd : Node T) (e : ExprPart T) (p q a : addr)
  (t : list (Event T)).

Lemma frame_refl s : frame s s.
Proof. split; [by intros q nd|]. intros q nd e ? ?. eauto 6. Qed.

Lemma frame_trans s s1 s2 : frame s s1 → frame s1 s2 → frame s s2.
Proof.
  intros [Hl1 He1] [Hl2 He2]. split.
  - intros q nd Hq Hn. apply Hl2; [|done]. by apply Hl1.
  - intros q nd e Hq Hn.
    destruct (He1 q nd e Hq Hn) as (nd1 & e1 & Hq1 & Hn1 & Ha1 & Hf1).
    destruct (He2 q nd1 e1 Hq1 Hn1) as (nd2 & e2 & Hq2 & Hn2 & Ha2 & Hf2).
    exists nd2, e2. repeat split; congruence.
Qed.

Lemma frame_same_heap s s' : heap s' = heap s → frame s s'.
Proof.
  intros Hh. split.
  - intros q nd. by rewrite Hh.
  - intros q nd e Hq Hn. exists nd, e. by rewrite Hh.
Qed.

(** A write to an expression that keeps its function and inputs. *)
Lemma frame_write q ndq eq0 nd' e' s s' :
  heap s !! q = Some ndq → m_expr ndq = Some eq0 →
  m_expr nd' = Some e' → m_arguments e' = m_arguments eq0 →
  m_function e' = m_function eq0 →
  heap s' = <[q := nd']> (heap s) →
  frame s s'.
Proof.
  intros Hq Hn Hn' Ha Hf Hh. split.
  - intros a nd Ha' Hleaf. rewrite Hh.
    rewrite lookup_insert_ne; [done|]. intros <-. congruence.
  - intros a nd e Ha' He. rewrite Hh.
    destruct (decide (q = a)) as [<-|Hne].
    + rewrite lookup_insert_eq. exists nd', e'.
      assert (nd = ndq) as -> by congruence.
      assert (e = eq0) as -> by congruence. done.
    + rewrite lookup_insert_ne by done. eauto 6.
Qed.

Lemma frame_write_value q ndq eq0 v s s' :
  heap s !! q = Some ndq → m_expr ndq = Some eq0 →
  heap s' = <[q := with_value v ndq]> (heap s) →
  frame s s'.
Proof.
  intros Hq Hn Hh.
  by apply (frame_write q ndq eq0 (with_value v ndq) eq0 s s').
Qed.

Lemma frame_write_dirty q ndq eq0 b s s' :
  heap s !! q = Some ndq → m_expr ndq = Some eq0 →
  heap s' = <[q := with_dirty b ndq]> (heap s) →
  frame s s'.
Proof.
  intros Hq Hn Hh.
  apply (frame_write q ndq eq0 (with_dirty b ndq)
           (mkExpr (m_eval_policy eq0) (m_function eq0) (m_arguments eq0) b) s s');
    try done.
  unfold with_dirty; simpl. by rewrite Hn.
Qed.

Lemma for_each_frame (f : addr → M T unit) (l : list addr) :
  (∀ r s u s', f r s = Ok (u, s') → frame s s') →
  ∀ s u s', for_each f l s = Ok (u, s') → frame s s'.
Proof.
  intros Hf. induction l as [|r l IH]; intros s u s' H; simpl in H.
  - injection H as _ <-. apply frame_refl.
  - apply bind_Ok in H as (u1 & s1 & H1 & H2). eauto using frame_trans.
Qed.

Lemma read_all_frame (g : addr → M T T) (l : list addr) :
  (∀ r s v s', g r s = Ok (v, s') → frame s s') →
  ∀ s vs s', read_all g l s = Ok (vs, s') → frame s s'.
Proof.
  intros Hg. induction l as [|r l IH]; intros s vs s' H; simpl in H.
  - injection H as _ <-. apply frame_refl.
  - apply bind_Ok in H as (v1 & s1 & H1 & H).
    apply bind_Ok in H as (vs1 & s2 & H2 & H). injection H as _ <-.
    eauto using frame_trans.
Qed.

Lemma dispatch_frame (g : addr → M T T) p e s v s' :
  (∀ r s v s', g r s = Ok (v, s') → frame s s') →
  dispatch g p e s = Ok (v, s') → frame s s'.
Proof.
  intros Hg H. apply dispatch_inv in H as (vals & s1 & H1 & -> & _).
  eapply frame_trans; [by eapply read_all_frame|]. by apply frame_same_heap.
Qed.

(** A [set] on an expression. *)
Lemma set_body_frame (upd : addr → M T unit) p v s u s' :
  (∀ r s u s', upd r s = Ok (u, s') → frame s s') →
  is_expr s p →
  set_body ne eq upd p v s = Ok (u, s') → frame s s'.
Proof.
  intros Hupd (nd0 & e & Hp0 & He) H. apply set_body_inv in H as (nd & Hp & H).
  assert (nd0 = nd) as -> by congruence.
  destruct (different_with ne eq nd v).
  - eapply frame_trans; [|by eapply for_each_frame].
    by apply (frame_write_value p nd e v).
  - subst s'. by apply frame_same_heap.
Qed.

Lemma is_expr_frame s s' p : frame s s' → is_expr s p → is_expr s' p.
Proof.
  intros [_ He] (nd & e & Hp & Hn).
  destruct (He p nd e Hp Hn) as (nd' & e' & ? & ? & _). by exists nd', e'.
Qed.

Lemma run_frame fuel :
  (∀ p s v s', get ne eq fuel p s = Ok (v, s') → frame s s') ∧
  (∀ p s u s', update ne eq fuel p s = Ok (u, s') → frame s s').
Proof.
  induction fuel as [|k [IHg IHu]]; [by split|].
  split; intros p s r s' H; simpl in H.
  - apply get_body_inv in H as (nd & Hp & [(_ & -> & _)|H]).
    { by apply frame_same_heap. }
    destruct H as (e & w & s1 & s2 & nd2 & He & Hd & H1 & H2 & Hp2 & -> & _).
    assert (frame s s1) as F1.
    { eapply frame_trans; [|by eapply dispatch_frame]. by apply frame_same_heap. }
    assert (frame s1 s2) as F2.
    { eapply set_body_frame; [done| |done].
      apply (is_expr_frame s s1 p F1). by exists nd, e. }
    destruct (proj2 (frame_trans _ _ _ F1 F2) p nd e Hp He)
      as (nd2' & e2 & Hp2' & He2 & _).
    assert (nd2' = nd2) as -> by congruence.
    eapply frame_trans; [by eapply frame_trans|].
    by apply (frame_write_dirty p nd2 e2 false).
  - apply update_body_inv in H as (nd & Hp & H).
    destruct (m_expr nd) as [e|] eqn:He; [|subst s'; by apply frame_same_heap].
    destruct (m_eval_policy e).
    + destruct H as (w & s1 & H1 & H2).
      assert (frame s s1) as F1.
      { eapply frame_trans; [|by eapply dispatch_frame]. by apply frame_same_heap. }
      eapply frame_trans; [done|]. eapply set_body_frame; [done| |done].
      apply (is_expr_frame s s1 p F1). by exists nd, e.
    + subst s'. by apply (frame_write_dirty p nd e true).
    + subst s'. by apply frame_same_heap.
Qed.

(** A [set] from outside leaves every value node other than its own as it
    was. *)
Lemma set_keeps_other_leaves fuel p v s u s' q nd :
  set ne eq fuel p v s = Ok (u, s') → q ≠ p →
  heap s !! q = Some nd → m_expr nd = None → heap s' !! q = Some nd.
Proof.
  intros H Hne Hq Hn. apply set_body_inv in H as (ndp & Hp & H).
  destruct (different_with ne eq ndp v); [|by subst s'].
  eapply for_each_frame in H; [|intros r; apply run_frame].
  apply H; [|done]. simpl. by rewrite lookup_insert_ne.
Qed.

(** X3.  Reads and notifications never modify a value node: through any
    sequence of [get], [set] and [update] calls in which [set] is not called
    on the value node [q] itself, [q] keeps its value, its policy and its
    subscriber list. *)
Theorem only_set_changes_a_leaf fuel ops s s' q nd :
  run_ops ne eq fuel ops s = Ok (tt, s') →
  heap s !! q = Some nd → m_expr nd = None →
  (∀ v, OpSet q v ∉ ops) →
  heap s' !! q = Some nd.
Proof.
  revert s. induction ops as [|o ops IH]; intros s H Hq Hn Hno; simpl in H.
  - by injection H as <-.
  - apply bind_Ok in H as (? & s1 & H1 & H2).
    apply (IH s1); [done| |done|].
    + destruct o as [r|r v|r]; simpl in H1.
      * apply bind_Ok in H1 as (? & s0 & H1 & H0). injection H0 as _ <-.
        by apply (proj1 (run_frame fuel) r s _ s0 H1).
      * eapply set_keeps_other_leaves; [done| |done..].
        intros ->. apply (Hno v). apply elem_of_cons. auto.
      * by apply (proj2 (run_frame fuel) r s _ s1 H1).
    + intros v Hin. apply (Hno v). apply elem_of_cons. auto.
Qed.

End Frame.

(** ** Expressions over value nodes *)

Section FirstLevel.
Context {T : Type}.
Variable ne : T → T → bool.
Variable eq : T → T → bool.

(** The comparison operators tell values apart exactly: what [!=] does not
    distinguish, and what [==] identifies, is one value. *)
Hypothesis ne_sound : ∀ x y, ne x y = false → x = y.
Hypothesis eq_sound : ∀ x y, eq x y = true → x = y.

Implicit Types (s : State T) (nd : Node T) (e : ExprPart T) (p q a : addr)
  (t : list (Event T)).

Lemma not_different_same nd v : different_with ne eq nd v = false → m_value nd = v.
Proof using ne_sound eq_sound.
  unfold different_with. destruct (m_comp_policy nd); try done.
  - apply ne_sound.
  - intros H. apply eq_sound. by destruct (eq (m_value nd) v).
Qed.

Lemma get_leaf k a s nd :
  heap s !! a = Some nd → m_expr nd = None →
  get ne eq (S k) a s = Ok (m_value nd, entered_get a s).
Proof. intros Ha Hn. apply get_clean; [done|]. unfold is_dirty. by rewrite Hn. Qed.

Lemma read_leaves_inv k args s vals s1 :
  Forall (is_leaf s) args →
  read_all (get ne eq k) args s = Ok (vals, s1) →
  heap s1 = heap s ∧ owners s1 = owners s ∧ input_values s args vals.
Proof.
  revert s vals. induction args as [|a args IH]; intros s vals Hl H; simpl in H.
  - injection H as <- <-. repeat split. constructor.
  - apply Forall_cons in Hl as [(nd & Ha & Hn) Hl].
    apply bind_Ok in H as (v & s0 & H1 & H).
    apply bind_Ok in H as (vs & s2 & H2 & H). injection H as <- <-.
    destruct k as [|k]; [done|].
    rewrite (get_leaf k a s nd Ha Hn) in H1. injection H1 as <- <-.
    destruct (IH (entered_get a s) vs Hl H2) as (Hh & Ho & Hv).
    repeat split; [done..|]. constructor; [by exists nd | exact Hv].
Qed.

Lemma read_leaves_total k args s :
  Forall (is_leaf s) args →
  ∃ vals s1, read_all (get ne eq (S k)) args s = Ok (vals, s1) ∧
             heap s1 = heap s ∧ owners s1 = owners s ∧ input_values s args vals.
Proof.
  revert s. induction args as [|a args IH]; intros s Hl; cbn [read_all].
  - exists [], s. repeat split. constructor.
  - apply Forall_cons in Hl as [(nd & Ha & Hn) Hl].
    destruct (IH (entered_get a s) Hl) as (vs & s1 & H & Hh & Ho & Hv).
    exists (m_value nd :: vs), s1. unfold bind at 1.
    rewrite (get_leaf k a s nd Ha Hn). unfold bind at 1. rewrite H.
    repeat split; [done..|]. constructor; [by exists nd | exact Hv].
Qed.

Lemma input_values_kept s s' args vals :
  leaves_kept s s' → input_values s args vals → input_values s' args vals.
Proof.
  intros Hl Hin. eapply Forall2_impl; [exact Hin|].
  intros a v (nd & Ha & Hn & Hv). exists nd. split; [by apply Hl | done].
Qed.

Lemma input_values_back s s' args vals :
  leaves_kept s s' → Forall (is_leaf s) args →
  input_values s' args vals → input_values s args vals.
Proof.
  intros Hl Hle Hv. induction Hv as [|a v args vals (nd' & Ha' & Hn' & Hv') _ IH];
    [constructor|].
  apply Forall_cons in Hle as [(nd & Ha & Hn) Hle].
  constructor; [|by apply IH].
  exists nd. rewrite (Hl a nd Ha Hn) in Ha'. injection Ha' as <-. done.
Qed.

Lemma is_leaf_kept s s' a : leaves_kept s s' → is_leaf s a → is_leaf s' a.
Proof. intros Hl (nd & Ha & Hn). exists nd. split; [by apply Hl | done]. Qed.

Lemma first_level_frame s s' p : frame s s' → first_level p s → first_level p s'.
Proof.
  intros [Hl He] (nd & e & Hp & Hn & Hle).
  destruct (He p nd e Hp Hn) as (nd' & e' & Hp' & Hn' & Ha & _).
  exists nd', e'. split; [done|]. split; [done|]. rewrite Ha.
  eapply Forall_impl; [exact Hle|]. intros a. by apply is_leaf_kept.
Qed.

Lemma current_node_same s s' p :
  leaves_kept s s' → heap s' !! p = heap s !! p → current p s → current p s'.
Proof.
  intros Hl Hp (nd & e & vals & Hnd & He & Hv & Hval).
  exists nd, e, vals. rewrite Hp. eauto using input_values_kept.
Qed.

Lemma flagged_node_same s s' p :
  heap s' !! p = heap s !! p → flagged p s → flagged p s'.
Proof. intros Hp (nd & Hnd & Hd). exists nd. by rewrite Hp. Qed.

Lemma kf_trans p s s1 s2 : kf p s s1 → kf p s1 s2 → kf p s s2.
Proof.
  intros [F1 K1] [F2 K2]. split; [by eapply frame_trans|].
  intros Hfl. destruct (K1 Hfl) as [Hc1 Hf1].
  destruct (K2 (first_level_frame _ _ _ F1 Hfl)) as [Hc2 Hf2]. auto.
Qed.

Lemma kf_node_same p s s' :
  frame s s' → heap s' !! p = heap s !! p → kf p s s'.
Proof.
  intros F Hp. split; [done|]. intros _. split.
  - apply current_node_same; [apply F | done].
  - intros [Hc|Hf]; [left | right].
    + apply (current_node_same s s'); [apply F | done..].
    + by apply (flagged_node_same s s').
Qed.

Lemma kf_same_heap p s s' : heap s' = heap s → kf p s s'.
Proof. intros Hh. apply kf_node_same; [by apply frame_same_heap | by rewrite Hh]. Qed.

Lemma kf_current p s s' :
  frame s s' → current p s' → kf p s s'.
Proof. intros F Hc. split; [done|]. intros _. split; [done|]. by left. Qed.

Lemma for_each_kf p (f : addr → M T unit) (l : list addr) :
  (∀ r s u s', f r s = Ok (u, s') → kf p s s') →
  ∀ s u s', for_each f l s = Ok (u, s') → kf p s s'.
Proof.
  intros Hf. induction l as [|r l IH]; intros s u s' H; simpl in H.
  - injection H as _ <-. by apply kf_same_heap.
  - apply bind_Ok in H as (u1 & s1 & H1 & H2). eauto using kf_trans.
Qed.

Lemma read_all_kf p (g : addr → M T T) (l : list addr) :
  (∀ r s v s', g r s = Ok (v, s') → kf p s s') →
  ∀ s vs s', read_all g l s = Ok (vs, s') → kf p s s'.
Proof.
  intros Hg. induction l as [|r l IH]; intros s vs s' H; simpl in H.
  - injection H as _ <-. by apply kf_same_heap.
  - apply bind_Ok in H as (v1 & s1 & H1 & H).
    apply bind_Ok in H as (vs1 & s2 & H2 & H). injection H as _ <-.
    eauto using kf_trans.
Qed.

Lemma dispatch_kf p (g : addr → M T T) p' e s v s' :
  (∀ r s v s', g r s = Ok (v, s') → kf p s s') →
  dispatch g p' e s = Ok (v, s') → kf p s s'.
Proof.
  intros Hg H. apply dispatch_inv in H as (vals & s1 & H1 & -> & _).
  eapply kf_trans; [by eapply read_all_kf|]. by apply kf_same_heap.
Qed.

Lemma set_body_kf_other p (upd : addr → M T unit) p' v s u s' :
  (∀ r s u s', upd r s = Ok (u, s') → kf p s s') →
  p' ≠ p → is_expr s p' →
  set_body ne eq upd p' v s = Ok (u, s') → kf p s s'.
Proof.
  intros Hupd Hne (nd0 & e & Hp0 & He) H. apply set_body_inv in H as (nd & Hp & H).
  assert (nd0 = nd) as -> by congruence.
  destruct (different_with ne eq nd v).
  - eapply kf_trans; [|by eapply for_each_kf].
    apply kf_node_same; [by apply (frame_write_value p' nd e v)|].
    simpl. by rewrite lookup_insert_ne.
  - subst s'. by apply kf_same_heap.
Qed.

(** One recomputation of an expression whose inputs are value nodes:
    [dispatch] and the [set] of its result leave it current. *)
Lemma recompute_current p k e nd s w s1 s2 :
  (∀ r s u s', update ne eq k r s = Ok (u, s') → kf p s s') →
  heap s !! p = Some nd → m_expr nd = Some e →
  Forall (is_leaf s) (m_arguments e) →
  dispatch (get ne eq k) p e s = Ok (w, s1) →
  set_body ne eq (update ne eq k) p w s1 = Ok (tt, s2) →
  current p s2 ∧ frame s s2.
Proof using ne_sound eq_sound.
  intros IHu Hp He Hle H1 H2.
  apply dispatch_inv in H1 as (vals & s1' & H1 & -> & ->).
  apply read_leaves_inv in H1 as (Hh & _ & Hv); [|done].
  apply set_body_inv in H2 as (nd1 & Hp1 & H2). simpl in Hp1.
  rewrite Hh in Hp1. assert (nd1 = nd) as -> by congruence.
  destruct (different_with ne eq nd (m_function e vals)) eqn:Hdiff.
  - set (st := stored p (m_function e vals) nd
                 (mkState (heap s1') (owners s1') (log s1' ++ [EvCall p vals]))) in *.
    assert (frame s st) as F.
    { apply (frame_write_value p nd e (m_function e vals)); [done..|].
      simpl. by rewrite Hh. }
    assert (current p st) as Hc.
    { exists (with_value (m_function e vals) nd), e, vals.
      split; [apply lookup_insert_eq|]. split; [done|].
      split; [|done]. apply (input_values_kept s); [apply F | done]. }
    eapply for_each_kf in H2; [|exact IHu]. destruct H2 as [F2 K2].
    split; [|by eapply frame_trans].
    apply K2; [|done]. apply (first_level_frame s); [done|]. by exists nd, e.
  - subst s2. split; [|by apply frame_same_heap].
    exists nd, e, vals. simpl. rewrite Hh. split; [done|]. split; [done|].
    split; [|by apply not_different_same].
    apply (input_values_kept s); [|done]. by intros q ndq.
Qed.

(** Every run of [get] and of [update] keeps the frame and keeps [p]. *)
Lemma run_kf p fuel :
  (∀ p' s v s', get ne eq fuel p' s = Ok (v, s') → kf p s s') ∧
  (∀ p' s u s', update ne eq fuel p' s = Ok (u, s') → kf p s s').
Proof using ne_sound eq_sound.
  induction fuel as [|k [IHg IHu]]; [by split|].
  split; intros p' s r s' H.
  - pose proof (proj1 (run_frame ne eq (S k)) p' s r s' H) as Fall.
    simpl in H.
    apply get_body_inv in H as (nd & Hp & [(_ & -> & _)|H]).
    { by apply kf_same_heap. }
    destruct H as (e & w & s1 & s2 & nd2 & He & Hd & H1 & H2 & Hp2 & -> & _).
    destruct (decide (p' = p)) as [->|Hne].
    + split; [done|]. intros (nd0 & e0 & Hp0 & He0 & Hle).
      assert (nd0 = nd) as -> by congruence.
      assert (e0 = e) as -> by congruence.
      destruct (recompute_current p k e nd (entered_get p s) w s1 s2 IHu Hp He Hle H1 H2)
        as [(nd2' & e2 & vals & Hp2' & He2 & Hv & Hval) F2].
      assert (nd2' = nd2) as -> by congruence.
      assert (current p
                (mkState (<[p := with_dirty false nd2]> (heap s2)) (owners s2) (log s2)))
        as Hc.
      { exists (with_dirty false nd2),
          (mkExpr (m_eval_policy e2) (m_function e2) (m_arguments e2) false), vals.
        split; [apply lookup_insert_eq|].
        split; [unfold with_dirty; simpl; by rewrite He2|].
        split; [|done]. apply (input_values_kept s2); [|done].
        by apply (frame_write_dirty p nd2 e2 false). }
      split; [done | by left].
    + assert (kf p s s1) as K1.
      { eapply kf_trans; [|by eapply dispatch_kf]. by apply kf_same_heap. }
      assert (kf p s1 s2) as K2.
      { eapply set_body_kf_other; [exact IHu|done| |done].
        apply (is_expr_frame s s1); [apply K1 | by exists nd, e]. }
      destruct (proj2 (proj1 (kf_trans _ _ _ _ K1 K2)) p' nd e Hp He)
        as (nd2' & e2 & Hp2' & He2 & _).
      assert (nd2' = nd2) as -> by congruence.
      eapply kf_trans; [by eapply kf_trans|].
      apply kf_node_same; [by apply (frame_write_dirty p' nd2 e2 false)|].
      simpl. by rewrite lookup_insert_ne.
  - pose proof (proj2 (run_frame ne eq (S k)) p' s r s' H) as Fall.
    simpl in H.
    apply update_body_inv in H as (nd & Hp & H).
    destruct (m_expr nd) as [e|] eqn:He; [|subst s'; by apply kf_same_heap].
    destruct (m_eval_policy e).
    + destruct H as (w & s1 & H1 & H2).
      destruct (decide (p' = p)) as [->|Hne].
      * split; [done|]. intros (nd0 & e0 & Hp0 & He0 & Hle).
        assert (nd0 = nd) as -> by congruence.
        assert (e0 = e) as -> by congruence. destruct r.
        destruct (recompute_current p k e nd (entered_update p s) w s1 s' IHu
                    Hp He Hle H1 H2) as [Hc _].
        split; [done | by left].
      * assert (kf p s s1) as K1.
        { eapply kf_trans; [|by eapply dispatch_kf]. by apply kf_same_heap. }
        eapply kf_trans; [done|].
        eapply set_body_kf_other; [exact IHu|done| |done].
        apply (is_expr_frame s s1); [apply K1 | by exists nd, e].
    + subst s'. destruct (decide (p' = p)) as [->|Hne].
      * split; [done|]. intros _. split.
        -- intros (nd0 & e0 & vals & Hp0 & He0 & Hv & Hval).
           assert (nd0 = nd) as -> by congruence.
           exists (with_dirty true nd),
             (mkExpr (m_eval_policy e0) (m_function e0) (m_arguments e0) true), vals.
           split; [apply lookup_insert_eq|].
           split; [unfold with_dirty; simpl; by rewrite He0|].
           split; [|done]. apply (input_values_kept s); [apply Fall | done].
        -- intros _. right. exists (with_dirty true nd).
           split; [apply lookup_insert_eq|].
           unfold is_dirty, with_dirty; simpl. by rewrite He.
      * apply kf_node_same; [done|]. simpl. by rewrite lookup_insert_ne.
    + subst s'. by apply kf_same_heap.
Qed.

Lemma input_values_fun s args vals vals' :
  input_values s args vals → input_values s args vals' → vals = vals'.
Proof.
  intros H. revert vals'.
  induction H as [|a v args vals (nd & Ha & _ & Hv) _ IH]; intros vals' H';
    inversion H' as [|? v' ? vals'' (nd' & Ha' & _ & Hv') Hrest]; subst; [done|].
  f_equal; [congruence | by apply IH].
Qed.

(** A read of an expression over value nodes that is current or flagged
    leaves it current and clean, and returns the cached value. *)
Lemma get_first_level p fuel s v s' :
  first_level p s → current_or_flagged p s →
  get ne eq fuel p s = Ok (v, s') →
  ∃ nd e vals, heap s' !! p = Some nd ∧ m_expr nd = Some e ∧ m_dirty e = false ∧
               input_values s' (m_arguments e) vals ∧
               m_value nd = m_function e vals ∧ v = m_value nd.
Proof using ne_sound eq_sound.
  intros Hfl Hcof H.
  destruct (proj1 (run_kf p fuel) p s v s' H) as [F K].
  destruct (K Hfl) as [_ Hk]. specialize (Hk Hcof).
  destruct (get_post ne eq _ _ _ _ _ H) as (nd' & Hp' & -> & Hd').
  destruct Hk as [(nd & e & vals & Hp & He & Hv & Hval)|(nd & Hp & Hd)].
  - assert (nd = nd') as -> by congruence.
    exists nd', e, vals. unfold is_dirty in Hd'. rewrite He in Hd'. done.
  - assert (nd = nd') as -> by congruence. congruence.
Qed.

(** A notification of an expression over value nodes, whatever state it
    finds it in, leaves it current under [Instant] and flagged under
    [Lazy]. *)
Lemma update_first_level p fuel s nd e u s' :
  heap s !! p = Some nd → m_expr nd = Some e →
  Forall (is_leaf s) (m_arguments e) →
  m_eval_policy e ≠ BindingEvalPolicy.Count →
  update ne eq fuel p s = Ok (u, s') →
  current_or_flagged p s'.
Proof using ne_sound eq_sound.
  intros Hp He Hle Hpol H. destruct fuel as [|k]; [done|]. simpl in H.
  apply update_body_inv in H as (nd0 & Hp0 & H).
  assert (nd0 = nd) as -> by congruence. rewrite He in H.
  destruct (m_eval_policy e); [| |done].
  - destruct H as (w & s1 & H1 & H2). destruct u. left.
    eapply (recompute_current p k e nd (entered_update p s)); try done.
    intros r. apply run_kf.
  - subst s'. right. exists (with_dirty true nd).
    split; [apply lookup_insert_eq|].
    unfold is_dirty, with_dirty; simpl. by rewrite He.
Qed.

Lemma listening_update p fuel r s u s' :
  update ne eq fuel r s = Ok (u, s') → listening p s → listening p s'.
Proof.
  intros H (nd & e & Hp & He & Hle & Hpol).
  pose proof (proj2 (run_frame ne eq fuel) r s u s' H) as F.
  apply update_evolves in H as [t E].
  destruct (ev_shape _ _ _ E p nd Hp) as (nd' & Hp' & _ & _ & Hs).
  rewrite He in Hs. destruct (m_expr nd') as [e'|] eqn:He'; [|done].
  destruct Hs as (Hpol' & _ & Ha).
  exists nd', e'. split; [done|]. split; [done|]. split; [|congruence].
  rewrite Ha. eapply Forall_impl; [exact Hle|].
  intros a. apply is_leaf_kept, F.
Qed.

(** The notification loop: if [p] is among the subscribers walked, or was
    current or flagged to begin with, it is current or flagged at the end. *)
Lemma notify_first_level p fuel l s u s' :
  for_each (update ne eq fuel) l s = Ok (u, s') →
  listening p s →
  current_or_flagged p s ∨ p ∈ l →
  current_or_flagged p s'.
Proof using ne_sound eq_sound.
  revert s. induction l as [|r l IH]; intros s H Hlis Hor; simpl in H.
  - injection H as _ <-. destruct Hor as [?|Hin]; [done|]. by apply elem_of_nil in Hin.
  - apply bind_Ok in H as (u1 & s1 & H1 & H2).
    apply (IH s1 H2); [by eapply listening_update|].
    destruct Hor as [Hcof|Hin].
    + left. destruct (proj2 (run_kf p fuel) r s u1 s1 H1) as [_ K].
      apply K; [|done]. destruct Hlis as (nd & e & ? & ? & ? & _). by exists nd, e.
    + apply elem_of_cons in Hin as [->|Hin]; [|by right].
      left. destruct Hlis as (nd & e & Hp & He & Hle & Hpol).
      by eapply update_first_level.
Qed.

(** X4.  Memoised reads are right: an expression all of whose inputs are
    value nodes, whose dirty flag is set or whose cached value is its
    function applied to the inputs' values, returns from [get()] its function
    applied to the values the inputs hold; afterwards that value is cached
    and the flag is clear. *)
Theorem get_returns_function_of_inputs fuel p s nd e vals v s' :
  heap s !! p = Some nd → m_expr nd = Some e →
  input_values s (m_arguments e) vals →
  m_dirty e = true ∨ m_value nd = m_function e vals →
  get ne eq fuel p s = Ok (v, s') →
  v = m_function e vals ∧
  input_values s' (m_arguments e) vals ∧
  ∃ nd' e', heap s' !! p = Some nd' ∧ m_expr nd' = Some e' ∧
            m_value nd' = v ∧ m_dirty e' = false.
Proof using ne_sound eq_sound.
  intros Hp He Hv Hor H.
  assert (Forall (is_leaf s) (m_arguments e)) as Hle.
  { clear -Hv. induction Hv as [|a v args vals (nda & ? & ? & _) _ IH]; constructor;
      [by exists nda | done]. }
  assert (first_level p s) as Hfl by (by exists nd, e).
  assert (current_or_flagged p s) as Hcof.
  { destruct Hor as [Hd|Hval].
    - right. exists nd. split; [done|]. unfold is_dirty. by rewrite He.
    - left. by exists nd, e, vals. }
  destruct (get_first_level p fuel s v s' Hfl Hcof H)
    as (nd' & e' & vals' & Hp' & He' & Hd' & Hv' & Hval' & ->).
  destruct (proj1 (run_frame ne eq fuel) p s _ s' H) as [Hl Hex].
  destruct (Hex p nd e Hp He) as (nd'' & e'' & Hp'' & He'' & Ha & Hf).
  assert (nd'' = nd') as -> by congruence.
  assert (e'' = e') as -> by congruence.
  rewrite Ha in Hv'. rewrite Hf in Hval'.
  assert (vals' = vals) as ->.
  { apply (input_values_fun s (m_arguments e)); [|done].
    by apply (input_values_back s s'). }
  split; [done|]. split; [done|]. by exists nd', e'.
Qed.

(** A write to a value node, seen from an expression over value nodes that
    is subscribed to it whenever it is among its inputs: when [set] returns
    the node holds the value, and the expression is current or flagged. *)
Lemma set_leaf_listening fuel a nda v p nd e s s1 :
  heap s !! a = Some nda → m_expr nda = None →
  heap s !! p = Some nd → m_expr nd = Some e →
  Forall (is_leaf s) (m_arguments e) →
  m_eval_policy e ≠ BindingEvalPolicy.Count →
  (a ∈ m_arguments e → p ∈ m_refs nda) →
  current_or_flagged p s →
  set ne eq fuel a v s = Ok (tt, s1) →
  (∃ nda1, heap s1 !! a = Some nda1 ∧ m_expr nda1 = None ∧ m_value nda1 = v) ∧
  listening p s1 ∧ current_or_flagged p s1.
Proof using ne_sound eq_sound.
  intros Ha Hna Hp He Hle Hpol Hsub Hcof Hset.
  assert (p ≠ a) as Hpa by (intros ->; congruence).
  assert (listening p s) as Hlis by (by exists nd, e).
  apply set_body_inv in Hset as (nda0 & Ha0 & Hset).
  assert (nda0 = nda) as -> by congruence.
  destruct (different_with ne eq nda v) eqn:Hdiff.
  - set (st := stored a v nda s) in *.
    assert (heap st !! a = Some (with_value v nda)) as Hast by apply lookup_insert_eq.
    assert (heap st !! p = Some nd) as Hpst.
    { simpl. by rewrite lookup_insert_ne. }
    assert (∀ q, is_leaf s q → is_leaf st q) as Hleaf.
    { intros q (ndq & Hq & Hnq). destruct (decide (q = a)) as [->|Hqa].
      - by exists (with_value v nda).
      - exists ndq. simpl. by rewrite lookup_insert_ne. }
    assert (listening p st) as Hlisst.
    { exists nd, e. split; [done|]. split; [done|]. split; [|done].
      eapply Forall_impl; [exact Hle | exact Hleaf]. }
    pose proof (for_each_frame _ _ (λ r, proj2 (run_frame ne eq fuel) r) _ _ _ Hset)
      as F.
    split; [|split].
    + exists (with_value v nda). split; [by apply F | done].
    + clear -Hset Hlisst. revert Hset Hlisst. generalize st.
      induction (m_refs nda) as [|r l IH]; intros s0 H Hl; simpl in H.
      * by injection H as <-.
      * apply bind_Ok in H as (u1 & s1' & H1 & H2).
        apply (IH s1' H2). by eapply listening_update.
    + apply (notify_first_level p fuel (m_refs nda) st tt s1 Hset Hlisst).
      destruct (decide (a ∈ m_arguments e)) as [Hin|Hnin]; [right; auto|].
      left. destruct Hcof as [(nd0 & e0 & vals & Hp0 & He0 & Hv & Hval)|(nd0 & Hp0 & Hd)].
      * left. assert (nd0 = nd) as -> by congruence.
        assert (e0 = e) as -> by congruence.
        exists nd, e, vals. split; [done|]. split; [done|]. split; [|done].
        clear -Hv Hnin. induction Hv as [|a' v' args vals (nda' & Ha' & ? & ?) _ IH];
          [constructor|].
        apply not_elem_of_cons in Hnin as [Hne' Hnin].
        constructor; [|by apply IH].
        exists nda'. simpl. by rewrite lookup_insert_ne.
      * right. exists nd0. assert (nd0 = nd) as -> by congruence. done.
  - subst s1. split; [|split].
    + exists nda. split; [done|]. split; [done|]. by apply not_different_same.
    + exists nd, e. done.
    + destruct Hcof as [(nd0 & e0 & vals & ?)|(nd0 & ?)]; [left | right].
      * by exists nd0, e0, vals.
      * by exists nd0.
Qed.

End FirstLevel.

(** ** Construction and destruction *)

Section Construction.
Context {T : Type}.
Variable ne : T → T → bool.
Variable eq : T → T → bool.
Variable T0 : T.

Implicit Types (s : State T) (nd : Node T) (e : ExprPart T) (p q a : addr)
  (t : list (Event T)).

Lemma bind_eq {A B} (c : M T A) (k : A → M T B) s (x : A) s1 :
  c s = Ok (x, s1) → bind c k s = k x s1.
Proof. intros H. unfold bind. by rewrite H. Qed.

Lemma occurrences_nil a : occurrences a [] = 0.
Proof. done. Qed.

Lemma occurrences_cons_eq a l : occurrences a (a :: l) = S (occurrences a l).
Proof. unfold occurrences. by rewrite filter_cons_True. Qed.

Lemma occurrences_cons_ne a b l : b ≠ a → occurrences a (b :: l) = occurrences a l.
Proof. intros H. unfold occurrences. by rewrite filter_cons_False. Qed.

Lemma occurrences_absent a l : a ∉ l → occurrences a l = 0.
Proof.
  induction l as [|b l IH]; [done|]. intros [Hne Hl]%not_elem_of_cons.
  rewrite occurrences_cons_ne by done. by apply IH.
Qed.

Lemma remove_this_app this (l1 l2 : list addr) :
  remove_this this (l1 ++ l2) = remove_this this l1 ++ remove_this this l2.
Proof. apply filter_app. Qed.

Lemma remove_this_replicate this n : remove_this this (replicate n this) = [].
Proof.
  induction n as [|n IH]; [done|]. simpl. unfold remove_this in *.
  by rewrite filter_cons_False by (intros H; by apply H).
Qed.

(** Registering and then removing [this] gives back a list that did not hold
    it. *)
Lemma install_then_remove this n (refs : list addr) :
  this ∉ refs → remove_this this (refs ++ replicate n this) = refs.
Proof.
  intros H. rewrite remove_this_app, remove_this_replicate, app_nil_r.
  by apply remove_this_absent.
Qed.

(** [process_refs<true, 0>] appends [this] to the subscribers of each object
    once per occurrence among the inputs. *)
Lemma process_refs_install this args s u s' :
  process_refs true this args s = Ok (u, s') →
  ∀ q nd, heap s !! q = Some nd →
    heap s' !! q
      = Some (with_refs (m_refs nd ++ replicate (occurrences q args) this) nd).
Proof.
  revert s. induction args as [|b args IH]; intros s H q nd Hq; simpl in H.
  - injection H as _ <-. rewrite Hq, app_nil_r. by destruct nd.
  - apply bind_Ok in H as (? & s1 & H1 & H2).
    apply modify_Ok in H1 as (ndb & Hb & ->).
    destruct (decide (b = q)) as [->|Hne].
    + assert (ndb = nd) as -> by congruence.
      rewrite (IH _ H2 q (with_refs (m_refs nd ++ [this]) nd))
        by apply lookup_insert_eq.
      rewrite occurrences_cons_eq. simpl. by rewrite <- app_assoc.
    + rewrite (IH _ H2 q nd) by (simpl; by rewrite lookup_insert_ne).
      by rewrite occurrences_cons_ne.
Qed.

(** [process_refs<false, 0>], object by object. *)
Lemma process_refs_uninstall_exact this args s u s' :
  process_refs false this args s = Ok (u, s') →
  ∀ q nd, heap s !! q = Some nd →
    heap s' !! q
      = Some (if decide (q ∈ args) then with_refs (remove_this this (m_refs nd)) nd
              else nd).
Proof.
  revert s. induction args as [|b args IH]; intros s H q nd Hq; simpl in H.
  - injection H as _ <-. rewrite Hq. by rewrite decide_False by apply not_elem_of_nil.
  - apply bind_Ok in H as (? & s1 & H1 & H2).
    apply modify_Ok in H1 as (ndb & Hb & ->).
    destruct (decide (b = q)) as [->|Hne].
    + assert (ndb = nd) as -> by congruence.
      rewrite (IH _ H2 q (with_refs (remove_this this (m_refs nd)) nd))
        by apply lookup_insert_eq.
      rewrite (decide_True (P := q ∈ q :: args)) by (apply elem_of_cons; auto).
      destruct (decide (q ∈ args)); [|done].
      simpl. by rewrite remove_this_idemp.
    + rewrite (IH _ H2 q nd) by (simpl; by rewrite lookup_insert_ne).
      destruct (decide (q ∈ args)) as [Hin|Hnin].
      * rewrite decide_True; [done|]. apply elem_of_cons. auto.
      * rewrite decide_False; [done|]. intros [?|?]%elem_of_cons; done.
Qed.

(** Copying the handles: one more owner per occurrence. *)
Lemma retain_count l s u s' :
  for_each (retain (T:=T)) l s = Ok (u, s') →
  ∀ q, owners s' !! q = (λ c, c + occurrences q l) <$> owners s !! q.
Proof.
  revert s. induction l as [|a l IH]; intros s H q; simpl in H.
  - injection H as _ <-. destruct (owners s !! q); simpl; [|done].
    by rewrite Nat.add_0_r.
  - apply bind_Ok in H as (? & s1 & H1 & H2). rewrite (IH _ H2 q).
    unfold retain in H1. destruct (owners s !! a) as [c|] eqn:Ha; [|done].
    injection H1 as _ <-. simpl. destruct (decide (a = q)) as [->|Hne].
    + rewrite lookup_insert_eq, Ha, occurrences_cons_eq. simpl. f_equal. lia.
    + rewrite lookup_insert_ne by done. by rewrite occurrences_cons_ne.
Qed.

Lemma retain_total l s :
  (∀ a, a ∈ l → is_Some (owners s !! a)) →
  ∃ s', for_each (retain (T:=T)) l s = Ok (tt, s').
Proof.
  revert s. induction l as [|a l IH]; intros s Hl; simpl; [by eexists|].
  destruct (Hl a) as [c Hc]; [apply elem_of_cons; auto|].
  destruct (IH (mkState (heap s) (<[a := S c]> (owners s)) (log s))) as [s' Hs'].
  { intros b Hb. simpl. destruct (decide (a = b)) as [->|Hne].
    - rewrite lookup_insert_eq. eauto.
    - rewrite lookup_insert_ne by done. apply Hl, elem_of_cons. auto. }
  exists s'. unfold bind, retain. by rewrite Hc.
Qed.

(** Releasing handles to objects that have owners to spare only lowers
    their counts. *)
Lemma release_spare k l s :
  (∀ q, q ∈ l → ∃ c, owners s !! q = Some c ∧ occurrences q l < c) →
  ∃ s', for_each (release (T:=T) (S k)) l s = Ok (tt, s') ∧
        heap s' = heap s ∧ log s' = log s ∧
        ∀ q, owners s' !! q = (λ c, c - occurrences q l) <$> owners s !! q.
Proof.
  revert s. induction l as [|a l IH]; intros s Hl.
  - exists s. repeat split. intros q. destruct (owners s !! q); simpl; [|done].
    by rewrite Nat.sub_0_r.
  - destruct (Hl a) as (c & Hc & Hlt); [apply elem_of_cons; auto|].
    rewrite occurrences_cons_eq in Hlt.
    destruct c as [|[|c]]; [lia..|].
    set (s1 := mkState (heap s) (<[a := S c]> (owners s)) (log s)).
    assert (release (T:=T) (S k) a s = Ok (tt, s1)) as Hrel.
    { cbn [release]. by rewrite Hc. }
    destruct (IH s1) as (s' & Hs' & Hh & Hlog & Hown).
    { intros q Hq. simpl. destruct (decide (a = q)) as [->|Hne].
      - rewrite lookup_insert_eq. exists (S c). split; [done | lia].
      - rewrite lookup_insert_ne by done.
        destruct (Hl q) as (cq & Hcq & Hltq); [apply elem_of_cons; auto|].
        rewrite occurrences_cons_ne in Hltq by done. eauto. }
    exists s'. split; [|split; [done|split; [done|]]].
    + cbn [for_each]. by rewrite (bind_eq _ _ _ _ _ Hrel).
    + intros q. rewrite Hown. simpl. destruct (decide (a = q)) as [->|Hne].
      * rewrite lookup_insert_eq, Hc, occurrences_cons_eq. done.
      * rewrite lookup_insert_ne by done. by rewrite occurrences_cons_ne.
Qed.

(** The constructor, step by step. *)
Lemma new_expr_steps fuel function arguments s p s' :
  new_expr ne eq T0 fuel function arguments s = Ok (p, s') →
  p = fresh (dom (heap s)) ∧
  ∃ s2 s4,
    for_each (retain (T:=T)) arguments
      (mkState (<[p := mkNode T0 BindingCompPolicy.NotEqual []
                         (Some (mkExpr BindingEvalPolicy.Instant function arguments false))]>
                  (heap s))
               (<[p := 1]> (owners s)) (log s)) = Ok (tt, s2) ∧
    process_refs true p arguments
      (mkState (<[p := mkNode T0 BindingCompPolicy.NotEqual []
                         (Some (mkExpr BindingEvalPolicy.Instant function arguments true))]>
                  (heap s2))
               (owners s2) (log s2)) = Ok (tt, s4) ∧
    update ne eq fuel p s4 = Ok (tt, s').
Proof.
  unfold new_expr. intros H.
  apply bind_Ok in H as (p' & s1 & H1 & H).
  apply bind_Ok in H as ([] & s2 & H2 & H).
  apply bind_Ok in H as (nd & ? & Hd & H). apply deref_Ok in Hd as [Hp ->].
  apply bind_Ok in H as ([] & s3 & H3 & H).
  apply bind_Ok in H as ([] & s4 & H4 & H).
  apply bind_Ok in H as ([] & s5 & H5 & H). injection H as -> ->.
  unfold alloc in H1. injection H1 as <- <-. split; [done|].
  exists s2, s4. split; [done|]. split; [|done].
  destruct (retain_all _ _ _ _ H2) as [Hh2 _]. simpl in Hh2.
  rewrite Hh2, lookup_insert_eq in Hp. injection Hp as <-.
  apply modify_Ok in H3 as (nd3 & Hp3 & ->).
  rewrite Hh2, lookup_insert_eq in Hp3. injection Hp3 as <-.
  simpl in H4. rewrite <- H4. f_equal.
Qed.

Lemma process_refs_alive Install this args s u s' :
  process_refs Install this args s = Ok (u, s') →
  ∀ a, a ∈ args → is_Some (heap s !! a).
Proof.
  revert s. induction args as [|b args IH]; intros s H a Ha; simpl in H.
  - by apply elem_of_nil in Ha.
  - apply bind_Ok in H as (? & s1 & H1 & H2).
    assert (∃ f, modify b f s = Ok (x, s1)) as [f Hm].
    { destruct Install; eexists; exact H1. }
    apply modify_Ok in Hm as (ndb & Hb & ->).
    apply elem_of_cons in Ha as [->|Ha]; [eauto|].
    destruct (IH _ H2 a Ha) as [nda Hnda]. simpl in Hnda.
    destruct (decide (b = a)) as [->|Hne]; [eauto|].
    rewrite lookup_insert_ne in Hnda by done. eauto.
Qed.

(** What the constructor has built when it hands over to its closing
    [update()]. *)
Lemma new_expr_wired fuel function arguments s p s' :
  new_expr ne eq T0 fuel function arguments s = Ok (p, s') →
  (∀ a, a ∈ arguments → is_Some (heap s !! a)) →
  heap s !! p = None ∧ p ∉ arguments ∧
  ∃ s4,
    update ne eq fuel p s4 = Ok (tt, s') ∧
    log s4 = log s ∧
    heap s4 !! p = Some (mkNode T0 BindingCompPolicy.NotEqual []
                           (Some (mkExpr BindingEvalPolicy.Instant function arguments true))) ∧
    (∀ q, q ≠ p → heap s !! q = None → heap s4 !! q = None) ∧
    (∀ q nd, heap s !! q = Some nd →
       heap s4 !! q
         = Some (with_refs (m_refs nd ++ replicate (occurrences q arguments) p) nd)) ∧
    owners s4 !! p = Some 1 ∧
    (∀ q, q ≠ p →
       owners s4 !! q = (λ c, c + occurrences q arguments) <$> owners s !! q).
Proof.
  intros H Halive. apply new_expr_steps in H as (Hfresh & s2 & s4 & H2 & H4 & H5).
  assert (heap s !! p = None) as Hp.
  { rewrite Hfresh. apply not_elem_of_dom, is_fresh. }
  assert (p ∉ arguments) as Hnotin.
  { intros Hin. destruct (Halive p Hin) as [? ?]. congruence. }
  split; [done|]. split; [done|]. exists s4. split; [done|].
  destruct (retain_all _ _ _ _ H2) as [Hh2 Hl2]. simpl in Hh2, Hl2.
  pose proof (retain_count _ _ _ _ H2) as Ho2. simpl in Ho2.
  pose proof (process_refs_rewired _ _ _ _ _ _ H4) as R4.
  pose proof (process_refs_owners _ _ _ _ _ _ H4) as O4. simpl in O4.
  pose proof (process_refs_install _ _ _ _ _ H4) as I4. simpl in I4.
  split; [by rewrite (rw_log _ _ R4)|]. split; [|split; [|split; [|split]]].
  - rewrite (I4 p _ (lookup_insert_eq _ _ _)).
    rewrite (occurrences_absent p arguments Hnotin). done.
  - intros q Hq Hdead. apply (rw_dead _ _ R4). simpl.
    rewrite lookup_insert_ne by done. rewrite Hh2. by rewrite lookup_insert_ne.
  - intros q nd Hq. apply I4.
    assert (p ≠ q) by congruence.
    rewrite lookup_insert_ne by done. rewrite Hh2. by rewrite lookup_insert_ne.
  - rewrite O4, Ho2, lookup_insert_eq. simpl.
    by rewrite (occurrences_absent p arguments Hnotin).
  - intros q Hq. rewrite O4, Ho2. by rewrite lookup_insert_ne.
Qed.

(** X6.  Construction registers the new expression with its inputs, and
    nothing else: every object that was there has afterwards the subscriber
    list it had, with the new node appended once per occurrence among the
    inputs; the new node has one owner, and every other count has grown by
    the number of occurrences. *)
Theorem construction_registers_per_occurrence fuel function arguments s p s' :
  new_expr ne eq T0 fuel function arguments s = Ok (p, s') →
  (∀ a, a ∈ arguments → is_Some (heap s !! a)) →
  heap s !! p = None ∧
  (∀ q nd, heap s !! q = Some nd →
     ∃ nd', heap s' !! q = Some nd' ∧
            m_refs nd' = m_refs nd ++ replicate (occurrences q arguments) p) ∧
  (∀ q, q ≠ p → heap s !! q = None → heap s' !! q = None) ∧
  owners s' !! p = Some 1 ∧
  (∀ q, q ≠ p →
     owners s' !! q = (λ c, c + occurrences q arguments) <$> owners s !! q).
Proof.
  intros H Halive.
  destruct (new_expr_wired _ _ _ _ _ _ H Halive)
    as (Hp & _ & s4 & Hupd & _ & _ & Hdead & Hrefs & Hop & Hown).
  apply update_evolves in Hupd as [t E].
  split; [done|]. split; [|split; [|split]].
  - intros q nd Hq.
    destruct (ev_shape _ _ _ E q _ (Hrefs q nd Hq)) as (nd' & Hq' & Hr & _).
    exists nd'. split; [done|]. by rewrite Hr.
  - intros q Hq Hd. apply (ev_dead _ _ _ E). by apply Hdead.
  - by rewrite (ev_owners _ _ _ E).
  - intros q Hq. rewrite (ev_owners _ _ _ E). by apply Hown.
Qed.

(** X7.  Constructing an expression and then destroying it is a round trip
    for the rest of the graph: provided every input had an owner and no
    stale entry for the new address was around, releasing the only handle
    returns, the node is gone, every other object has the subscriber list it
    had before the construction, every value node is exactly what it was, and
    every ownership count is back. *)
Theorem construct_then_destroy fuel k function arguments s p s1 :
  new_expr ne eq T0 fuel function arguments s = Ok (p, s1) →
  (∀ a, a ∈ arguments → is_Some (heap s !! a)) →
  (∀ a, a ∈ arguments → ∃ c, owners s !! a = Some (S c)) →
  (∀ q nd, heap s !! q = Some nd → p ∉ m_refs nd) →
  ∃ s2,
    release (S (S k)) p s1 = Ok (tt, s2) ∧
    heap s2 !! p = None ∧
    (∀ q, heap s !! q = None → heap s2 !! q = None) ∧
    (∀ q nd, heap s !! q = Some nd →
       ∃ nd2, heap s2 !! q = Some nd2 ∧ m_refs nd2 = m_refs nd) ∧
    (∀ q nd, heap s !! q = Some nd → m_expr nd = None → heap s2 !! q = Some nd) ∧
    (∀ q, q ≠ p → owners s2 !! q = owners s !! q).
Proof.
  intros H Halive Howned Hstale.
  destruct (new_expr_wired _ _ _ _ _ _ H Halive)
    as (Hp & Hnotin & s4 & Hupd & _ & Hp4 & Hdead4 & Hrefs4 & Hop4 & Hown4).
  pose proof (proj2 (run_frame ne eq fuel) p s4 tt s1 Hupd) as [Hleaves _].
  apply update_evolves in Hupd as [t E].
  destruct (ev_shape _ _ _ E p _ Hp4) as (ndp & Hp1 & _ & _ & Hs). simpl in Hs.
  destruct (m_expr ndp) as [e1|] eqn:He1; [|done]. destruct Hs as (_ & _ & Hargs).
  assert (∀ a, a ∈ arguments → is_Some (heap s1 !! a)) as Halive1.
  { intros a Ha. destruct (Halive a Ha) as [nda Hnda].
    destruct (ev_shape _ _ _ E a _ (Hrefs4 a nda Hnda)) as (nda1 & ? & _). eauto. }
  destruct (process_refs_total false p arguments s1 Halive1) as [s5 H5].
  pose proof (process_refs_rewired _ _ _ _ _ _ H5) as R5.
  pose proof (process_refs_owners _ _ _ _ _ _ H5) as O5.
  pose proof (process_refs_uninstall_exact _ _ _ _ _ H5) as U5.
  assert (∀ q, q ≠ p →
            owners s5 !! q = (λ c, c + occurrences q arguments) <$> owners s !! q)
    as Hown5.
  { intros q Hq. rewrite O5, (ev_owners _ _ _ E). by apply Hown4. }
  destruct (release_spare k arguments s5) as (s6 & H6 & Hh6 & _ & Hown6).
  { intros q Hq. destruct (Howned q Hq) as (c & Hc).
    assert (q ≠ p) as Hqp by (intros ->; done).
    exists (S c + occurrences q arguments). rewrite (Hown5 q Hqp), Hc. split; [done|lia]. }
  exists (mkState (delete p (heap s6)) (delete p (owners s6)) (log s6)).
  split; [|split; [|split; [|split; [|split]]]].
  - cbn [release]. rewrite (ev_owners _ _ _ E), Hop4.
    unfold bind at 1, deref. rewrite Hp1, He1, Hargs.
    rewrite (bind_eq _ _ _ _ _ H5). by rewrite (bind_eq _ _ _ _ _ H6).
  - apply lookup_delete_eq.
  - intros q Hq. simpl. destruct (decide (p = q)) as [->|Hne].
    + apply lookup_delete_eq.
    + rewrite lookup_delete_ne by done. rewrite Hh6.
      apply (rw_dead _ _ R5), (ev_dead _ _ _ E), Hdead4; done.
  - intros q nd Hq. assert (p ≠ q) as Hne by congruence.
    destruct (ev_shape _ _ _ E q _ (Hrefs4 q nd Hq)) as (nd1 & Hq1 & Hr1 & _).
    simpl in Hr1. simpl. rewrite lookup_delete_ne by done.
    rewrite Hh6, (U5 q nd1 Hq1). eexists. split; [done|].
    destruct (decide (q ∈ arguments)) as [Hin|Hnin]; simpl; rewrite Hr1.
    + apply install_then_remove. by eapply Hstale.
    + rewrite (occurrences_absent q arguments Hnin). apply app_nil_r.
  - intros q nd Hq Hleaf. assert (p ≠ q) as Hne by congruence.
    simpl. rewrite lookup_delete_ne by done. rewrite Hh6.
    rewrite (U5 q _ (Hleaves q _ (Hrefs4 q nd Hq) Hleaf)). f_equal.
    destruct (decide (q ∈ arguments)) as [Hin|Hnin].
    + unfold with_refs; simpl. rewrite install_then_remove by (by eapply Hstale).
      by destruct nd.
    + rewrite (occurrences_absent q arguments Hnin). unfold with_refs; simpl.
      rewrite app_nil_r. by destruct nd.
  - intros q Hq. simpl. rewrite lookup_delete_ne by done.
    rewrite Hown6, (Hown5 q Hq). destruct (owners s !! q); simpl; [|done].
    f_equal. lia.
Qed.

End Construction.

(** ** Graphs of depth one *)

Section Shallow.
Context {T : Type}.
Variable ne : T → T → bool.
Variable eq : T → T → bool.
Variable T0 : T.

Implicit Types (s : State T) (nd : Node T) (e : ExprPart T) (p q a : addr)
  (t : list (Event T)).

Lemma bind_emit {B} (ev : Event T) (k : unit → M T B) s :
  bind (emit ev) k s = k tt (mkState (heap s) (owners s) (log s ++ [ev])).
Proof. done. Qed.

Lemma bind_deref {B} p (k : Node T → M T B) s nd :
  heap s !! p = Some nd → bind (deref p) k s = k nd s.
Proof. intros H. unfold bind, deref. by rewrite H. Qed.

(** A recomputation that nobody listens to: [dispatch] over value nodes and
    the [set] of its result on a node without subscribers.  It returns, and
    the node takes the result exactly when [different_with] says so. *)
Lemma recompute_total k p s nd e vals :
  heap s !! p = Some nd → m_expr nd = Some e → m_refs nd = [] →
  input_values s (m_arguments e) vals →
  ∃ s', (let! v := dispatch (get ne eq (S k)) p e in
         set_body ne eq (update ne eq (S k)) p v) s = Ok (tt, s') ∧
        owners s' = owners s ∧
        heap s' = <[p := if different_with ne eq nd (m_function e vals)
                         then with_value (m_function e vals) nd else nd]> (heap s).
Proof.
  intros Hp He Hrefs Hv.
  assert (Forall (is_leaf s) (m_arguments e)) as Hle.
  { clear -Hv. induction Hv as [|a v args vals (nda & ? & ? & _) _ IH]; constructor;
      [by exists nda | done]. }
  destruct (read_leaves_total ne eq k (m_arguments e) s Hle)
    as (vals' & s1 & Hread & Hh1 & Ho1 & Hv1).
  assert (vals' = vals) as -> by (by eapply input_values_fun).
  unfold dispatch. unfold bind at 1. unfold bind at 1. rewrite Hread.
  rewrite bind_emit. unfold ret at 1.
  unfold set_body. rewrite bind_emit.
  rewrite (bind_deref p _ _ nd) by (simpl; by rewrite Hh1).
  destruct (different_with ne eq nd (m_function e vals)) eqn:Hdiff.
  - unfold bind at 1, modify. simpl. rewrite Hh1, Hp, Hrefs. simpl.
    eexists. split; [done|]. simpl. by rewrite Ho1.
  - eexists. split; [done|]. simpl. split; [by rewrite Ho1|]. rewrite Hh1.
    symmetry. by apply insert_id.
Qed.

(** A notification of an expression over value nodes that has no subscribers
    always returns, with nothing changed but the expression itself. *)
Lemma update_shallow_total k p s nd e vals :
  heap s !! p = Some nd → m_expr nd = Some e → m_refs nd = [] →
  input_values s (m_arguments e) vals →
  ∃ s', update ne eq (S (S k)) p s = Ok (tt, s') ∧
        owners s' = owners s ∧
        ∃ nd', heap s' = <[p := nd']> (heap s) ∧
               m_refs nd' = [] ∧ m_comp_policy nd' = m_comp_policy nd ∧
               (∃ e', m_expr nd' = Some e' ∧ m_arguments e' = m_arguments e ∧
                      m_function e' = m_function e ∧
                      m_eval_policy e' = m_eval_policy e) ∧
               (m_eval_policy e = BindingEvalPolicy.Instant →
                nd' = if different_with ne eq nd (m_function e vals)
                      then with_value (m_function e vals) nd else nd).
Proof.
  intros Hp He Hrefs Hv. cbn [update]. unfold update_body.
  rewrite bind_emit. rewrite (bind_deref p _ _ nd) by done. rewrite He.
  destruct (m_eval_policy e) eqn:Hpol.
  - destruct (recompute_total k p (entered_update p s) nd e vals Hp He Hrefs Hv)
      as (s' & Hrun & Ho & Hh).
    exists s'. split; [exact Hrun|]. split; [done|].
    eexists. split; [exact Hh|].
    destruct (different_with ne eq nd (m_function e vals));
      (split; [done|]; split; [done|]; split; [by exists e | done]).
  - unfold modify. simpl. rewrite Hp. eexists. split; [done|]. split; [done|].
    exists (with_dirty true nd). split; [done|]. split; [done|]. split; [done|].
    split; [|done]. unfold with_dirty; simpl. rewrite He. eexists. done.
  - eexists. split; [done|]. split; [done|]. exists nd. simpl.
    split; [symmetry; by apply insert_id|]. split; [done|]. split; [done|].
    split; [by exists e | done].
Qed.

Lemma bind_modify {B} p (f : Node T → Node T) (k : unit → M T B) s nd :
  heap s !! p = Some nd →
  bind (modify p f) k s = k tt (mkState (<[p := f nd]> (heap s)) (owners s) (log s)).
Proof. intros H. unfold bind, modify. by rewrite H. Qed.

Lemma leaf_values_exist s args :
  Forall (is_leaf s) args → ∃ vals, input_values s args vals.
Proof.
  induction 1 as [|a args (nd & Ha & Hn) _ [vals IH]]; [by exists []; constructor|].
  exists (m_value nd :: vals). constructor; [by exists nd | done].
Qed.

Lemma notify_shallow_total k l s :
  Forall (shallow s) l →
  ∃ s', for_each (update ne eq (S (S k))) l s = Ok (tt, s').
Proof.
  revert s. induction l as [|r l IH]; intros s Hl; [by eexists|].
  apply Forall_cons in Hl as [(nd & e & Hr & He & Hrefs & Hle) Hl].
  destruct (leaf_values_exist s _ Hle) as [vals Hv].
  destruct (update_shallow_total k r s nd e vals Hr He Hrefs Hv)
    as (s1 & Hupd & _ & nd' & Hh & Hrefs' & _ & (e' & He' & Ha' & _) & _).
  assert (∀ x, is_leaf s x → is_leaf s1 x) as Hleaf.
  { intros x (ndx & Hx & Hnx). exists ndx. split; [|done].
    rewrite Hh. rewrite lookup_insert_ne; [done|]. intros <-. congruence. }
  destruct (IH s1) as [s' Hs'].
  { eapply Forall_impl; [exact Hl|]. intros r' (nd1 & e1 & Hr1 & He1 & Hrefs1 & Hle1).
    destruct (decide (r = r')) as [<-|Hne].
    - exists nd', e'. rewrite Hh, lookup_insert_eq.
      assert (nd1 = nd) as -> by congruence.
      assert (e1 = e) as -> by congruence.
      split; [done|]. split; [done|]. split; [done|]. rewrite Ha'.
      eapply Forall_impl; [exact Hle1 | exact Hleaf].
    - exists nd1, e1. rewrite Hh, lookup_insert_ne by done.
      split; [done|]. split; [done|]. split; [done|].
      eapply Forall_impl; [exact Hle1 | exact Hleaf]. }
  exists s'. cbn [for_each]. by rewrite (bind_eq _ _ _ _ _ Hupd).
Qed.

(** X8.  Constructing an expression over value nodes always returns, with a
    budget of two.  The new node has the default policies, no subscribers
    and its dirty flag set; its cached value is its function applied to the
    values of its inputs if [T{} != ] that value holds and the untouched
    [T{}] otherwise, hence the function value whenever [!=] is false on
    equal values only; the inputs hold the values they held. *)
Theorem new_expr_over_leaves k function arguments s vals :
  input_values s arguments vals →
  (∀ a, a ∈ arguments → is_Some (owners s !! a)) →
  ∃ p s',
    new_expr ne eq T0 (S (S k)) function arguments s = Ok (p, s') ∧
    heap s !! p = None ∧
    heap s' !! p
      = Some (mkNode (if ne T0 (function vals) then function vals else T0)
                BindingCompPolicy.NotEqual []
                (Some (mkExpr BindingEvalPolicy.Instant function arguments true))) ∧
    input_values s' arguments vals ∧
    ((∀ x y, ne x y = false → x = y) →
     heap s' !! p
       = Some (mkNode (function vals) BindingCompPolicy.NotEqual []
                 (Some (mkExpr BindingEvalPolicy.Instant function arguments true)))).
Proof.
  intros Hv Hown.
  set (p := fresh (dom (heap s))).
  assert (heap s !! p = None) as Hfresh by apply not_elem_of_dom, is_fresh.
  assert (∀ a, a ∈ arguments → ∃ nda, heap s !! a = Some nda ∧ a ≠ p) as Halive.
  { clear -Hv Hfresh. induction Hv as [|a v args vals (nda & Ha & _) _ IH];
      intros b Hb; [by apply elem_of_nil in Hb|].
    apply elem_of_cons in Hb as [->|Hb]; [|by apply IH].
    exists nda. split; [done|]. intros ->. congruence. }
  set (nd0 := mkNode T0 BindingCompPolicy.NotEqual []
                (Some (mkExpr BindingEvalPolicy.Instant function arguments false))).
  set (ndp := mkNode T0 BindingCompPolicy.NotEqual []
                (Some (mkExpr BindingEvalPolicy.Instant function arguments true))).
  set (st1 := mkState (<[p := nd0]> (heap s)) (<[p := 1]> (owners s)) (log s)).
  destruct (retain_total arguments st1) as [s2 Hret].
  { intros a Ha. simpl. destruct (decide (p = a)) as [->|Hne].
    - rewrite lookup_insert_eq. eauto.
    - rewrite lookup_insert_ne by done. by apply Hown. }
  destruct (retain_all _ _ _ _ Hret) as [Hh2 _]. simpl in Hh2.
  set (st3 := mkState (<[p := ndp]> (heap s2)) (owners s2) (log s2)).
  assert (∀ q nd, heap s !! q = Some nd → heap st3 !! q = Some nd) as Hst3.
  { intros q nd Hq. assert (p ≠ q) by (intros ->; congruence). simpl.
    rewrite lookup_insert_ne by done. rewrite Hh2. by rewrite lookup_insert_ne. }
  destruct (process_refs_total true p arguments st3) as [s4 H4].
  { intros a Ha. destruct (Halive a Ha) as (nda & Hnda & _). eauto. }
  pose proof (process_refs_install _ _ _ _ _ H4) as I4.
  assert (p ∉ arguments) as Hnotin.
  { intros Hin. by destruct (Halive p Hin) as (? & _ & ?). }
  assert (heap s4 !! p = Some ndp) as Hp4.
  { rewrite (I4 p ndp) by apply lookup_insert_eq.
    by rewrite (occurrences_absent p arguments Hnotin). }
  assert (input_values s4 arguments vals) as Hv4.
  { eapply Forall2_impl; [exact Hv|]. intros a v (nda & Ha & Hn & Hval).
    eexists. split; [apply I4, Hst3, Ha|]. done. }
  destruct (update_shallow_total k p s4 ndp _ vals Hp4 eq_refl eq_refl Hv4)
    as (s5 & Hupd & _ & nd' & Hh5 & _ & _ & _ & Hnd').
  specialize (Hnd' eq_refl). unfold different_with in Hnd'. simpl in Hnd'.
  assert (heap s5 !! p
          = Some (mkNode (if ne T0 (function vals) then function vals else T0)
                    BindingCompPolicy.NotEqual []
                    (Some (mkExpr BindingEvalPolicy.Instant function arguments true))))
    as Hp5.
  { rewrite Hh5, lookup_insert_eq, Hnd'. by destruct (ne T0 (function vals)). }
  exists p, s5. split; [|split; [done|split; [done|split]]].
  - unfold new_expr.
    rewrite (bind_eq _ _ s p st1) by done.
    rewrite (bind_eq _ _ _ _ _ Hret).
    rewrite (bind_deref p _ s2 nd0) by (rewrite Hh2; apply lookup_insert_eq).
    rewrite (bind_modify p _ _ s2 nd0) by (rewrite Hh2; apply lookup_insert_eq).
    change (mkState _ (owners s2) (log s2)) with st3.
    rewrite (bind_eq _ _ _ _ _ H4). by rewrite (bind_eq _ _ _ _ _ Hupd).
  - eapply Forall2_impl; [exact Hv4|]. intros a v (nda & Ha & Hn & Hval).
    exists nda. split; [|done]. rewrite Hh5.
    rewrite lookup_insert_ne; [done|]. intros <-.
    rewrite Hp4 in Ha. injection Ha as <-. discriminate Hn.
  - intros Hsound. rewrite Hp5.
    destruct (ne T0 (function vals)) eqn:Hne; [done|].
    by rewrite (Hsound _ _ Hne).
Qed.

(** X9.  In a graph of depth one a write always returns, with a budget of
    two: [set] on a value node all of whose subscribers are expressions over
    value nodes, without subscribers of their own, runs to its end, whatever
    their policies.  Afterwards the node has the subscribers it had and
    holds the value written if [different_with] judged it different and its
    old value otherwise, hence the value written whenever the comparison
    operators agree with equality. *)
Theorem set_depth_one_returns k a nda v s :
  heap s !! a = Some nda → m_expr nda = None →
  Forall (shallow s) (m_refs nda) →
  ∃ s', set ne eq (S (S k)) a v s = Ok (tt, s') ∧
        ∃ nda', heap s' !! a = Some nda' ∧
                m_value nda' = (if different_with ne eq nda v
                                then v else m_value nda) ∧
                m_refs nda' = m_refs nda ∧
                ((∀ x y, ne x y = false → x = y) →
                 (∀ x y, eq x y = true → x = y) →
                 m_value nda' = v).
Proof.
  intros Ha Hn Hsh. rewrite (set_unfold ne eq _ a v s nda Ha).
  destruct (different_with ne eq nda v) eqn:Hdiff.
  - destruct (notify_shallow_total k (m_refs nda) (stored a v nda s)) as [s' Hs'].
    { eapply Forall_impl; [exact Hsh|]. intros r (nd & e & Hr & He & Hrefs & Hle).
      assert (a ≠ r) by (intros ->; congruence).
      exists nd, e. unfold is_leaf, stored. simpl. rewrite lookup_insert_ne by done.
      split; [done|]. split; [done|]. split; [done|].
      eapply Forall_impl; [exact Hle|]. intros x (ndx & Hx & Hnx).
      destruct (decide (a = x)) as [<-|Hne].
      - exists (with_value v nda). split; [apply lookup_insert_eq | done].
      - exists ndx. by rewrite lookup_insert_ne. }
    exists s'. split; [done|]. exists (with_value v nda).
    split; [|done].
    eapply for_each_frame in Hs'; [|intros r; apply run_frame].
    apply Hs'; [apply lookup_insert_eq | done].
  - exists (entered_set a v s). split; [done|]. exists nda.
    split; [done|]. split; [done|]. split; [done|].
    intros Hne Heq. by apply (not_different_same ne eq Hne Heq).
Qed.

(** A read of an expression over value nodes that has no subscribers always
    returns, with a budget of two. *)
Lemma get_shallow_total k p s nd e :
  heap s !! p = Some nd → m_expr nd = Some e → m_refs nd = [] →
  Forall (is_leaf s) (m_arguments e) →
  ∃ v s', get ne eq (S (S k)) p s = Ok (v, s').
Proof.
  intros Hp He Hrefs Hle. destruct (leaf_values_exist s _ Hle) as [vals Hv].
  change (get ne eq (S (S k)) p s)
    with (get_body ne eq (get ne eq (S k)) (update ne eq (S k)) p s).
  unfold get_body. rewrite bind_emit. rewrite (bind_deref p _ _ nd) by done.
  rewrite He. destruct (m_dirty e).
  - destruct (recompute_total k p (entered_get p s) nd e vals Hp He Hrefs Hv)
      as (s' & Hrun & _ & Hh).
    apply bind_Ok in Hrun as (w & s1 & Hd & Hs).
    fold (entered_get p s).
    unfold bind at 1. rewrite (bind_eq _ _ _ _ _ Hd).
    rewrite (bind_eq _ _ _ _ _ Hs).
    unfold modify, base_get, bind, deref, ret. rewrite Hh, lookup_insert_eq. simpl.
    rewrite lookup_insert_eq. eauto.
  - unfold bind at 1, ret at 1, base_get. rewrite (bind_deref p _ _ nd) by done.
    eauto.
Qed.

End Shallow.

(** ** A write followed by a read *)

Section WriteThenRead.
Context {T : Type}.
Variable ne : T → T → bool.
Variable eq : T → T → bool.
Hypothesis ne_sound : ∀ x y, ne x y = false → x = y.
Hypothesis eq_sound : ∀ x y, eq x y = true → x = y.

Implicit Types (s : State T) (nd : Node T) (e : ExprPart T) (p q a : addr).

(** X5.  A write is seen by the next read: after [a.set(v)] has returned on
    a value node, [a] holds [v] and every other value node is what it was;
    for an expression over value nodes that is subscribed to [a] whenever
    [a] is among its inputs, under [Instant] or [Lazy] policy, every
    [get()] that returns yields its function applied to the values the
    inputs hold after the write, and if the expression has no subscribers
    of its own [get()] does return, with a budget of two. *)
Theorem set_then_get_sees_the_write fuel a nda v p nd e s s1 :
  heap s !! a = Some nda → m_expr nda = None →
  heap s !! p = Some nd → m_expr nd = Some e →
  Forall (is_leaf s) (m_arguments e) →
  m_eval_policy e ≠ BindingEvalPolicy.Count →
  (a ∈ m_arguments e → p ∈ m_refs nda) →
  current_or_flagged p s →
  set ne eq fuel a v s = Ok (tt, s1) →
  (∃ nda1, heap s1 !! a = Some nda1 ∧ m_expr nda1 = None ∧ m_value nda1 = v) ∧
  (∀ q ndq, q ≠ a → heap s !! q = Some ndq → m_expr ndq = None →
     heap s1 !! q = Some ndq) ∧
  ∃ vals, input_values s1 (m_arguments e) vals ∧
          (∀ fuel' r s2, get ne eq fuel' p s1 = Ok (r, s2) →
                         r = m_function e vals) ∧
          (m_refs nd = [] →
           ∀ k, ∃ s2, get ne eq (S (S k)) p s1 = Ok (m_function e vals, s2)).
Proof using ne_sound eq_sound.
  intros Ha Hna Hp He Hle Hpol Hsub Hcof Hset.
  destruct (set_leaf_listening ne eq ne_sound eq_sound fuel a nda v p nd e s s1
              Ha Hna Hp He Hle Hpol Hsub Hcof Hset) as (Hres & Hlis1 & Hcof1).
  split; [done|]. split.
  { intros q ndq Hq Hqs Hnq. by eapply set_keeps_other_leaves. }
  destruct Hlis1 as (nd1 & e1 & Hp1 & He1 & Hle1 & _).
  assert (first_level p s1) as Hfl1 by (by exists nd1, e1).
  pose proof Hset as Hset'. apply set_evolves in Hset' as [t E].
  destruct (ev_shape _ _ _ E p nd Hp) as (nd1' & Hp1' & Hrefs1 & _ & Hs).
  assert (nd1' = nd1) as -> by congruence. rewrite He, He1 in Hs.
  destruct Hs as (_ & Hf1 & Ha1).
  destruct (leaf_values_exist s1 _ Hle1) as [vals Hv1].
  assert (∀ fuel' r s2, get ne eq fuel' p s1 = Ok (r, s2) → r = m_function e vals)
    as Hpart.
  { intros fuel' r s2 Hget.
    destruct (get_first_level ne eq ne_sound eq_sound p fuel' s1 r s2 Hfl1 Hcof1 Hget)
      as (nd2 & e2 & vals2 & Hp2 & He2 & _ & Hv2 & Hval2 & ->).
    destruct (proj1 (run_frame ne eq fuel') p s1 _ s2 Hget) as [Hl Hex].
    destruct (Hex p nd1 e1 Hp1 He1) as (nd2' & e2' & Hp2' & He2' & Ha2 & Hf2).
    assert (nd2' = nd2) as -> by congruence.
    assert (e2' = e2) as -> by congruence.
    assert (vals2 = vals) as ->.
    { apply (input_values_fun s1 (m_arguments e1)); [|done].
      apply (input_values_back s1 s2); [done|done|]. by rewrite <- Ha2. }
    rewrite Hval2. congruence. }
  exists vals. split; [by rewrite <- Ha1|]. split; [exact Hpart|].
  intros Hrefs k.
  destruct (get_shallow_total ne eq k p s1 nd1 e1 Hp1 He1) as (r & s2 & Hget);
    [congruence | done |].
  exists s2. by rewrite <- (Hpart _ _ _ Hget).
Qed.

End WriteThenRead.

(** ** A read that never returns *)

Section Feedback.
Context {T : Type}.
Variable ne : T → T → bool.
Variable eq : T → T → bool.
Variable T0 : T.

Implicit Types (s : State T) (nd : Node T) (p q a x : addr)
  (t : list (Event T)).

Lemma feeds_back_heap x e s s' :
  heap s' = heap s → feeds_back x e s → feeds_back x e s'.
Proof.
  intros Hh (ndx & ex & nde & ee & rest & others & H).
  exists ndx, ex, nde, ee, rest, others. unfold is_leaf. by rewrite Hh.
Qed.

Lemma feeds_back_store x e s s' ndx w :
  feeds_back x e s → heap s !! x = Some ndx →
  heap s' = <[x := with_value w ndx]> (heap s) →
  feeds_back x e s'.
Proof.
  intros (ndx0 & ex & nde & ee & rest & others & Hx & Hex & Hd & Hpol & Hrefs &
          Hle & He & Hee & Hinst & Hargs) Hx' Hh.
  assert (ndx0 = ndx) as -> by congruence.
  assert (e ≠ x) as Hne.
  { intros ->. assert (nde = ndx) as -> by congruence.
    assert (ee = ex) as -> by congruence. rewrite Hargs in Hle.
    apply Forall_cons in Hle as [(nd & ? & ?) _]. congruence. }
  exists (with_value w ndx), ex, nde, ee, rest, others. rewrite Hh.
  rewrite lookup_insert_eq, lookup_insert_ne by done.
  repeat split; try done.
  eapply Forall_impl; [exact Hle|]. intros a (nda & Ha & Hn).
  exists nda. rewrite Hh. rewrite lookup_insert_ne; [done|]. intros <-. congruence.
Qed.

(** Reading value nodes either runs out of budget or returns with the heap
    as it was. *)
Lemma read_leaves_outcome k args s :
  Forall (is_leaf s) args →
  read_all (get ne eq k) args s = OutOfFuel ∨
  ∃ vals s1, read_all (get ne eq k) args s = Ok (vals, s1) ∧ heap s1 = heap s.
Proof.
  intros Hle. destruct k as [|k].
  - destruct args as [|a args]; [right; by exists [], s | left; done].
  - right. destruct (read_leaves_total ne eq k args s Hle) as (vals & s1 & H & Hh & _).
    eauto.
Qed.

Lemma feeds_back_out_of_fuel x e fuel :
  ∀ s, feeds_back x e s →
       get ne eq fuel x s = OutOfFuel ∧ update ne eq fuel e s = OutOfFuel.
Proof.
  induction fuel as [fuel IH] using lt_wf_ind. intros s Hfb.
  destruct fuel as [|k]; [done|].
  pose proof Hfb as (ndx & ex & nde & ee & rest & others & Hx & Hex & Hd & Hpol &
                     Hrefs & Hle & He & Hee & Hinst & Hargs).
  split.
  - change (get ne eq (S k) x s)
      with (get_body ne eq (get ne eq k) (update ne eq k) x s).
    unfold get_body. rewrite bind_emit.
    rewrite (bind_deref x _ _ ndx) by done. rewrite Hex, Hd.
    unfold bind at 1. unfold bind at 1. unfold dispatch. unfold bind at 1.
    destruct (read_leaves_outcome k (m_arguments ex)
                (mkState (heap s) (owners s) (log s ++ [EvGet x])) Hle)
      as [->|(vals & s1 & -> & Hh1)]; [done|].
    rewrite bind_emit. unfold ret at 1. unfold bind at 1. unfold set_body.
    rewrite bind_emit.
    rewrite (bind_deref x _ _ ndx) by (simpl; by rewrite Hh1).
    unfold different_with. rewrite Hpol.
    rewrite (bind_modify x _ _ _ ndx) by (simpl; by rewrite Hh1).
    rewrite Hrefs. cbn [for_each]. unfold bind at 1.
    match goal with |- context [update ne eq k e ?st] =>
      rewrite (proj2 (IH k (Nat.lt_succ_diag_r _) st
                        (feeds_back_store x e s st ndx (m_function ex vals) Hfb Hx
                           ltac:(simpl; by rewrite Hh1))))
    end.
    done.
  - change (update ne eq (S k) e s)
      with (update_body ne eq (get ne eq k) (update ne eq k) e s).
    unfold update_body. rewrite bind_emit.
    rewrite (bind_deref e _ _ nde) by done. rewrite Hee, Hinst.
    unfold bind at 1. unfold dispatch. unfold bind at 1. rewrite Hargs.
    cbn [read_all]. unfold bind at 1.
    rewrite (proj1 (IH k (Nat.lt_succ_diag_r _)
                      (mkState (heap s) (owners s) (log s ++ [EvUpdate e]))
                      (feeds_back_heap x e s _ eq_refl Hfb))).
    done.
Qed.

(** X10.  A read that never returns although the graph has no cycle: if an
    expression over value nodes has its dirty flag set and policy [Always],
    and its first subscriber is an [Instant] expression whose first input it
    is, then [get()] on it, and [update()] on the subscriber, exhaust every
    budget: [set] notifies the subscriber before the flag is cleared, and
    the subscriber reads the expression again. *)
Theorem dirty_always_read_never_returns x e s fuel :
  feeds_back x e s →
  get ne eq fuel x s = OutOfFuel ∧ update ne eq fuel e s = OutOfFuel.
Proof. intros H. by apply feeds_back_out_of_fuel. Qed.

End Feedback.

(** ** Calls follow the edges of the graph *)

Section Edges.
Context {T : Type}.
Variable ne : T → T → bool.
Variable eq : T → T → bool.

Implicit Types (s : State T) (nd : Node T) (e : ExprPart T) (p q a : addr)
  (t : list (Event T)).

Lemma evolves_shape_kept t s s' : evolves t s s' → shape_kept s s'.
Proof. intros E. split; apply E. Qed.

Lemma shape_kept_back s s' q nd' :
  shape_kept s s' → heap s' !! q = Some nd' →
  ∃ nd, heap s !! q = Some nd ∧ same_shape nd nd'.
Proof.
  intros [Hdead Hlive] Hq'. destruct (heap s !! q) as [nd|] eqn:Hq.
  - destruct (Hlive q nd Hq) as (nd2 & Hq2 & Hs). exists nd.
    split; [done|]. congruence.
  - rewrite (Hdead q Hq) in Hq'. done.
Qed.

Lemma same_shape_expr nd nd' e :
  same_shape nd nd' → m_expr nd = Some e →
  ∃ e', m_expr nd' = Some e' ∧ m_arguments e' = m_arguments e.
Proof.
  intros (_ & _ & H) He. rewrite He in H.
  destruct (m_expr nd') as [e'|]; [|done]. exists e'. by destruct H as (_ & _ & ->).
Qed.

Lemma same_shape_expr_back nd nd' e' :
  same_shape nd nd' → m_expr nd' = Some e' →
  ∃ e, m_expr nd = Some e ∧ m_arguments e = m_arguments e'.
Proof.
  intros (_ & _ & H) He. rewrite He in H.
  destruct (m_expr nd) as [e|]; [|done]. exists e. by destruct H as (_ & _ & ->).
Qed.

Lemma shape_kept_same_graph s s' : shape_kept s s' → same_graph s s'.
Proof.
  intros K q. split; [|split]; split.
  - intros (m & nd & Hm & Hq). destruct (proj2 K m nd Hm) as (nd' & Hm' & Hs).
    exists m, nd'. split; [done|]. by rewrite (proj1 Hs).
  - intros (m & nd' & Hm' & Hq).
    destruct (shape_kept_back s s' m nd' K Hm') as (nd & Hm & Hs).
    exists m, nd. split; [done|]. by rewrite <- (proj1 Hs).
  - intros (m & nd & e & Hm & He & Hq).
    destruct (proj2 K m nd Hm) as (nd' & Hm' & Hs).
    destruct (same_shape_expr nd nd' e Hs He) as (e' & He' & Ha).
    exists m, nd', e'. by rewrite Ha.
  - intros (m & nd' & e' & Hm' & He' & Hq).
    destruct (shape_kept_back s s' m nd' K Hm') as (nd & Hm & Hs).
    destruct (same_shape_expr_back nd nd' e' Hs He') as (e & He & Ha).
    exists m, nd, e. by rewrite Ha.
  - intros (nd & e & Hm & He). destruct (proj2 K q nd Hm) as (nd' & Hm' & Hs).
    destruct (same_shape_expr nd nd' e Hs He) as (e' & He' & _).
    by exists nd', e'.
  - intros (nd' & e' & Hm' & He').
    destruct (shape_kept_back s s' q nd' K Hm') as (nd & Hm & Hs).
    destruct (same_shape_expr_back nd nd' e' Hs He') as (e & He & _).
    by exists nd, e.
Qed.

Lemma evolves_same_graph t s s' : evolves t s s' → same_graph s s'.
Proof. intros E. eapply shape_kept_same_graph, evolves_shape_kept, E. Qed.

Lemma same_graph_heap s s' : heap s' = heap s → same_graph s s'.
Proof.
  intros Hh. apply shape_kept_same_graph. split; intros q; rewrite Hh; [done|].
  intros nd Hq. exists nd. auto using same_shape_refl.
Qed.

Lemma same_graph_sym s s' : same_graph s s' → same_graph s' s.
Proof. intros H q. destruct (H q) as (H1 & H2 & H3). by rewrite H1, H2, H3. Qed.

Lemma same_graph_trans s s1 s2 :
  same_graph s s1 → same_graph s1 s2 → same_graph s s2.
Proof.
  intros H G q. destruct (H q) as (H1 & H2 & H3), (G q) as (G1 & G2 & G3).
  by rewrite H1, H2, H3.
Qed.

Lemma along_edges_graph s s' t :
  same_graph s s' → along_edges s' t → along_edges s t.
Proof.
  intros G H. eapply Forall_impl; [exact H|]. intros ev. destruct (G (target ev)) as (H1 & H2 & H3).
  destruct ev; simpl in *; intros Hev;
    [by apply H2 | by apply H3 | by apply H1 | by apply H3].
Qed.

Lemma walks_refl s : walks [] s s.
Proof. split; [by rewrite app_nil_r | constructor]. Qed.

Lemma walks_trans t1 t2 s s1 s2 :
  walks t1 s s1 → same_graph s s1 → walks t2 s1 s2 → walks (t1 ++ t2) s s2.
Proof.
  intros [Hl1 H1] G [Hl2 H2]. split.
  - rewrite Hl2, Hl1. by rewrite app_assoc.
  - apply Forall_app. split; [done|]. by apply (along_edges_graph s s1).
Qed.

Lemma for_each_walks (upd : addr → M T unit) (l : list addr) :
  (∀ r s u s', upd r s = Ok (u, s') → ∃ t, evolves t s s') →
  (∀ r s u s', upd r s = Ok (u, s') → enters (EvUpdate r) s s') →
  ∀ s u s', Forall (subscribed s) l → for_each upd l s = Ok (u, s') →
            ∃ t, walks t s s'.
Proof.
  intros Hue Huw. induction l as [|r l IH]; intros s u s' Hl H; simpl in H.
  - injection H as _ <-. eauto using walks_refl.
  - apply bind_Ok in H as (u1 & s1 & H1 & H2).
    apply Forall_cons in Hl as [Hr Hl].
    destruct (Hue _ _ _ _ H1) as [t0 E]. apply evolves_same_graph in E.
    destruct (Huw _ _ _ _ H1) as (t1 & Hl1 & W1).
    destruct (IH s1 u s') as [t2 W2]; [|done|].
    { eapply Forall_impl; [exact Hl|]. intros q. apply E. }
    exists ((EvUpdate r :: t1) ++ t2). apply (walks_trans _ _ s s1 s'); [|done..].
    split; [done|]. by constructor.
Qed.

Lemma read_all_walks (g : addr → M T T) (l : list addr) :
  (∀ r s v s', g r s = Ok (v, s') → ∃ t, evolves t s s') →
  (∀ r s v s', g r s = Ok (v, s') → enters (EvGet r) s s') →
  ∀ s vs s', Forall (is_input s) l → read_all g l s = Ok (vs, s') →
             ∃ t, walks t s s'.
Proof.
  intros Hge Hgw. induction l as [|r l IH]; intros s vs s' Hl H; simpl in H.
  - injection H as _ <-. eauto using walks_refl.
  - apply bind_Ok in H as (v1 & s1 & H1 & H).
    apply bind_Ok in H as (vs1 & s2 & H2 & H). injection H as _ <-.
    apply Forall_cons in Hl as [Hr Hl].
    destruct (Hge _ _ _ _ H1) as [t0 E]. apply evolves_same_graph in E.
    destruct (Hgw _ _ _ _ H1) as (t1 & Hl1 & W1).
    destruct (IH s1 vs1 s2) as [t2 W2]; [|done|].
    { eapply Forall_impl; [exact Hl|]. intros q. apply E. }
    exists ((EvGet r :: t1) ++ t2). apply (walks_trans _ _ s s1 s2); [|done..].
    split; [done|]. by constructor.
Qed.

(** [dispatch] on the expression [p]: its reads go to its inputs, and the
    function call is made on [p]. *)
Lemma dispatch_walks (g : addr → M T T) p nd e s0 s v s' :
  (∀ r s v s', g r s = Ok (v, s') → ∃ t, evolves t s s') →
  (∀ r s v s', g r s = Ok (v, s') → enters (EvGet r) s s') →
  heap s !! p = Some nd → m_expr nd = Some e →
  dispatch g p e s = Ok (v, s') → ∃ t, walks t s s'.
Proof.
  intros Hge Hgw Hp He H. apply dispatch_inv in H as (vals & s1 & H1 & -> & _).
  pose proof H1 as H1'.
  eapply read_all_evolves in H1' as [t0 E]; [|done]. apply evolves_same_graph in E.
  eapply read_all_walks in H1 as [t1 W1]; [|done..|].
  - exists (t1 ++ [EvCall p vals]). apply (walks_trans _ _ s s1); [done..|].
    split; [done|]. constructor; [|constructor]. apply E. by exists nd, e.
  - apply Forall_forall. intros a Ha. by exists p, nd, e.
Qed.

Lemma set_body_walks (upd : addr → M T unit) p v s u s' :
  (∀ r s u s', upd r s = Ok (u, s') → ∃ t, evolves t s s') →
  (∀ r s u s', upd r s = Ok (u, s') → enters (EvUpdate r) s s') →
  set_body ne eq upd p v s = Ok (u, s') →
  enters (EvSet p v) s s'.
Proof.
  intros Hue Huw H. apply set_body_inv in H as (nd & Hp & H).
  destruct (different_with ne eq nd v).
  - assert (same_graph s (stored p v nd s)) as G.
    { apply shape_kept_same_graph. split; intros q; simpl.
      - intros Hq. rewrite lookup_insert_ne; [done|]. intros <-. congruence.
      - intros nd0 Hq. destruct (decide (p = q)) as [<-|Hne].
        + rewrite lookup_insert_eq. exists (with_value v nd).
          assert (nd0 = nd) as -> by congruence.
          auto using same_shape_with_value.
        + rewrite lookup_insert_ne by done. exists nd0.
          auto using same_shape_refl. }
    eapply for_each_walks in H as [t [Hl W]]; [|done..|].
    + exists t. split; [rewrite Hl; simpl; by rewrite <- app_assoc|].
      by apply (along_edges_graph s (stored p v nd s)).
    + apply Forall_forall. intros r Hr. exists p, (with_value v nd).
      simpl. by rewrite lookup_insert_eq.
  - subst s'. exists []. split; [done | constructor].
Qed.

Lemma run_walks fuel :
  (∀ p s v s', get ne eq fuel p s = Ok (v, s') → enters (EvGet p) s s') ∧
  (∀ p s u s', update ne eq fuel p s = Ok (u, s') →
               enters (EvUpdate p) s s').
Proof.
  induction fuel as [|k [IHg IHu]]; [by split|].
  assert (∀ r s v s', get ne eq k r s = Ok (v, s') → ∃ t, evolves t s s') as Hge.
  { intros r s v s' H. apply get_evolves in H as [t H]. eauto. }
  assert (∀ r s u s', update ne eq k r s = Ok (u, s') → ∃ t, evolves t s s') as Hue.
  { intros r s u s' H. apply update_evolves in H as [t H]. eauto. }
  assert (∀ p nd e s0 w s1 u s2,
            heap s0 !! p = Some nd → m_expr nd = Some e →
            dispatch (get ne eq k) p e s0 = Ok (w, s1) →
            set_body ne eq (update ne eq k) p w s1 = Ok (u, s2) →
            ∃ t, walks t s0 s2) as Hrec.
  { intros p nd e s0 w s1 u s2 Hp He H1 H2.
    pose proof H1 as H1e. eapply dispatch_evolves in H1e as [t0 E1]; [|done].
    apply evolves_same_graph in E1.
    eapply dispatch_walks in H1 as [t1 W1]; [|done..].
    eapply set_body_walks in H2 as (t2 & Hl2 & W2); [|done..].
    exists (t1 ++ EvSet p w :: t2). apply (walks_trans _ _ s0 s1 s2); [done..|].
    split; [done|]. constructor; [|done]. apply E1. by exists nd, e. }
  split; intros p s r s' H; simpl in H.
  - apply get_body_inv in H as (nd & Hp & [(_ & -> & _)|H]).
    { exists []. split; [done | constructor]. }
    destruct H as (e & w & s1 & s2 & nd2 & He & Hd & H1 & H2 & Hp2 & -> & _).
    destruct (Hrec p nd e (entered_get p s) w s1 tt s2 Hp He H1 H2) as [t [Hl W]].
    exists t. split; [simpl; rewrite Hl; simpl; by rewrite <- app_assoc|].
    apply (along_edges_graph s (entered_get p s)); [by apply same_graph_heap | done].
  - apply update_body_inv in H as (nd & Hp & H).
    destruct (m_expr nd) as [e|] eqn:He;
      [|subst s'; exists []; split; [done | constructor]].
    destruct (m_eval_policy e).
    + destruct H as (w & s1 & H1 & H2).
      destruct (Hrec p nd e (entered_update p s) w s1 r s' Hp He H1 H2) as [t [Hl W]].
      exists t. split; [rewrite Hl; simpl; by rewrite <- app_assoc|].
      apply (along_edges_graph s (entered_update p s));
        [by apply same_graph_heap | done].
    + subst s'. exists []. split; [done | constructor].
    + subst s'. exists []. split; [done | constructor].
Qed.

(** X11.  Every call inside a run follows an edge of the graph as it is when
    the run starts: whatever [get], [set] or [update] is called from outside,
    every [update] it leads to is made on an object that some live object
    lists in [m_refs], every [get] on an input of some live expression, and
    only expressions have [set] called on them or their function called. *)
Theorem calls_follow_edges fuel o s s' :
  run_op ne eq fuel o s = Ok (tt, s') →
  ∃ ev t, log s' = log s ++ ev :: t ∧
          target ev = match o with OpGet p | OpSet p _ | OpUpdate p => p end ∧
          along_edges s t.
Proof.
  intros H. destruct o as [p|p v|p]; simpl in H.
  - apply bind_Ok in H as (w & s1 & H & H0). injection H0 as <-.
    apply run_walks in H as (t & Hl & W). by exists (EvGet p), t.
  - eapply set_body_walks in H as (t & Hl & W).
    + by exists (EvSet p v), t.
    + intros r s0 u s0' H0. apply update_evolves in H0 as [t0 E]. eauto.
    + intros r s0 u s0' H0. by apply run_walks in H0.
  - apply run_walks in H as (t & Hl & W). by exists (EvUpdate p), t.
Qed.

End Edges.

(** ** Writing the same value again *)

Section Idempotence.
Context {T : Type}.
Variable ne : T → T → bool.
Variable eq : T → T → bool.
Hypothesis ne_sound : ∀ x y, ne x y = false → x = y.
Hypothesis eq_sound : ∀ x y, eq x y = true → x = y.
Hypothesis ne_irrefl : ∀ x, ne x x = false.
Hypothesis eq_refl' : ∀ x, eq x x = true.

Implicit Types (s : State T) (nd : Node T) (p q a : addr).

(** A value node holds [v] after [set(v)] has returned, whichever branch
    [set] took, and keeps its policy. *)
Lemma set_leaf_holds fuel a nda v s s1 :
  heap s !! a = Some nda → m_expr nda = None →
  set ne eq fuel a v s = Ok (tt, s1) →
  ∃ nd1, heap s1 !! a = Some nd1 ∧ m_value nd1 = v ∧
         m_comp_policy nd1 = m_comp_policy nda.
Proof using ne_sound eq_sound.
  intros Ha Hn H. apply set_body_inv in H as (nd & Ha' & H).
  assert (nd = nda) as -> by congruence.
  destruct (different_with ne eq nda v) eqn:Hd.
  - eapply for_each_frame in H; [|intros r; apply run_frame].
    exists (with_value v nda). split; [|done].
    apply (proj1 H); [|done]. simpl. apply lookup_insert_eq.
  - subst s1. exists nda. split; [done|]. split; [|done].
    by apply (not_different_same ne eq ne_sound eq_sound).
Qed.

(** X12.  Writing the same value a second time reaches nobody: once
    [a.set(v)] has returned on a value node under [NotEqual] or [Equal],
    another [a.set(v)] returns with nothing but its own entry logged, for
    comparison operators that agree with equality. *)
Theorem set_again_reaches_nobody fuel fuel' a nda v s s1 :
  heap s !! a = Some nda → m_expr nda = None →
  m_comp_policy nda = BindingCompPolicy.NotEqual ∨
  m_comp_policy nda = BindingCompPolicy.Equal →
  set ne eq fuel a v s = Ok (tt, s1) →
  set ne eq fuel' a v s1 = Ok (tt, entered_set a v s1).
Proof using ne_sound eq_sound ne_irrefl eq_refl'.
  intros Ha Hn Hpol H.
  destruct (set_leaf_holds fuel a nda v s s1 Ha Hn H) as (nd1 & Ha1 & Hv & Hp).
  rewrite (set_unfold ne eq fuel' a v s1 nd1 Ha1).
  unfold different_with. rewrite Hp, Hv.
  destruct Hpol as [->| ->]; [by rewrite ne_irrefl | by rewrite eq_refl'].
Qed.

End Idempotence.

(** ** The properties above on the graphs of the demonstration program *)

Lemma int_ne_sound (x y : Z) : IntGraph.int_ne x y = false → x = y.
Proof.
  unfold IntGraph.int_ne. intros H. apply Z.eqb_eq.
  by destruct (x =? y)%Z.
Qed.

Lemma int_eq_sound (x y : Z) : IntGraph.int_eq x y = true → x = y.
Proof. apply Z.eqb_eq. Qed.

Lemma int_ne_irrefl (x : Z) : IntGraph.int_ne x x = false.
Proof. unfold IntGraph.int_ne. by rewrite Z.eqb_refl. Qed.

Lemma leaves_of_sum_state : input_values IntGraph.sum_state [0; 1] [1; 2]%Z.
Proof.
  constructor; [|constructor; [|constructor]].
  - exists IntGraph.node_a. repeat split; vm_compute; reflexivity.
  - exists (mkNode 2%Z BindingCompPolicy.NotEqual [2] None).
    repeat split; vm_compute; reflexivity.
Qed.

Lemma leaves_of_leaves_state : input_values IntGraph.leaves_state [0; 1] [1; 2]%Z.
Proof.
  constructor; [|constructor; [|constructor]].
  - exists (mkNode 1%Z BindingCompPolicy.NotEqual [] None).
    repeat split; vm_compute; reflexivity.
  - exists (mkNode 2%Z BindingCompPolicy.NotEqual [] None).
    repeat split; vm_compute; reflexivity.
Qed.

Lemma calls_keep_structure_witness :
  let ops := [OpSet 0 3%Z; OpGet 2; OpUpdate 2] in
  let s' := IntGraph.state_after (run_ops IntGraph.int_ne IntGraph.int_eq 2 ops)
              IntGraph.sum_state in
  run_ops IntGraph.int_ne IntGraph.int_eq 2 ops IntGraph.sum_state = Ok (tt, s') ∧
  owners s' = owners IntGraph.sum_state ∧
  ∀ q, heap s' !! q = None ↔ heap IntGraph.sum_state !! q = None.
Proof.
  cbv zeta.
  set (ops := [OpSet 0 3%Z; OpGet 2; OpUpdate 2]).
  set (s' := IntGraph.state_after (run_ops IntGraph.int_ne IntGraph.int_eq 2 ops)
               IntGraph.sum_state).
  assert (run_ops IntGraph.int_ne IntGraph.int_eq 2 ops IntGraph.sum_state
          = Ok (tt, s')) as H by (apply Ok_state_after; vm_compute; reflexivity).
  split; [exact H|].
  pose proof (calls_keep_structure IntGraph.int_ne IntGraph.int_eq 2 ops
                IntGraph.sum_state s' H) as W.
  split; [exact (proj1 W) | exact (proj1 (proj2 W))].
Defined.

Lemma calls_change_only_their_targets_witness :
  let t := [EvSet 0 3%Z; EvUpdate 2; EvGet 0; EvGet 1; EvCall 2 [3; 2]%Z;
            EvSet 2 5%Z] in
  let s' := IntGraph.state_after
              (run_ops IntGraph.int_ne IntGraph.int_eq 2 [OpSet 0 3%Z]) spare_state in
  run_ops IntGraph.int_ne IntGraph.int_eq 2 [OpSet 0 3%Z] spare_state = Ok (tt, s') ∧
  log s' = log spare_state ++ t ∧
  untouched 3 t ∧
  heap s' !! 3 = heap spare_state !! 3.
Proof.
  cbv zeta.
  set (t := [EvSet 0 3%Z; EvUpdate 2; EvGet 0; EvGet 1; EvCall 2 [3; 2]%Z;
             EvSet 2 5%Z]).
  set (s' := IntGraph.state_after
               (run_ops IntGraph.int_ne IntGraph.int_eq 2 [OpSet 0 3%Z]) spare_state).
  assert (run_ops IntGraph.int_ne IntGraph.int_eq 2 [OpSet 0 3%Z] spare_state
          = Ok (tt, s')) as H by (apply Ok_state_after; vm_compute; reflexivity).
  assert (log s' = log spare_state ++ t) as Hl by (vm_compute; reflexivity).
  assert (untouched 3 t) as Hu.
  { unfold untouched, t. repeat (constructor; [simpl; lia|]). constructor. }
  split; [exact H|]. split; [exact Hl|]. split; [exact Hu|].
  exact (calls_change_only_their_targets IntGraph.int_ne IntGraph.int_eq 2
           [OpSet 0 3%Z] spare_state s' t 3 H Hl Hu).
Defined.

Lemma only_set_changes_a_leaf_witness :
  let ops := [OpSet 0 3%Z; OpGet 2; OpUpdate 2] in
  let nd := mkNode 2%Z BindingCompPolicy.NotEqual [2] None in
  let s' := IntGraph.state_after (run_ops IntGraph.int_ne IntGraph.int_eq 2 ops)
              IntGraph.sum_state in
  run_ops IntGraph.int_ne IntGraph.int_eq 2 ops IntGraph.sum_state = Ok (tt, s') ∧
  heap IntGraph.sum_state !! 1 = Some nd ∧
  heap s' !! 1 = Some nd.
Proof.
  cbv zeta.
  set (ops := [OpSet 0 3%Z; OpGet 2; OpUpdate 2]).
  set (nd := mkNode 2%Z BindingCompPolicy.NotEqual [2] None).
  set (s' := IntGraph.state_after (run_ops IntGraph.int_ne IntGraph.int_eq 2 ops)
               IntGraph.sum_state).
  assert (run_ops IntGraph.int_ne IntGraph.int_eq 2 ops IntGraph.sum_state
          = Ok (tt, s')) as H by (apply Ok_state_after; vm_compute; reflexivity).
  assert (heap IntGraph.sum_state !! 1 = Some nd) as Hq by (vm_compute; reflexivity).
  assert (∀ v, OpSet 1 v ∉ ops) as Hno.
  { intros v Hin. apply list_elem_of_In in Hin. simpl in Hin.
    intuition discriminate. }
  split; [exact H|]. split; [exact Hq|].
  exact (only_set_changes_a_leaf IntGraph.int_ne IntGraph.int_eq 2 ops
           IntGraph.sum_state s' 1 nd H Hq eq_refl Hno).
Defined.

Lemma get_returns_function_of_inputs_witness :
  let s' := IntGraph.state_after (IntGraph.get 2 2) IntGraph.sum_state in
  IntGraph.get 2 2 IntGraph.sum_state = Ok (3%Z, s') ∧
  3%Z = IntGraph.plus [1; 2]%Z ∧
  input_values s' [0; 1] [1; 2]%Z.
Proof.
  cbv zeta.
  set (s' := IntGraph.state_after (IntGraph.get 2 2) IntGraph.sum_state).
  assert (IntGraph.get 2 2 IntGraph.sum_state = Ok (3%Z, s')) as H
    by (apply Ok_state_after; vm_compute; reflexivity).
  assert (heap IntGraph.sum_state !! 2
          = Some (IntGraph.node_e BindingEvalPolicy.Instant true)) as Hp
    by (vm_compute; reflexivity).
  split; [exact H|].
  pose proof (get_returns_function_of_inputs IntGraph.int_ne IntGraph.int_eq
                int_ne_sound int_eq_sound 2 2 IntGraph.sum_state _ _ [1; 2]%Z 3%Z s'
                Hp eq_refl leaves_of_sum_state (or_introl eq_refl) H) as W.
  split; [exact (proj1 W) | exact (proj1 (proj2 W))].
Defined.

Lemma set_then_get_sees_the_write_witness :
  let s1 := IntGraph.state_after (IntGraph.set 2 0 3%Z) IntGraph.sum_state in
  IntGraph.set 2 0 3%Z IntGraph.sum_state = Ok (tt, s1) ∧
  ∃ vals, input_values s1 [0; 1] vals ∧
          (∀ fuel' r s2, IntGraph.get fuel' 2 s1 = Ok (r, s2) →
                         r = IntGraph.plus vals) ∧
          ∀ k, ∃ s2, IntGraph.get (S (S k)) 2 s1 = Ok (IntGraph.plus vals, s2).
Proof.
  cbv zeta.
  set (s1 := IntGraph.state_after (IntGraph.set 2 0 3%Z) IntGraph.sum_state).
  assert (IntGraph.set 2 0 3%Z IntGraph.sum_state = Ok (tt, s1)) as Hset
    by (apply Ok_state_after; vm_compute; reflexivity).
  assert (heap IntGraph.sum_state !! 0 = Some IntGraph.node_a) as Ha
    by (vm_compute; reflexivity).
  assert (heap IntGraph.sum_state !! 2
          = Some (IntGraph.node_e BindingEvalPolicy.Instant true)) as Hp
    by (vm_compute; reflexivity).
  assert (Forall (is_leaf IntGraph.sum_state) [0; 1]) as Hle.
  { constructor; [|constructor; [|constructor]].
    - exists IntGraph.node_a. split; vm_compute; reflexivity.
    - exists (mkNode 2%Z BindingCompPolicy.NotEqual [2] None).
      split; vm_compute; reflexivity. }
  assert (current_or_flagged 2 IntGraph.sum_state) as Hc.
  { right. exists (IntGraph.node_e BindingEvalPolicy.Instant true).
    split; [exact Hp | reflexivity]. }
  assert (BindingEvalPolicy.Instant ≠ BindingEvalPolicy.Count) as Hpol
    by discriminate.
  assert (0 ∈ [0; 1] → 2 ∈ [2]) as Hsub.
  { intros _. apply list_elem_of_singleton. reflexivity. }
  split; [exact Hset|].
  destruct (set_then_get_sees_the_write IntGraph.int_ne IntGraph.int_eq
              int_ne_sound int_eq_sound 2 0 IntGraph.node_a 3%Z 2
              (IntGraph.node_e BindingEvalPolicy.Instant true) _
              IntGraph.sum_state s1
              Ha eq_refl Hp eq_refl Hle Hpol Hsub Hc Hset)
    as (_ & _ & vals & Hv & Hpart & Htot).
  exists vals. split; [exact Hv|]. split; [exact Hpart | exact (Htot eq_refl)].
Defined.

Lemma construction_registers_per_occurrence_witness :
  let s' := IntGraph.state_after (IntGraph.new_expr 2 IntGraph.plus [0; 0])
              IntGraph.leaves_state in
  IntGraph.new_expr 2 IntGraph.plus [0; 0] IntGraph.leaves_state = Ok (2, s') ∧
  (∀ q nd, heap IntGraph.leaves_state !! q = Some nd →
     ∃ nd', heap s' !! q = Some nd' ∧
            m_refs nd' = m_refs nd ++ replicate (occurrences q [0; 0]) 2) ∧
  owners s' !! 2 = Some 1.
Proof.
  cbv zeta.
  set (s' := IntGraph.state_after (IntGraph.new_expr 2 IntGraph.plus [0; 0])
               IntGraph.leaves_state).
  assert (IntGraph.new_expr 2 IntGraph.plus [0; 0] IntGraph.leaves_state
          = Ok (2, s')) as H by (apply Ok_state_after; vm_compute; reflexivity).
  assert (∀ a, a ∈ [0; 0] → is_Some (heap IntGraph.leaves_state !! a)) as Hal.
  { intros a Ha. apply list_elem_of_In in Ha. simpl in Ha.
    destruct Ha as [<-|[<-|[]]];
      exists (mkNode 1%Z BindingCompPolicy.NotEqual [] None);
      vm_compute; reflexivity. }
  split; [exact H|].
  pose proof (construction_registers_per_occurrence IntGraph.int_ne IntGraph.int_eq
                0%Z 2 IntGraph.plus [0; 0] IntGraph.leaves_state 2 s' H Hal) as W.
  split; [exact (proj1 (proj2 W)) | exact (proj1 (proj2 (proj2 (proj2 W))))].
Defined.

Lemma construct_then_destroy_witness :
  let s1 := IntGraph.state_after (IntGraph.new_expr 2 IntGraph.plus [0; 1])
              IntGraph.leaves_state in
  IntGraph.new_expr 2 IntGraph.plus [0; 1] IntGraph.leaves_state = Ok (2, s1) ∧
  ∃ s2, IntGraph.release 2 2 s1 = Ok (tt, s2) ∧
        heap s2 !! 2 = None ∧
        ∀ q nd, heap IntGraph.leaves_state !! q = Some nd → m_expr nd = None →
                heap s2 !! q = Some nd.
Proof.
  cbv zeta.
  set (s1 := IntGraph.state_after (IntGraph.new_expr 2 IntGraph.plus [0; 1])
               IntGraph.leaves_state).
  assert (IntGraph.new_expr 2 IntGraph.plus [0; 1] IntGraph.leaves_state
          = Ok (2, s1)) as H by (apply Ok_state_after; vm_compute; reflexivity).
  assert (∀ a, a ∈ [0; 1] → is_Some (heap IntGraph.leaves_state !! a)) as Hal.
  { intros a Ha. apply list_elem_of_In in Ha. simpl in Ha.
    destruct Ha as [<-|[<-|[]]]; [exists (mkNode 1%Z BindingCompPolicy.NotEqual [] None)
                                 |exists (mkNode 2%Z BindingCompPolicy.NotEqual [] None)];
      vm_compute; reflexivity. }
  assert (∀ a, a ∈ [0; 1] → ∃ c, owners IntGraph.leaves_state !! a = Some (S c))
    as Hown.
  { intros a Ha. apply list_elem_of_In in Ha. simpl in Ha.
    destruct Ha as [<-|[<-|[]]]; exists 0; vm_compute; reflexivity. }
  assert (map_Forall (λ _ nd, 2 ∉ m_refs nd) (heap IntGraph.leaves_state)) as Hno.
  { intros q nd Hq Hin.
    assert (heap IntGraph.leaves_state
            = <[1 := mkNode 2%Z BindingCompPolicy.NotEqual [] None]>
                (<[0 := mkNode 1%Z BindingCompPolicy.NotEqual [] None]> ∅)) as Hh
      by (vm_compute; reflexivity).
    rewrite Hh in Hq.
    apply lookup_insert_Some in Hq as [[_ <-]|[_ Hq]];
      [by apply elem_of_nil in Hin|].
    apply lookup_insert_Some in Hq as [[_ <-]|[_ Hq]];
      [by apply elem_of_nil in Hin|].
    by rewrite lookup_empty in Hq. }
  split; [exact H|].
  destruct (construct_then_destroy IntGraph.int_ne IntGraph.int_eq 0%Z
              2 0 IntGraph.plus [0; 1] IntGraph.leaves_state 2 s1 H Hal Hown Hno)
    as (s2 & Hrel & Hgone & _ & _ & Hleaves & _).
  exists s2. split; [exact Hrel|]. split; [exact Hgone | exact Hleaves].
Defined.

Lemma new_expr_over_leaves_witness :
  ∃ p s',
    IntGraph.new_expr 2 IntGraph.plus [0; 1] IntGraph.leaves_state = Ok (p, s') ∧
    heap IntGraph.leaves_state !! p = None ∧
    heap s' !! p
      = Some (mkNode 3%Z BindingCompPolicy.NotEqual []
                (Some (mkExpr BindingEvalPolicy.Instant IntGraph.plus [0; 1] true))) ∧
    input_values s' [0; 1] [1; 2]%Z.
Proof.
  destruct (new_expr_over_leaves IntGraph.int_ne IntGraph.int_eq 0%Z
              0 IntGraph.plus [0; 1] IntGraph.leaves_state
              [1; 2]%Z leaves_of_leaves_state)
    as (p & s' & Hnew & Hfresh & Hp & Hv & _).
  { intros a Ha. apply list_elem_of_In in Ha. simpl in Ha.
    destruct Ha as [<-|[<-|[]]]; exists 1; vm_compute; reflexivity. }
  exists p, s'. split; [exact Hnew|]. split; [exact Hfresh|].
  split; [exact Hp | exact Hv].
Defined.

Lemma set_depth_one_returns_witness :
  heap IntGraph.sum_state !! 0 = Some IntGraph.node_a ∧
  ∃ s', IntGraph.set 2 0 3%Z IntGraph.sum_state = Ok (tt, s') ∧
        ∃ nda', heap s' !! 0 = Some nda' ∧ m_value nda' = 3%Z ∧ m_refs nda' = [2].
Proof.
  assert (heap IntGraph.sum_state !! 0 = Some IntGraph.node_a) as Ha
    by (vm_compute; reflexivity).
  split; [exact Ha|].
  destruct (set_depth_one_returns IntGraph.int_ne IntGraph.int_eq
              0 0 IntGraph.node_a 3%Z IntGraph.sum_state Ha eq_refl)
    as (s' & Hset & nda' & Ha' & Hval & Hrefs & _).
  { constructor; [|constructor].
    exists (IntGraph.node_e BindingEvalPolicy.Instant true),
           (mkExpr BindingEvalPolicy.Instant IntGraph.plus [0; 1] true).
    split; [vm_compute; reflexivity|]. split; [reflexivity|]. split; [reflexivity|].
    constructor; [|constructor; [|constructor]].
    - exists IntGraph.node_a. split; vm_compute; reflexivity.
    - exists (mkNode 2%Z BindingCompPolicy.NotEqual [2] None).
      split; vm_compute; reflexivity. }
  exists s'. split; [exact Hset|]. exists nda'.
  split; [exact Ha'|]. split; [exact Hval | exact Hrefs].
Defined.

Lemma dirty_always_read_never_returns_witness :
  feeds_back 2 3 feedback_state ∧
  IntGraph.get 9 2 feedback_state = OutOfFuel ∧
  IntGraph.update 9 3 feedback_state = OutOfFuel.
Proof.
  assert (feeds_back 2 3 feedback_state) as Hfb.
  { exists (mkNode 3%Z BindingCompPolicy.Always [3]
              (Some (mkExpr BindingEvalPolicy.Lazy IntGraph.plus [0; 1] true))),
           (mkExpr BindingEvalPolicy.Lazy IntGraph.plus [0; 1] true),
           (mkNode 5%Z BindingCompPolicy.NotEqual []
              (Some (mkExpr BindingEvalPolicy.Instant IntGraph.plus [2; 1] true))),
           (mkExpr BindingEvalPolicy.Instant IntGraph.plus [2; 1] true),
           [1], [].
    split; [vm_compute; reflexivity|]. do 4 (split; [reflexivity|]).
    split.
    { constructor; [|constructor; [|constructor]].
      - exists (mkNode 5%Z BindingCompPolicy.NotEqual [2] None).
        split; vm_compute; reflexivity.
      - exists (mkNode 2%Z BindingCompPolicy.NotEqual [2; 3] None).
        split; vm_compute; reflexivity. }
    split; [vm_compute; reflexivity|]. repeat split; reflexivity. }
  split; [exact Hfb|].
  exact (dirty_always_read_never_returns IntGraph.int_ne IntGraph.int_eq
           2 3 feedback_state 9 Hfb).
Defined.

Lemma calls_follow_edges_witness :
  let s' := IntGraph.state_after (IntGraph.set 2 0 3%Z) IntGraph.sum_state in
  run_op IntGraph.int_ne IntGraph.int_eq 2 (OpSet 0 3%Z) IntGraph.sum_state
    = Ok (tt, s') ∧
  ∃ ev t, log s' = log IntGraph.sum_state ++ ev :: t ∧ target ev = 0 ∧
          along_edges IntGraph.sum_state t.
Proof.
  cbv zeta.
  set (s' := IntGraph.state_after (IntGraph.set 2 0 3%Z) IntGraph.sum_state).
  assert (run_op IntGraph.int_ne IntGraph.int_eq 2 (OpSet 0 3%Z) IntGraph.sum_state
          = Ok (tt, s')) as H
    by (apply (Ok_state_after (IntGraph.set 2 0 3%Z)); vm_compute; reflexivity).
  split; [exact H|].
  exact (calls_follow_edges IntGraph.int_ne IntGraph.int_eq 2 (OpSet 0 3%Z)
           IntGraph.sum_state s' H).
Defined.

Lemma set_again_reaches_nobody_witness :
  let s1 := IntGraph.state_after (IntGraph.set 2 0 3%Z) IntGraph.sum_state in
  IntGraph.set 2 0 3%Z IntGraph.sum_state = Ok (tt, s1) ∧
  IntGraph.set 1 0 3%Z s1 = Ok (tt, entered_set 0 3%Z s1).
Proof.
  cbv zeta.
  set (s1 := IntGraph.state_after (IntGraph.set 2 0 3%Z) IntGraph.sum_state).
  assert (IntGraph.set 2 0 3%Z IntGraph.sum_state = Ok (tt, s1)) as Hset
    by (apply Ok_state_after; vm_compute; reflexivity).
  assert (heap IntGraph.sum_state !! 0 = Some IntGraph.node_a) as Ha
    by (vm_compute; reflexivity).
  split; [exact Hset|].
  apply (set_again_reaches_nobody IntGraph.int_ne IntGraph.int_eq
           int_ne_sound int_eq_sound
           int_ne_irrefl Z.eqb_refl 2 1 0 IntGraph.node_a 3%Z IntGraph.sum_state s1
           Ha eq_refl (or_introl eq_refl) Hset).
Defined.
